(** * greedseek: spatial aggregation and density scoring

    A shallow embedding of the aggregation engine of
    [src/components/MapShell.tsx], [src/lib/mockData.ts] and
    [src/lib/safety.ts], and the properties the specification states
    about it.

    Numbers.  A JavaScript number is an IEEE double.  The counting and
    scoring code only adds, multiplies, divides, compares and rounds, so
    it is embedded over the exact rationals [Q] and stays executable.
    The projection code calls [Math.sin], [Math.log] and friends, and is
    embedded over the real numbers [R].  In both cases the embedding is
    the exact-arithmetic reading of the source: rounding error of the
    double format is not modelled. *)

From Stdlib Require Import ZArith QArith Qround Qminmax Lia Lqa.
From Stdlib Require Import List String Ascii Bool FinFun.
From Stdlib Require Import DecimalString DecimalZ DecimalPos.
From Stdlib Require Import Reals Lra.
Import ListNotations.

(** ** JavaScript helpers *)

Module Js.

(** A number read from untyped input: finite, or one of NaN and the
    infinities, which the source always filters with [isFinite]. *)
Inductive num : Type :=
| Finite (q : Q)
| NonFinite.

Definition isFinite (n : num) : bool :=
  match n with Finite _ => true | NonFinite => false end.

(** [a < b], [a <= b], [a > b], [a >= b] on numbers. *)
Definition ltb (a b : Q) : bool := negb (Qle_bool b a).
Definition leb (a b : Q) : bool := Qle_bool a b.
Definition gtb (a b : Q) : bool := ltb b a.
Definition geb (a b : Q) : bool := leb b a.

(** [Math.round]: the nearest integer, halves towards plus infinity. *)
Definition round (x : Q) : Z := Qfloor (x + (1 # 2)).

(** [Math.floor]. *)
Definition floor (x : Q) : Z := Qfloor x.

(** [Math.max] and [Math.min]. *)
Definition max (a b : Q) : Q := Qmax a b.
Definition min (a b : Q) : Q := Qmin a b.

(** [a ?? b]. *)
Definition nullish {A : Type} (a : option A) (b : A) : A :=
  match a with Some v => v | None => b end.

(** A [Map<string, V>]: entries in insertion order, one per key.
    [set] on a key already present keeps the entry's position. *)
Definition Map (V : Type) : Type := list (string * V).

Fixpoint get {V : Type} (k : string) (m : Map V) : option V :=
  match m with
  | [] => None
  | (k', v) :: rest => if String.eqb k k' then Some v else get k rest
  end.

Fixpoint set {V : Type} (k : string) (v : V) (m : Map V) : Map V :=
  match m with
  | [] => [(k, v)]
  | (k', v') :: rest =>
      if String.eqb k k' then (k', v) :: rest else (k', v') :: set k v rest
  end.

Definition keys {V : Type} (m : Map V) : list string := map fst m.

End Js.

(** ** Constants and scoring (MapShell.tsx) *)

Definition MAX_SPARSE_HEX_CELLS : Z := 120000.

Inductive PoiKind : Type :=
| synagogue | jcc | kosher | mikveh | jewish_school | jewish_camp.

Definition ALL_POI_KINDS : list PoiKind :=
  [synagogue; jcc; kosher; mikveh; jewish_school; jewish_camp].

Definition POI_ESTIMATE_WEIGHT (k : PoiKind) : Q :=
  match k with
  | synagogue => 250
  | jcc => 150
  | kosher => 40
  | mikveh => 80
  | jewish_school => 200
  | jewish_camp => 300
  end.

(** [GREED_MAX_BY_RES[res]]: [None] is a key the table does not hold. *)
Definition GREED_MAX_BY_RES (res : Z) : option Q :=
  match res with
  | 5%Z => Some 2500
  | 6%Z => Some 900
  | 8%Z => Some 300
  | _ => None
  end.

Definition clamp (n min max : Q) : Q := Js.max min (Js.min max n).

Definition greedLevelFromEstimated (estimated : Q) (res : Z) : Q :=
  let max := Js.nullish (GREED_MAX_BY_RES res) 1000 in
  let v := inject_Z (Js.round ((Js.max 0 estimated / max) * 100)) in
  clamp v 0 100.

Inductive PresenceTier : Type :=
| minimal | low | moderate | notable | significant.

Definition TIER_ORDER (t : PresenceTier) : Z :=
  match t with
  | minimal => 1 | low => 2 | moderate => 3 | notable => 4 | significant => 5
  end.

Definition tierForEstimate (estimate : Q) : PresenceTier :=
  if Js.geb estimate 16 then significant
  else if Js.geb estimate 8 then notable
  else if Js.geb estimate 4 then moderate
  else if Js.geb estimate 2 then low
  else minimal.

(** The level formula in the specification's words:
    [round(clamp(weightedEstimate / resolutionMax, 0, 1) * 100)]. *)
Definition resolutionMax (res : Z) : Q :=
  match res with
  | 5%Z => 2500
  | 6%Z => 900
  | 8%Z => 300
  | _ => 0
  end.

Definition spec_level (e : Q) (res : Z) : Q :=
  inject_Z (Js.round (clamp (e / resolutionMax res) 0 1 * 100)).

(** ** Resolution state machine (MapShell.tsx) *)

Inductive H3Resolution : Type := Res5 | Res6 | Res8.

Definition resNumber (r : H3Resolution) : Z :=
  match r with Res5 => 5 | Res6 => 6 | Res8 => 8 end.

Definition CITY_ENTER_Z : Q := 6.
Definition CITY_EXIT_Z : Q := 5.
Definition TOWN_ENTER_Z : Q := 8.
Definition TOWN_EXIT_Z : Q := 7.

Definition getHexRes (z : Q) : H3Resolution :=
  if Js.ltb z CITY_ENTER_Z then Res5
  else if Js.ltb z TOWN_ENTER_Z then Res6
  else Res8.

Definition getHexResWithHysteresis (nextZoom : Q) (prevRes : H3Resolution)
  : H3Resolution :=
  match prevRes with
  | Res8 =>
      if Js.ltb nextZoom TOWN_EXIT_Z
      then (if Js.geb nextZoom CITY_ENTER_Z then Res6 else Res5)
      else Res8
  | Res6 =>
      if Js.geb nextZoom TOWN_ENTER_Z then Res8
      else if Js.ltb nextZoom CITY_EXIT_Z then Res5
      else Res6
  | Res5 =>
      if Js.geb nextZoom TOWN_ENTER_Z then Res8
      else if Js.geb nextZoom CITY_ENTER_Z then Res6
      else Res5
  end.

(** ** Point in polygon (MapShell.tsx) *)

Definition Position : Type := (Q * Q)%type.
Definition Ring : Type := list Position.

(** One turn of the loop of [pointInRing]: does the edge from vertex [vj]
    to vertex [vi] cross the ray from [(x, y)]? *)
Definition intersect (x y : Q) (vi vj : Position) : bool :=
  let '(xi, yi) := vi in
  let '(xj, yj) := vj in
  negb (Bool.eqb (Js.gtb yi y) (Js.gtb yj y))
  && Js.ltb x (((xj - xi) * (y - yi)) / (yj - yi + 0) + xi).

(** The loop [for (i = 0, j = ring.length - 1; i < ring.length; j = i++)],
    with [vj] the vertex of index [j] and [rest] the vertices from [i] on. *)
Fixpoint pointInRing_from (x y : Q) (vj : Position) (rest : Ring)
  (inside : bool) : bool :=
  match rest with
  | [] => inside
  | vi :: rest' =>
      pointInRing_from x y vi rest'
        (if intersect x y vi vj then negb inside else inside)
  end.

Definition pointInRing (pt : Position) (ring : Ring) : bool :=
  let '(x, y) := pt in
  match ring with
  | [] => false
  | v0 :: _ => pointInRing_from x y (last ring v0) ring false
  end.

(** A GeoJSON geometry; [coordinates] absent is the empty list. *)
Inductive Geometry : Type :=
| Polygon (coordinates : list Ring)
| MultiPolygon (coordinates : list (list Ring))
| OtherGeometry (type : string).

(** The loop over the holes of one part of a MultiPolygon. *)
Fixpoint inAnyHole (pt : Position) (holes : list Ring) : bool :=
  match holes with
  | [] => false
  | h :: rest => if pointInRing pt h then true else inAnyHole pt rest
  end.

Fixpoint pointInMultiPolygon (pt : Position) (polys : list (list Ring))
  : bool :=
  match polys with
  | [] => false
  | poly :: rest =>
      let outer := Js.nullish (hd_error poly) [] in
      match outer with
      | [] => pointInMultiPolygon pt rest
      | _ =>
          if negb (pointInRing pt outer) then pointInMultiPolygon pt rest
          else if negb (inAnyHole pt (tl poly)) then true
          else pointInMultiPolygon pt rest
      end
  end.

Definition pointInGeoJsonPolygon (pt : Position) (geom : option Geometry)
  : bool :=
  match geom with
  | None => false
  | Some (Polygon coordinates) =>
      let outer := Js.nullish (hd_error coordinates) [] in
      match outer with
      | [] => false
      | _ =>
          if negb (pointInRing pt outer) then false
          else negb (inAnyHole pt (tl coordinates))
      end
  | Some (MultiPolygon coordinates) => pointInMultiPolygon pt coordinates
  | Some (OtherGeometry _) => false
  end.

(** ** Points of interest (MapShell.tsx) *)

(** ASCII reading of the string methods [normalizePoiKind] calls:
    [trim], [toLowerCase] and [replace(/[\s-]+/g, "_")]. *)
Definition isSpace (c : ascii) : bool :=
  let n := N_of_ascii c in
  (((9 <=? n) && (n <=? 13)) || (n =? 32))%N.

Definition toLower (c : ascii) : ascii :=
  let n := N_of_ascii c in
  if ((65 <=? n) && (n <=? 90))%N then ascii_of_N (n + 32) else c.

Fixpoint trimStart (s : string) : string :=
  match s with
  | EmptyString => EmptyString
  | String c rest => if isSpace c then trimStart rest else s
  end.

Fixpoint trimEnd (s : string) : string :=
  match s with
  | EmptyString => EmptyString
  | String c rest =>
      match trimEnd rest with
      | EmptyString => if isSpace c then EmptyString else String c EmptyString
      | rest' => String c rest'
      end
  end.

Definition trim (s : string) : string := trimEnd (trimStart s).

Fixpoint toLowerCase (s : string) : string :=
  match s with
  | EmptyString => EmptyString
  | String c rest => String (toLower c) (toLowerCase rest)
  end.

(** [replace(/[\s-]+/g, "_")]; [inRun] holds while the previous character
    belonged to the run being replaced. *)
Fixpoint replaceRuns (inRun : bool) (s : string) : string :=
  match s with
  | EmptyString => EmptyString
  | String c rest =>
      if isSpace c || Ascii.eqb c "-"%char
      then (if inRun then replaceRuns true rest
            else String "_"%char (replaceRuns true rest))
      else String c (replaceRuns false rest)
  end.

Definition isOneOf (value : string) (names : list string) : bool :=
  existsb (String.eqb value) names.

Definition normalizePoiKind (raw : option string) : option PoiKind :=
  let value :=
    replaceRuns false (toLowerCase (trim (Js.nullish raw EmptyString))) in
  if String.eqb value EmptyString then None
  else if isOneOf value ["synagogue"%string; "shul"%string]
       then Some synagogue
  else if isOneOf value
            ["jcc"%string;
             "jewish_community_center"%string;
             "jewish_community_centre"%string;
             "jewish_community_ctr"%string;
             "jewish_community_ctr."%string]
       then Some jcc
  else if isOneOf value ["kosher"%string; "kosher_amenity"%string]
       then Some kosher
  else if isOneOf value ["mikveh"%string; "mikvah"%string]
       then Some mikveh
  else if isOneOf value
            ["jewish_school"%string; "school"%string; "yeshiva"%string]
       then Some jewish_school
  else if isOneOf value
            ["jewish_camp"%string; "camp"%string; "summer_camp"%string]
       then Some jewish_camp
  else None.

(** A feature of the point collection: [properties.kind],
    [properties.type] and [geometry.coordinates] ([None] when it is not
    an array). *)
Record PoiFeature : Type := {
  poi_kind : option string;
  poi_type : option string;
  poi_coordinates : option (list Js.num)
}.

(** The guard shared by the loops over points: an array of at least two
    entries, both finite; yields [(lon, lat)]. *)
Definition finiteLonLat (f : PoiFeature) : option Position :=
  match poi_coordinates f with
  | Some (c0 :: c1 :: _) =>
      match c0, c1 with
      | Js.Finite lon, Js.Finite lat => Some (lon, lat)
      | _, _ => None
      end
  | _ => None
  end.

Record PoiCounts : Type := {
  n_synagogue : Z;
  n_jcc : Z;
  n_kosher : Z;
  n_mikveh : Z;
  n_jewish_school : Z;
  n_jewish_camp : Z
}.

Definition createEmptyPoiCounts : PoiCounts :=
  {| n_synagogue := 0; n_jcc := 0; n_kosher := 0; n_mikveh := 0;
     n_jewish_school := 0; n_jewish_camp := 0 |}.

Definition countOf (counts : PoiCounts) (kind : PoiKind) : Z :=
  match kind with
  | synagogue => n_synagogue counts
  | jcc => n_jcc counts
  | kosher => n_kosher counts
  | mikveh => n_mikveh counts
  | jewish_school => n_jewish_school counts
  | jewish_camp => n_jewish_camp counts
  end.

(** [counts[kind] = (counts[kind] ?? 0) + 1]. *)
Definition addOne (counts : PoiCounts) (kind : PoiKind) : PoiCounts :=
  let n := (countOf counts kind + 1)%Z in
  match kind with
  | synagogue =>
      {| n_synagogue := n; n_jcc := n_jcc counts; n_kosher := n_kosher counts;
         n_mikveh := n_mikveh counts;
         n_jewish_school := n_jewish_school counts;
         n_jewish_camp := n_jewish_camp counts |}
  | jcc =>
      {| n_synagogue := n_synagogue counts; n_jcc := n;
         n_kosher := n_kosher counts; n_mikveh := n_mikveh counts;
         n_jewish_school := n_jewish_school counts;
         n_jewish_camp := n_jewish_camp counts |}
  | kosher =>
      {| n_synagogue := n_synagogue counts; n_jcc := n_jcc counts;
         n_kosher := n; n_mikveh := n_mikveh counts;
         n_jewish_school := n_jewish_school counts;
         n_jewish_camp := n_jewish_camp counts |}
  | mikveh =>
      {| n_synagogue := n_synagogue counts; n_jcc := n_jcc counts;
         n_kosher := n_kosher counts; n_mikveh := n;
         n_jewish_school := n_jewish_school counts;
         n_jewish_camp := n_jewish_camp counts |}
  | jewish_school =>
      {| n_synagogue := n_synagogue counts; n_jcc := n_jcc counts;
         n_kosher := n_kosher counts; n_mikveh := n_mikveh counts;
         n_jewish_school := n; n_jewish_camp := n_jewish_camp counts |}
  | jewish_camp =>
      {| n_synagogue := n_synagogue counts; n_jcc := n_jcc counts;
         n_kosher := n_kosher counts; n_mikveh := n_mikveh counts;
         n_jewish_school := n_jewish_school counts; n_jewish_camp := n |}
  end.

Definition getEstimatedFromPoiCounts (counts : PoiCounts) : Q :=
  let total :=
    fold_left
      (fun total kind =>
         total + inject_Z (countOf counts kind) * POI_ESTIMATE_WEIGHT kind)
      ALL_POI_KINDS 0 in
  let rounded := Js.round total in
  if (0 <? rounded)%Z then inject_Z rounded else 0.

(** ** Hexagon features (MapShell.tsx) *)

(** The properties of a hexagon feature.  [p_cellId] stands for the
    properties [h3], [hexId], [id] and [cellId], which the source always
    writes together with one value; [p_estimated] for [estimated] and
    [estimate]. *)
Record HexProperties : Type := {
  p_cellId : option string;
  p_estimated : option Q;
  p_greedLevel : option Q;
  p_areaKm2 : option Q;
  p_density : option Q;
  p_score : option Q;
  p_estimateSmoothed : option Q;
  p_tier : option PresenceTier;
  p_resolution : option Z;
  p_poiCounts : option PoiCounts
}.

Record HexFeature : Type := {
  f_id : option string;
  f_properties : HexProperties;
  f_geometry : option Geometry
}.

(** A feature collection is its [features] array; [EMPTY_FC] has none. *)
Definition FeatureCollection : Type := list HexFeature.
Definition EMPTY_FC : FeatureCollection := [].

(** ** Sparse hexagons from points (MapShell.tsx) *)

(** The functions of the h3-js library the builder calls.  They are not
    part of this repository and stay abstract. *)
Record H3 : Type := {
  latLngToCell : Q -> Q -> Z -> string;
  gridDisk : string -> Z -> list string;
  cellToBoundary : string -> bool -> list Position;
  cellArea : option (string -> Js.num);
  cellAreaKm2 : option (string -> Js.num);
  cellAreaM2 : option (string -> Js.num)
}.

Definition fallbackByResolution (resolution : H3Resolution) : Q :=
  match resolution with
  | Res5 => 252
  | Res6 => 36
  | Res8 => 74 # 100
  end.

(** [isFinite(v) && v > 0] on the result of an optional library call. *)
Definition positiveArea (f : option (string -> Js.num)) (cell : string)
  : option Q :=
  match f with
  | Some area =>
      match area cell with
      | Js.Finite v => if Js.gtb v 0 then Some v else None
      | Js.NonFinite => None
      end
  | None => None
  end.

Definition getCellAreaKm2 (h3 : H3) (cell : string)
  (resolution : H3Resolution) : Q :=
  match positiveArea (cellArea h3) cell with
  | Some v => v
  | None =>
      match positiveArea (cellAreaKm2 h3) cell with
      | Some v => v
      | None =>
          match positiveArea (cellAreaM2 h3) cell with
          | Some v => v / 1000000
          | None => fallbackByResolution resolution
          end
      end
  end.

(** [[...values].sort((a, b) => a - b)], by insertion. *)
Fixpoint insertAsc (v : Q) (sorted : list Q) : list Q :=
  match sorted with
  | [] => [v]
  | w :: rest => if Js.leb v w then v :: sorted else w :: insertAsc v rest
  end.

Definition sortAsc (values : list Q) : list Q :=
  fold_right insertAsc [] values.

Definition percentile95 (values : list Q) : Q :=
  match values with
  | [] => 0
  | _ =>
      let sorted := sortAsc values in
      let idx :=
        Js.floor ((95 # 100) * inject_Z (Z.of_nat (List.length sorted) - 1)) in
      Js.nullish (nth_error sorted (Z.to_nat idx)) 0
  end.

(** The first loop: one increment of the home cell per accepted point. *)
Definition countCenter (h3 : H3) (resolution : H3Resolution)
  (centerEstimates : Js.Map Q) (f : PoiFeature) : Js.Map Q :=
  if negb (Js.nullish (option_map (String.eqb "synagogue"%string) (poi_kind f)) false)
  then centerEstimates
  else
    match finiteLonLat f with
    | None => centerEstimates
    | Some (lon, lat) =>
        let cell := latLngToCell h3 lat lon (resNumber resolution) in
        Js.set cell (Js.nullish (Js.get cell centerEstimates) 0 + 1)
          centerEstimates
    end.

Definition centerEstimatesOf (h3 : H3) (resolution : H3Resolution)
  (features : list PoiFeature) : Js.Map Q :=
  fold_left (countCenter h3 resolution) features [].

(** The halo loop over the neighbours of one cell. *)
Definition spreadHalo (h3 : H3) (cell : string) (haloEstimate : Q)
  (estimates : Js.Map Q) : Js.Map Q :=
  fold_left
    (fun estimates neighbor =>
       if String.eqb neighbor cell then estimates
       else
         let prev := Js.nullish (Js.get neighbor estimates) 0 in
         Js.set neighbor (Js.max prev haloEstimate) estimates)
    (gridDisk h3 cell 1) estimates.

Definition haloStep (h3 : H3) (estimates : Js.Map Q) (entry : string * Q)
  : Js.Map Q :=
  let '(cell, centerEstimate) := entry in
  let haloEstimate := centerEstimate * (25 # 100) in
  if Js.leb haloEstimate 0 then estimates
  else spreadHalo h3 cell haloEstimate estimates.

Definition estimatesOf (h3 : H3) (centerEstimates : Js.Map Q) : Js.Map Q :=
  fold_left (haloStep h3) centerEstimates centerEstimates.

Record SparseRow : Type := {
  row_cell : string;
  row_boundary : list Position;
  row_estimate : Q;
  row_areaKm2 : Q;
  row_density : Q;
  row_tier : PresenceTier
}.

(** The loop that emits rows: [processed] counts the entries visited;
    the second component is the flag [capped]. *)
Fixpoint sparseRows (h3 : H3) (resolution : H3Resolution)
  (entries : list (string * Q)) (processed : Z) : list SparseRow * bool :=
  match entries with
  | [] => ([], false)
  | (cell, estimateRaw) :: rest =>
      if (MAX_SPARSE_HEX_CELLS <=? processed)%Z then ([], true)
      else
        let processed := (processed + 1)%Z in
        let estimate := Js.max 0 (Js.min 10000 estimateRaw) in
        if Js.leb estimate 0 then sparseRows h3 resolution rest processed
        else
          let boundary := cellToBoundary h3 cell true in
          if (List.length boundary <? 4)%nat
          then sparseRows h3 resolution rest processed
          else
            let areaKm2 := getCellAreaKm2 h3 cell resolution in
            let densityRaw :=
              if Js.gtb estimate 0 && Js.gtb areaKm2 0
              then estimate / areaKm2 else 0 in
            let density := if Js.gtb densityRaw 0 then densityRaw else 0 in
            let '(rows, capped) :=
              sparseRows h3 resolution rest processed in
            ({| row_cell := cell; row_boundary := boundary;
                row_estimate := estimate; row_areaKm2 := areaKm2;
                row_density := density;
                row_tier := tierForEstimate estimate |} :: rows, capped)
  end.

Definition sparseFeature (resolution : H3Resolution) (p95 : Q)
  (r : SparseRow) : HexFeature :=
  let score :=
    if Js.gtb p95 0 then clamp (row_density r / p95) 0 1 else 0 in
  let greedLevel :=
    greedLevelFromEstimated (row_estimate r) (resNumber resolution) in
  {| f_id := Some (row_cell r);
     f_properties :=
       {| p_cellId := Some (row_cell r);
          p_estimated := Some (row_estimate r);
          p_greedLevel := Some greedLevel;
          p_areaKm2 := Some (row_areaKm2 r);
          p_density := Some (row_density r);
          p_score := Some score;
          p_estimateSmoothed := Some (row_estimate r);
          p_tier := Some (row_tier r);
          p_resolution := Some (resNumber resolution);
          p_poiCounts := None |};
     f_geometry := Some (Polygon [row_boundary r]) |}.

(** What the builder returns: the object [{ fc, p95 }]. *)
Record SparseResult : Type := {
  fc : FeatureCollection;
  p95 : Q
}.

(** What the builder writes to the console. *)
Inductive ConsoleEvent : Type :=
| WarnMaxCellsReached
    (resolution : H3Resolution) (maxCells candidateCells emittedCells : Z).

(** The builder past its two early returns: the loop over the
    estimates, the warning, the percentile and the features. *)
Definition sparseMain (h3 : H3) (resolution : H3Resolution)
  (estimates : Js.Map Q) : SparseResult * list ConsoleEvent :=
  let '(rows, capped) := sparseRows h3 resolution estimates 0 in
  let console :=
    if capped
    then [WarnMaxCellsReached resolution MAX_SPARSE_HEX_CELLS
            (Z.of_nat (List.length estimates)) (Z.of_nat (List.length rows))]
    else [] in
  let nonzeroDensities :=
    filter (fun d => Js.gtb d 0) (map row_density rows) in
  let p95 := percentile95 nonzeroDensities in
  let p95 := if Js.leb p95 0 then 1 else p95 in
  ({| fc := map (sparseFeature resolution p95) rows; p95 := p95 |}, console).

(** The builder: the returned object and the console output. *)
Definition buildSparseHexesFromPois (h3 : H3) (features : list PoiFeature)
  (resolution : H3Resolution) : SparseResult * list ConsoleEvent :=
  match features with
  | [] => ({| fc := EMPTY_FC; p95 := 1 |}, [])
  | _ =>
      let centerEstimates := centerEstimatesOf h3 resolution features in
      match centerEstimates with
      | [] => ({| fc := EMPTY_FC; p95 := 1 |}, [])
      | _ => sparseMain h3 resolution (estimatesOf h3 centerEstimates)
      end
  end.

(** ** Annotation with its cache (MapShell.tsx) *)

Record HexAnnotationCacheEntry : Type := {
  e_poiVersion : string;
  e_poiCounts : PoiCounts;
  e_estimated : Q;
  e_greedLevel : Js.num
}.

Definition AnnotationCache : Type := Js.Map HexAnnotationCacheEntry.

(** The points the annotation keeps: finite position and known kind. *)
Definition poiFeaturesOf (features : list PoiFeature)
  : list (Position * PoiKind) :=
  flat_map
    (fun f =>
       match finiteLonLat f with
       | None => []
       | Some pt =>
           match normalizePoiKind (poi_kind f) with
           | Some kind => [(pt, kind)]
           | None =>
               match normalizePoiKind (poi_type f) with
               | Some kind => [(pt, kind)]
               | None => []
               end
           end
       end)
    features.

Definition countInside (geom : option Geometry)
  (poiFeatures : list (Position * PoiKind)) : PoiCounts :=
  match geom with
  | None => createEmptyPoiCounts
  | Some _ =>
      fold_left
        (fun counts poi =>
           if pointInGeoJsonPolygon (fst poi) geom
           then addOne counts (snd poi) else counts)
        poiFeatures createEmptyPoiCounts
  end.

Section Annotate.

(** [JSON.stringify(f?.geometry?.coordinates?.[0]?.[0] ?? [])]: the
    printing of numbers is left to the JavaScript engine. *)
Variable jsonFirstCoordinate : option Geometry -> string.

Definition hexCellId (f : HexFeature) : string :=
  let s :=
    match p_cellId (f_properties f) with
    | Some v => v
    | None => Js.nullish (f_id f) EmptyString
    end in
  if String.eqb s EmptyString then jsonFirstCoordinate (f_geometry f) else s.

Definition cacheKeyOf (cellId poiVersion : string) : string :=
  String.append cellId (String.append ":"%string poiVersion).

(** The three values the annotation computes or reads for one cell. *)
Definition annotationOf (poiFeatures : list (Position * PoiKind))
  (cached : option HexAnnotationCacheEntry) (f : HexFeature)
  : PoiCounts * Q * Q :=
  let resolution := Js.nullish (p_resolution (f_properties f)) 6%Z in
  match cached with
  | Some entry =>
      let estimated := e_estimated entry in
      let greedLevel :=
        match e_greedLevel entry with
        | Js.Finite g => g
        | Js.NonFinite => greedLevelFromEstimated estimated resolution
        end in
      (e_poiCounts entry, estimated, greedLevel)
  | None =>
      let counts := countInside (f_geometry f) poiFeatures in
      let estimated := getEstimatedFromPoiCounts counts in
      (counts, estimated, greedLevelFromEstimated estimated resolution)
  end.

Definition withAnnotation (f : HexFeature) (a : PoiCounts * Q * Q)
  : HexFeature :=
  let '(counts, estimated, greedLevel) := a in
  let props := f_properties f in
  {| f_id := f_id f;
     f_properties :=
       {| p_cellId := p_cellId props;
          p_estimated := Some estimated;
          p_greedLevel := Some greedLevel;
          p_areaKm2 := p_areaKm2 props;
          p_density := p_density props;
          p_score := p_score props;
          p_estimateSmoothed := p_estimateSmoothed props;
          p_tier := p_tier props;
          p_resolution := p_resolution props;
          p_poiCounts := Some counts |};
     f_geometry := f_geometry f |}.

(** The callback of [hexFeatures.map]: the annotated feature and the
    cache it leaves. *)
Definition annotateHex (poiFeatures : list (Position * PoiKind))
  (poiVersion : string) (annotationCache : AnnotationCache)
  (f : HexFeature) : HexFeature * AnnotationCache :=
  let cacheKey := cacheKeyOf (hexCellId f) poiVersion in
  let cached := Js.get cacheKey annotationCache in
  let a := annotationOf poiFeatures cached f in
  let annotationCache :=
    match cached with
    | Some _ => annotationCache
    | None =>
        let '(counts, estimated, greedLevel) := a in
        Js.set cacheKey
          {| e_poiVersion := poiVersion; e_poiCounts := counts;
             e_estimated := estimated;
             e_greedLevel := Js.Finite greedLevel |}
          annotationCache
    end in
  (withAnnotation f a, annotationCache).

Fixpoint annotateAll (poiFeatures : list (Position * PoiKind))
  (poiVersion : string) (annotationCache : AnnotationCache)
  (hexFeatures : list HexFeature) : FeatureCollection * AnnotationCache :=
  match hexFeatures with
  | [] => ([], annotationCache)
  | f :: rest =>
      let '(f', annotationCache) :=
        annotateHex poiFeatures poiVersion annotationCache f in
      let '(rest', annotationCache) :=
        annotateAll poiFeatures poiVersion annotationCache rest in
      (f' :: rest', annotationCache)
  end.

(** [annotateHexesWithPois]: the collection returned and the cache as
    the call leaves it. *)
Definition annotateHexesWithPois (hexFc : FeatureCollection)
  (poisFc : list PoiFeature) (poiVersion : string)
  (annotationCache : AnnotationCache)
  : FeatureCollection * AnnotationCache :=
  match hexFc with
  | [] => (EMPTY_FC, annotationCache)
  | _ =>
      annotateAll (poiFeaturesOf poisFc) poiVersion annotationCache hexFc
  end.

End Annotate.

(** ** Projection and hexagon rings (MapShell.tsx, mockData.ts)

    Both files hold the same text for [lonLatToMercator],
    [mercatorToLonLat], [roundTo], [radiusMetersForResolution] and
    [makeHexRingMercator]; one embedding serves both. *)

(** The constant [R] of the source, the Earth radius in metres. *)
Definition EARTH_RADIUS : R := 6378137%R.

(** [HEX_COVERAGE]: must be exactly 1.0. *)
Definition HEX_COVERAGE : R := 1%R.

Definition VTX_DECIMALS : Z := 8.

Definition lonLatToMercator (lon lat : R) : R * R :=
  let x := ((lon * PI * EARTH_RADIUS) / 180)%R in
  let y := (ln (tan (PI / 4 + (lat * PI) / 360)) * EARTH_RADIUS)%R in
  (x, y).

Definition mercatorToLonLat (x y : R) : R * R :=
  let lon := ((x * 180) / (PI * EARTH_RADIUS))%R in
  let lat := ((atan (exp (y / EARTH_RADIUS)) * 360) / PI - 90)%R in
  (lon, lat).

(** [Math.round] on a real number. *)
Definition mathRound (x : R) : Z := Zfloor (x + / 2)%R.

Definition roundTo (n : R) (d : Z) : R :=
  let p := powerRZ 10 d in
  (IZR (mathRound (n * p)) / p)%R.

Definition radiusMetersForResolution (resolution : H3Resolution) : R :=
  match resolution with
  | Res5 => 23000%R
  | Res6 => 11000%R
  | Res8 => 2200%R
  end.

(** The body of the loop of [makeHexRingMercator] at index [k]. *)
Definition hexRingPoint (cx cy r : R) (k : Z) : R * R :=
  let ang := (((30 + 60 * IZR k) * PI) / 180)%R in
  let x := (cx + r * cos ang)%R in
  let y := (cy + r * sin ang)%R in
  let '(lon, lat) := mercatorToLonLat x y in
  (roundTo lon VTX_DECIMALS, roundTo lat VTX_DECIMALS).

Definition makeHexRingMercator (cx cy radiusM : R) : list (R * R) :=
  let r := (radiusM * HEX_COVERAGE)%R in
  let pts := map (hexRingPoint cx cy r) [0; 1; 2; 3; 4; 5]%Z in
  pts ++ [nth 0 pts (0%R, 0%R)].

(** The vertex of index [k] in the projected plane, in the words of the
    specification: at angle [30 + 60 k] degrees, at distance [r]. *)
Definition planeVertex (cx cy r : R) (k : Z) : R * R :=
  let ang := ((30 + 60 * IZR k) * PI / 180)%R in
  ((cx + r * cos ang)%R, (cy + r * sin ang)%R).

(** ** Offset-grid aggregation (mockData.ts) *)

Definition tierForCount (count : Z) : PresenceTier :=
  if (16 <=? count)%Z then significant
  else if (8 <=? count)%Z then notable
  else if (4 <=? count)%Z then moderate
  else if (2 <=? count)%Z then low
  else minimal.

Definition minCountForResolution (resolution : H3Resolution) : Z :=
  match resolution with
  | Res8 => 2
  | Res6 => 2
  | Res5 => 1
  end.

Record CellBucket : Type := {
  b_row : Z;
  b_col : Z;
  b_count : Z
}.

(** An integer the way a template string prints it. *)
Definition showZ (z : Z) : string :=
  DecimalString.NilZero.string_of_int (Z.to_int z).

(** [`${resolution}:${row}:${col}`]. *)
Definition cellIdOf (resolution : H3Resolution) (row col : Z) : string :=
  String.append (showZ (resNumber resolution))
    (String.append ":"%string
       (String.append (showZ row) (String.append ":"%string (showZ col)))).

(** Row and column of the home cell of one point. *)
Definition homeCell (resolution : H3Resolution) (point : R * R) : Z * Z :=
  let radiusM := radiusMetersForResolution resolution in
  let stepX := (sqrt 3 * radiusM)%R in
  let stepY := (15 / 10 * radiusM)%R in
  let offsetX := (stepX / 2)%R in
  let '(lon, lat) := point in
  let '(x, y) := lonLatToMercator lon lat in
  let row := mathRound (y / stepY) in
  let xRowOffset := if (Z.rem row 2 =? 0)%Z then 0%R else offsetX in
  let col := mathRound ((x - xRowOffset) / stepX) in
  (row, col).

(** The body of the loop over the points. *)
Definition binPoint (resolution : H3Resolution) (cells : Js.Map CellBucket)
  (point : R * R) : Js.Map CellBucket :=
  let '(row, col) := homeCell resolution point in
  let cellId := cellIdOf resolution row col in
  match Js.get cellId cells with
  | Some prev =>
      Js.set cellId
        {| b_row := b_row prev; b_col := b_col prev;
           b_count := b_count prev + 1 |} cells
  | None => Js.set cellId {| b_row := row; b_col := col; b_count := 1 |} cells
  end.

Record GridFeature : Type := {
  g_tier : PresenceTier;
  g_cellId : string;
  g_count : Z;
  g_ring : list (R * R)
}.

(** The body of the loop over the buckets: nothing for a bucket under
    the minimum, one feature otherwise. *)
Definition emitBucket (resolution : H3Resolution)
  (entry : string * CellBucket) : list GridFeature :=
  let '(cellId, cell) := entry in
  let radiusM := radiusMetersForResolution resolution in
  let stepX := (sqrt 3 * radiusM)%R in
  let stepY := (15 / 10 * radiusM)%R in
  let offsetX := (stepX / 2)%R in
  if (b_count cell <? minCountForResolution resolution)%Z then []
  else
    let xRowOffset := if (Z.rem (b_row cell) 2 =? 0)%Z then 0%R else offsetX in
    let cx := (IZR (b_col cell) * stepX + xRowOffset)%R in
    let cy := (IZR (b_row cell) * stepY)%R in
    [{| g_tier := tierForCount (b_count cell);
        g_cellId := cellId;
        g_count := b_count cell;
        g_ring := makeHexRingMercator cx cy radiusM |}].

Definition bucketsOf (points : list (R * R)) (resolution : H3Resolution)
  : Js.Map CellBucket :=
  fold_left (binPoint resolution) points [].

Definition aggregatePointsToHexFC (points : list (R * R))
  (resolution : H3Resolution) : list GridFeature :=
  flat_map (emitBucket resolution) (bucketsOf points resolution).

(** ** Display threshold (safety.ts) *)

Definition K_ANONYMITY_THRESHOLD : Z := 3.

Definition isKAnonymous (count : Z) : bool :=
  (K_ANONYMITY_THRESHOLD <=? count)%Z.

(** ** The specification's transition rule

    The rule of the resolution state machine in the words of the
    specification, with enter thresholds 6 and 8 and exits one unit
    below them. *)
Inductive spec_transition (z : Q) : H3Resolution -> H3Resolution -> Prop :=
| fine_stays : 7 <= z -> spec_transition z Res8 Res8
| fine_to_medium : z < 7 -> 6 <= z -> spec_transition z Res8 Res6
| fine_to_coarse : z < 7 -> z < 6 -> spec_transition z Res8 Res5
| medium_to_fine : 8 <= z -> spec_transition z Res6 Res8
| medium_to_coarse : z < 5 -> spec_transition z Res6 Res5
| medium_stays : 5 <= z -> z < 8 -> spec_transition z Res6 Res6
| coarse_to_fine : 8 <= z -> spec_transition z Res5 Res8
| coarse_to_medium : 6 <= z -> z < 8 -> spec_transition z Res5 Res6
| coarse_stays : z < 6 -> spec_transition z Res5 Res5.

(** ** Containment in the specification's words *)

(** Two positions with the same coordinates. *)
Definition samePosition (p q : Position) : Prop :=
  fst p == fst q /\ snd p == snd q.

(** A vertex that is one of the two points [a] and [b]: a ring of such
    vertices has fewer than three effective vertices. *)
Definition oneOfTwo (a b v : Position) : Prop :=
  samePosition v a \/ samePosition v b.

(** The point is inside the outer ring of a part (a Polygon, or one part
    of a MultiPolygon) and inside none of its holes. *)
Definition inPart (pt : Position) (part : list Ring) : Prop :=
  exists outer holes,
    part = outer :: holes
    /\ pointInRing pt outer = true
    /\ forall h, In h holes -> pointInRing pt h = false.

(** ** The ring in the specification's words *)

(** A coordinate with at most eight decimal places: an integer number of
    hundred-millionths. *)
Definition eightDecimals (c : R) : Prop :=
  exists m : Z, c = (IZR m / 10 ^ 8)%R.

(** Seven vertices, the last equal to the first; vertex [k] (0 to 5) is
    the image of the plane point at angle [30 + 60 k] degrees and
    distance [r] from the centre, converted to longitude and latitude
    and rounded; every coordinate has at most eight decimal places. *)
Definition hexRingShape (cx cy r : R) (ring : list (R * R)) : Prop :=
  List.length ring = 7%nat
  /\ nth 6 ring (0, 0)%R = nth 0 ring (0, 0)%R
  /\ (forall k : nat,
         (k < 6)%nat ->
         let v := planeVertex cx cy r (Z.of_nat k) in
         sqrt ((fst v - cx) ^ 2 + (snd v - cy) ^ 2) = r
         /\ nth k ring (0, 0)%R
            = (roundTo (fst (mercatorToLonLat (fst v) (snd v))) VTX_DECIMALS,
               roundTo (snd (mercatorToLonLat (fst v) (snd v))) VTX_DECIMALS))
  /\ Forall (fun v => eightDecimals (fst v) /\ eightDecimals (snd v)) ring.

(** ** Counting in the specification's words *)

(** The sum of [w v] over the entries of a map whose key [sel] keeps. *)
Definition sumOver {V : Type} (w : V -> Z) (sel : string -> bool)
  (m : Js.Map V) : Z :=
  fold_right (fun e acc => ((if sel (fst e) then w (snd e) else 0) + acc)%Z)
    0%Z m.

Definition everyKey (k : string) : bool := true.

(** The identifier of the home cell of a point. *)
Definition homeCellId (resolution : H3Resolution) (point : R * R) : string :=
  cellIdOf resolution (fst (homeCell resolution point))
    (snd (homeCell resolution point)).

(** The point lies in a cell the aggregation emitted. *)
Definition covered (resolution : H3Resolution) (features : list GridFeature)
  (point : R * R) : bool :=
  existsb (fun f => String.eqb (g_cellId f) (homeCellId resolution point))
    features.

Definition sumZ (l : list Z) : Z := fold_right Z.add 0%Z l.

(** The count of the bucket of identifier [k]; 0 without a bucket. *)
Definition countAt (k : string) (cells : Js.Map CellBucket) : Z :=
  match Js.get k cells with Some b => b_count b | None => 0%Z end.

(** Every bucket sits under the identifier of its own row and column. *)
Definition wellKeyed (resolution : H3Resolution) (cells : Js.Map CellBucket)
  : Prop :=
  forall k b,
    Js.get k cells = Some b -> k = cellIdOf resolution (b_row b) (b_col b).

(** What a bucket contributes to the output: its count when the
    emission loop keeps it. *)
Definition keptCount (resolution : H3Resolution) (b : CellBucket) : Z :=
  if (b_count b <? minCountForResolution resolution)%Z then 0%Z else b_count b.

(** The sum of the values of a map of numbers whose key [sel] keeps. *)
Definition sumOverQ (sel : string -> bool) (m : Js.Map Q) : Q :=
  fold_right (fun e acc => (if sel (fst e) then snd e else 0) + acc) 0 m.

(** The home cell of a point of the sparse builder; [None] for a point
    the first loop skips. *)
Definition sparseHome (h3 : H3) (resolution : H3Resolution) (f : PoiFeature)
  : option string :=
  match poi_kind f with
  | Some kind =>
      if String.eqb "synagogue" kind
      then
        match finiteLonLat f with
        | Some (lon, lat) => Some (latLngToCell h3 lat lon (resNumber resolution))
        | None => None
        end
      else None
  | None => None
  end.

Definition homeIs (h3 : H3) (resolution : H3Resolution) (sel : string -> bool)
  (f : PoiFeature) : bool :=
  match sparseHome h3 resolution f with
  | Some cell => sel cell
  | None => false
  end.


(** ** The halo in the specification's words *)

(** The value a map of numbers holds at a key, 0 without an entry. *)
Definition valueAt (k : string) (m : Js.Map Q) : Q :=
  Js.nullish (Js.get k m) 0.

(** Cell [n] is adjacent to cell [c]: it is in the disk of radius 1
    around [c] and is not [c] itself. *)
Definition adjacentTo (h3 : H3) (n c : string) : bool :=
  existsb (String.eqb n) (gridDisk h3 c 1) && negb (String.eqb n c).

(** The largest count among the cells [n] is adjacent to; 0 without
    any. *)
Definition largestAdjacentCount (h3 : H3) (centerEstimates : Js.Map Q)
  (n : string) : Q :=
  fold_right
    (fun e acc => if adjacentTo h3 n (fst e) then Js.max (snd e) acc else acc)
    0 centerEstimates.

(** One turn of the loop of [spreadHalo] over the neighbours. *)
Definition haloTurn (cell : string) (haloEstimate : Q) (estimates : Js.Map Q)
  (neighbor : string) : Js.Map Q :=
  if String.eqb neighbor cell then estimates
  else Js.set neighbor (Js.max (valueAt neighbor estimates) haloEstimate)
         estimates.

(** ** Inputs for runs of the sparse builder *)

(** A point of kind synagogue at a finite position. *)
Definition synagogueAt (lon lat : Q) : PoiFeature :=
  {| poi_kind := Some "synagogue"%string;
     poi_type := None;
     poi_coordinates := Some [Js.Finite lon; Js.Finite lat] |}.

(** An instance of the library that names a cell by the latitude in
    ten-thousandths of a degree, and gives a cell no neighbour and no
    boundary. *)
Definition bareH3 : H3 :=
  {| latLngToCell := fun lat _ _ => showZ (Js.floor (lat * 10000));
     gridDisk := fun cell _ => [cell];
     cellToBoundary := fun _ _ => [];
     cellArea := None;
     cellAreaKm2 := None;
     cellAreaM2 := None |}.

(** [n] points on the meridian 0, one every ten-thousandth of a degree
    of latitude from the equator on. *)
Definition pointsOnMeridian (n : nat) : list PoiFeature :=
  map (fun i => synagogueAt 0 (inject_Z (Z.of_nat i) / 10000)) (seq 0 n).

(** The input of the run over the cap: 120001 points in 120001 cells,
    up to latitude 12. *)
Definition overCapPoints : list PoiFeature :=
  pointsOnMeridian (N.to_nat 120001).

(** ** The cache in the specification's words *)

(** A string without the character [:], as the indexes of h3-js are. *)
Fixpoint colonFree (s : string) : bool :=
  match s with
  | EmptyString => true
  | String c rest => negb (Ascii.eqb c ":"%char) && colonFree rest
  end.

(** What the annotation adds to a feature. *)
Definition annotationIn (f : HexFeature)
  : option PoiCounts * option Q * option Q :=
  (p_poiCounts (f_properties f), p_estimated (f_properties f),
   p_greedLevel (f_properties f)).

(** Every entry of [c] is an entry of [c']. *)
Definition extends (c c' : AnnotationCache) : Prop :=
  forall k e, Js.get k c = Some e -> Js.get k c' = Some e.

(** Two caches that hold the same entries under the keys of a run over
    the cells [fs] with fingerprint [poiVersion]. *)
Definition agreeOn (jsonFirstCoordinate : option Geometry -> string)
  (poiVersion : string) (fs : list HexFeature) (c d : AnnotationCache)
  : Prop :=
  forall f,
    In f fs ->
    Js.get (cacheKeyOf (hexCellId jsonFirstCoordinate f) poiVersion) c
    = Js.get (cacheKeyOf (hexCellId jsonFirstCoordinate f) poiVersion) d.

(** A square cell: identifier, resolution 5, and the square of side 2
    whose lower left corner is [(x, y)]. *)
Definition squareCell (cellId : string) (x y : Q) : HexFeature :=
  {| f_id := Some cellId;
     f_properties :=
       {| p_cellId := Some cellId;
          p_estimated := None; p_greedLevel := None; p_areaKm2 := None;
          p_density := None; p_score := None; p_estimateSmoothed := None;
          p_tier := None; p_resolution := Some 5%Z; p_poiCounts := None |};
     f_geometry :=
       Some (Polygon [[(x, y); (x + 2, y); (x + 2, y + 2); (x, y + 2); (x, y)]])
  |}.

(** A printer for the fallback identifier; the cells used here carry
    their own. *)
Definition noJson (g : option Geometry) : string := "[]"%string.

Definition colonFreeId (jsonFirstCoordinate : option Geometry -> string)
  (f : HexFeature) : Prop :=
  colonFree (hexCellId jsonFirstCoordinate f) = true.

(** ** The scenario of ten points *)

(** A lattice standing in for h3-js on concrete inputs: the cell of a
    point is the unit square it lies in, numbered [column + 1000 row],
    and a cell has six neighbours. *)
Definition readZ (s : string) : Z :=
  match NilZero.int_of_string s with
  | Some d => Z.of_int d
  | None => 0%Z
  end.

Definition gridH3 : H3 :=
  {| latLngToCell :=
       fun lat lon _ => showZ (Js.floor lon + 1000 * Js.floor lat);
     gridDisk :=
       fun cell _ =>
         let i := readZ cell in
         map showZ [i; i + 1; i - 1; i + 1000; i - 1000; i + 999; i - 999]%Z;
     cellToBoundary :=
       fun cell _ =>
         let i := readZ cell in
         let x := inject_Z (i mod 1000) in
         let y := inject_Z (i / 1000) in
         [(x, y); (x + 1, y); (x + 1, y + 1); (x, y + 1); (x, y)];
     cellArea := None;
     cellAreaKm2 := None;
     cellAreaM2 := None |}.

(** The scenario: ten points of kind synagogue at one position. *)
Definition tenPoints (lon lat : Q) : list PoiFeature :=
  repeat (synagogueAt lon lat) 10.

(** Ten in the first category, none in the others. *)
Definition tenSynagogues : PoiCounts :=
  {| n_synagogue := 10; n_jcc := 0; n_kosher := 0; n_mikveh := 0;
     n_jewish_school := 0; n_jewish_camp := 0 |}.

(** The home cell of the scenario after annotation. *)
Definition isHomeCell (cell : string) (f : HexFeature) : Prop :=
  p_cellId (f_properties f) = Some cell
  /\ (exists raw, p_estimateSmoothed (f_properties f) = Some raw /\ raw == 10)
  /\ p_tier (f_properties f) = Some notable
  /\ p_poiCounts (f_properties f) = Some tenSynagogues
  /\ p_estimated (f_properties f) = Some 2500
  /\ p_greedLevel (f_properties f) = Some 100.

(** A halo cell of the scenario: adjacent to the home cell, with a
    quarter of its count. *)
Definition isHaloCell (h3 : H3) (cell : string) (f : HexFeature) : Prop :=
  exists n raw,
    p_cellId (f_properties f) = Some n
    /\ n <> cell
    /\ In n (gridDisk h3 cell 1)
    /\ p_estimateSmoothed (f_properties f) = Some raw
    /\ raw == 25 # 10
    /\ p_tier (f_properties f) = Some low.

(** The estimates while the halo of the cell [home] spreads: the entry
    of [home] first, then entries of adjacent cells that hold the
    halo. *)
Definition haloShape (h3 : H3) (home : string) (v halo : Q) (m : Js.Map Q)
  : Prop :=
  exists tail,
    m = (home, v) :: tail
    /\ Forall
         (fun e => fst e <> home /\ In (fst e) (gridDisk h3 home 1)
                   /\ snd e == halo)
         tail.

(** The annotation leaves identifier, raw estimate and tier as they
    were. *)
Definition sameCell (f o : HexFeature) : Prop :=
  p_cellId (f_properties o) = p_cellId (f_properties f)
  /\ p_estimateSmoothed (f_properties o) = p_estimateSmoothed (f_properties f)
  /\ p_tier (f_properties o) = p_tier (f_properties f).

(** ** Level bins (MapShell.tsx) *)

Record LevelBin : Type := {
  bin_min : Q;
  bin_max : Q;
  bin_color : string;
  bin_label : string
}.

Definition HEX_LEVEL_BINS : list LevelBin :=
  [ {| bin_min := 0; bin_max := 19;
       bin_color := "#22C55E"%string; bin_label := "Low"%string |};
    {| bin_min := 20; bin_max := 39;
       bin_color := "#A3E635"%string; bin_label := "Moderate"%string |};
    {| bin_min := 40; bin_max := 59;
       bin_color := "#FACC15"%string; bin_label := "Elevated"%string |};
    {| bin_min := 60; bin_max := 79;
       bin_color := "#FB923C"%string; bin_label := "High"%string |};
    {| bin_min := 80; bin_max := 100;
       bin_color := "#EF4444"%string; bin_label := "Very High"%string |} ].

(** The loop of [greedBinForLevel] from the bin of index [i] down to
    index 0; [None] when it falls through. *)
Fixpoint greedBinFrom (level : Q) (i : nat) : option LevelBin :=
  match nth_error HEX_LEVEL_BINS i with
  | Some bin =>
      if Js.geb level (bin_min bin) then Some bin
      else match i with
           | O => None
           | S i' => greedBinFrom level i'
           end
  | None => None
  end.

Definition greedBinForLevel (level : Q) : option LevelBin :=
  match greedBinFrom level (List.length HEX_LEVEL_BINS - 1) with
  | Some bin => Some bin
  | None => nth_error HEX_LEVEL_BINS 0
  end.

(** ** Resolution updates of the component (MapShell.tsx) *)

Definition H3Resolution_eqb (a b : H3Resolution) : bool :=
  (resNumber a =? resNumber b)%Z.

(** The initial state [useState(() => getHexResWithHysteresis(zoom,
    getHexRes(zoom)))]. *)
Definition initialRes (zoom : Q) : H3Resolution :=
  getHexResWithHysteresis zoom (getHexRes zoom).

(** The updater [setCurrentRes] receives in [updateViewport] and in
    [updateHexResolution]. *)
Definition updateHexResolution (prev : H3Resolution) (nextZoom : Q)
  : H3Resolution :=
  let nextRes := getHexResWithHysteresis nextZoom prev in
  if H3Resolution_eqb prev nextRes then prev else nextRes.

(** The state after a sequence of viewport events. *)
Definition afterZooms (init : H3Resolution) (zooms : list Q) : H3Resolution :=
  fold_left updateHexResolution zooms init.

(** The stretch between two consecutive thresholds a zoom lies in:
    below 5, [5, 6), [6, 7), [7, 8), or 8 and above. *)
Definition zoomBand (z : Q) : Z :=
  if Js.ltb z CITY_EXIT_Z then 0
  else if Js.ltb z CITY_ENTER_Z then 1
  else if Js.ltb z TOWN_EXIT_Z then 2
  else if Js.ltb z TOWN_ENTER_Z then 3
  else 4.

(** ** Points and weights inside a geometry *)

Definition PoiKind_eqb (a b : PoiKind) : bool :=
  match a, b with
  | synagogue, synagogue | jcc, jcc | kosher, kosher | mikveh, mikveh
  | jewish_school, jewish_school | jewish_camp, jewish_camp => true
  | _, _ => false
  end.

(** The points of the list that lie in the geometry. *)
Definition pointsInside (geom : option Geometry)
  (poiFeatures : list (Position * PoiKind)) : list (Position * PoiKind) :=
  filter (fun poi => pointInGeoJsonPolygon (fst poi) geom) poiFeatures.

(** The sum of the weights of the kinds of a list of points. *)
Definition totalWeight (pois : list (Position * PoiKind)) : Q :=
  fold_right (fun poi acc => POI_ESTIMATE_WEIGHT (snd poi) + acc) 0 pois.

Definition countKind (kind : PoiKind) (pois : list (Position * PoiKind)) : Z :=
  Z.of_nat (List.length (filter (fun poi => PoiKind_eqb (snd poi) kind) pois)).

(** ** The cells of the sparse builder *)

(** What every feature of the builder's collection holds. *)
Definition wellFormedSparse (h3 : H3) (resolution : H3Resolution)
  (f : HexFeature) : Prop :=
  exists cell estimate density score,
    f_id f = Some cell
    /\ p_cellId (f_properties f) = Some cell
    /\ p_estimated (f_properties f) = Some estimate
    /\ p_estimateSmoothed (f_properties f) = Some estimate
    /\ (0 < estimate /\ estimate <= 10000)
    /\ p_areaKm2 (f_properties f) = Some (getCellAreaKm2 h3 cell resolution)
    /\ p_density (f_properties f) = Some density
    /\ (0 < density /\ density == estimate / getCellAreaKm2 h3 cell resolution)
    /\ p_score (f_properties f) = Some score
    /\ (0 < score /\ score <= 1)
    /\ p_greedLevel (f_properties f)
       = Some (greedLevelFromEstimated estimate (resNumber resolution))
    /\ p_tier (f_properties f) = Some (tierForEstimate estimate)
    /\ p_resolution (f_properties f) = Some (resNumber resolution)
    /\ f_geometry f = Some (Polygon [cellToBoundary h3 cell true])
    /\ (4 <= List.length (cellToBoundary h3 cell true))%nat.

(** The feature's density and score, 0 where the property is absent. *)
Definition densityOf (f : HexFeature) : Q :=
  Js.nullish (p_density (f_properties f)) 0.

Definition scoreOf (f : HexFeature) : Q :=
  Js.nullish (p_score (f_properties f)) 0.

(** What the loop over the estimates stores in a row. *)
Definition rowShape (h3 : H3) (resolution : H3Resolution) (r : SparseRow)
  : Prop :=
  (0 < row_estimate r /\ row_estimate r <= 10000)
  /\ row_boundary r = cellToBoundary h3 (row_cell r) true
  /\ (4 <= List.length (row_boundary r))%nat
  /\ row_areaKm2 r = getCellAreaKm2 h3 (row_cell r) resolution
  /\ row_density r = row_estimate r / row_areaKm2 r
  /\ 0 < row_density r
  /\ row_tier r = tierForEstimate (row_estimate r).

(** ** The loaded points and the places inside a cell (MapShell.tsx) *)

(** The name of a kind: the string the union type [PoiKind] holds. *)
Definition poiKindName (kind : PoiKind) : string :=
  match kind with
  | synagogue => "synagogue"
  | jcc => "jcc"
  | kosher => "kosher"
  | mikveh => "mikveh"
  | jewish_school => "jewish_school"
  | jewish_camp => "jewish_camp"
  end.

(** A feature of the point collection with what the component reads
    besides kind, type and coordinates: [geometry.type], and the other
    properties, each as [String(raw)] gives it, [None] when null or
    undefined. *)
Record PoiRecord : Type := {
  r_feature : PoiFeature;
  r_geometryType : option string;
  r_properties : string -> option string
}.

(** [normalizePoiKind(props.kind) ?? normalizePoiKind(props.type)]. *)
Definition canonicalKind (f : PoiFeature) : option PoiKind :=
  match normalizePoiKind (poi_kind f) with
  | Some kind => Some kind
  | None => normalizePoiKind (poi_type f)
  end.

Definition isPoint (f : PoiRecord) : bool :=
  match r_geometryType f with
  | Some t => String.eqb t "Point"
  | None => false
  end.

(** The callback of [map] in the loader: [kind], and with it
    [kindCanonical], becomes the canonical name, or the empty string
    without one. *)
Definition withCanonicalKind (f : PoiRecord) : PoiRecord :=
  let canonical := canonicalKind (r_feature f) in
  let kind :=
    match canonical with
    | Some k => poiKindName k
    | None => EmptyString
    end in
  {| r_feature :=
       {| poi_kind := Some kind;
          poi_type := poi_type (r_feature f);
          poi_coordinates := poi_coordinates (r_feature f) |};
     r_geometryType := r_geometryType f;
     r_properties := r_properties f |}.

(** [!!f?.properties?.kind]. *)
Definition hasKind (f : PoiRecord) : bool :=
  match poi_kind (r_feature f) with
  | Some kind => negb (String.eqb kind EmptyString)
  | None => false
  end.

(** The features the loader keeps of a fetched collection. *)
Definition normalizedFeatures (features : list PoiRecord) : list PoiRecord :=
  filter hasKind (map withCanonicalKind (filter isPoint features)).

(** [synagoguePois]: [kind === "synagogue"] on a [Point]. *)
Definition synagoguePois (pois : list PoiRecord) : list PoiRecord :=
  filter
    (fun f =>
       Js.nullish
         (option_map (String.eqb "synagogue"%string) (poi_kind (r_feature f)))
         false
       && isPoint f)
    pois.

Fixpoint readPoiValue (props : string -> option string) (keys : list string)
  : string :=
  match keys with
  | [] => EmptyString
  | key :: rest =>
      match props key with
      | None => readPoiValue props rest
      | Some raw =>
          let value := trim raw in
          if String.eqb value EmptyString then readPoiValue props rest
          else value
      end
  end.

(** An entry of [poisInside]. *)
Record PoiInside : Type := {
  in_name : string;
  in_kind : PoiKind;
  in_osmId : string
}.

Record InsideResult : Type := {
  res_poiCounts : PoiCounts;
  res_poisInside : list PoiInside;
  res_estimated : Q;
  res_greedLevel : Q
}.

(** The body of the loop of [computePoisInsideHex]. *)
Definition insideStep (geom : option Geometry)
  (acc : PoiCounts * list PoiInside) (f : PoiRecord)
  : PoiCounts * list PoiInside :=
  let '(poiCounts, poisInside) := acc in
  match finiteLonLat (r_feature f) with
  | None => acc
  | Some pt =>
      if negb (pointInGeoJsonPolygon pt geom) then acc
      else
        match canonicalKind (r_feature f) with
        | None => acc
        | Some kind =>
            let name := readPoiValue (r_properties f) ["name"%string] in
            (addOne poiCounts kind,
             poisInside
             ++ [{| in_name :=
                      if String.eqb name EmptyString
                      then "Unnamed place"%string else name;
                    in_kind := kind;
                    in_osmId :=
                      readPoiValue (r_properties f)
                        ["osm_id"%string; "id"%string] |}])
        end
  end.

Definition computePoisInsideHex (hexFeature : HexFeature)
  (allPoisFC : list PoiRecord) : InsideResult :=
  match f_geometry hexFeature with
  | None =>
      {| res_poiCounts := createEmptyPoiCounts; res_poisInside := [];
         res_estimated := 0; res_greedLevel := 0 |}
  | Some _ =>
      let '(poiCounts, poisInside) :=
        fold_left (insideStep (f_geometry hexFeature)) allPoisFC
          (createEmptyPoiCounts, []) in
      let estimated := getEstimatedFromPoiCounts poiCounts in
      let resolution := Js.nullish (p_resolution (f_properties hexFeature)) 6%Z in
      {| res_poiCounts := poiCounts; res_poisInside := poisInside;
         res_estimated := estimated;
         res_greedLevel := greedLevelFromEstimated estimated resolution |}
  end.

(** ** Cells by identifier (MapShell.tsx) *)

Definition getHexFeatureId (feature : HexFeature) : string :=
  let raw :=
    match p_cellId (f_properties feature) with
    | Some v => Some v
    | None => f_id feature
    end in
  match raw with
  | None => EmptyString
  | Some v => trim v
  end.

Definition hexFeatureById (hexFC : FeatureCollection) : Js.Map HexFeature :=
  fold_left
    (fun map f =>
       let id := getHexFeatureId f in
       if String.eqb id EmptyString then map else Js.set id f map)
    hexFC [].

(** ** What the annotation keeps *)

(** The annotation leaves everything but counts, estimate and level. *)
Definition sameButAnnotation (f o : HexFeature) : Prop :=
  f_id o = f_id f
  /\ f_geometry o = f_geometry f
  /\ p_cellId (f_properties o) = p_cellId (f_properties f)
  /\ p_areaKm2 (f_properties o) = p_areaKm2 (f_properties f)
  /\ p_density (f_properties o) = p_density (f_properties f)
  /\ p_score (f_properties o) = p_score (f_properties f)
  /\ p_estimateSmoothed (f_properties o) = p_estimateSmoothed (f_properties f)
  /\ p_tier (f_properties o) = p_tier (f_properties f)
  /\ p_resolution (f_properties o) = p_resolution (f_properties f).

(** The estimate a feature carries is the one of the counts it
    carries. *)
Definition estimateOfCounts (f : HexFeature) : Prop :=
  exists counts,
    p_poiCounts (f_properties f) = Some counts
    /\ p_estimated (f_properties f)
       = Some (getEstimatedFromPoiCounts counts).

(** Every entry of the cache holds the estimate of its counts. *)
Definition consistentCache (c : AnnotationCache) : Prop :=
  forall k e,
    Js.get k c = Some e ->
    e_estimated e = getEstimatedFromPoiCounts (e_poiCounts e).

(** ** The kinds shown, in the address and in the panel (MapShell.tsx) *)

(** [raw.split(",")]. *)
Fixpoint splitComma (s : string) : list string :=
  match s with
  | EmptyString => [EmptyString]
  | String c rest =>
      if Ascii.eqb c ","%char then EmptyString :: splitComma rest
      else
        match splitComma rest with
        | first :: others => String c first :: others
        | [] => [String c EmptyString]
        end
  end.

(** [names.join(",")]. *)
Fixpoint joinComma (names : list string) : string :=
  match names with
  | [] => EmptyString
  | [name] => name
  | name :: rest => String.append name (String "," (joinComma rest))
  end.

(** The set the parser fills: the trimmed candidates that are names of
    kinds. *)
Definition kindSet (enabledKindsRaw : string) : list string :=
  filter
    (fun candidate =>
       existsb (String.eqb candidate) (map poiKindName ALL_POI_KINDS))
    (map trim (splitComma enabledKindsRaw)).

(** [enabledKinds] of [initialUrlState], from [params.get("enabledKinds")]. *)
Definition parseEnabledKinds (enabledKindsRaw : option string)
  : list PoiKind :=
  match enabledKindsRaw with
  | None => ALL_POI_KINDS
  | Some raw =>
      if String.eqb raw EmptyString then ALL_POI_KINDS
      else
        let set := kindSet raw in
        filter (fun k => existsb (String.eqb (poiKindName k)) set)
          ALL_POI_KINDS
  end.

(** What the address holds after [params.set("enabledKinds",
    enabledKinds.join(","))]. *)
Definition enabledKindsParam (enabledKinds : list PoiKind) : string :=
  joinComma (map poiKindName enabledKinds).

(** The updater of the checkbox of a kind. *)
Definition toggleKind (prev : list PoiKind) (kind : PoiKind) (checked : bool)
  : list PoiKind :=
  if checked
  then
    let next := prev ++ [kind] in
    filter (fun k => existsb (PoiKind_eqb k) next) ALL_POI_KINDS
  else filter (fun k => negb (PoiKind_eqb k kind)) prev.

(** A selection of kinds in the order of [ALL_POI_KINDS], each once. *)
Definition canonicalKinds (kinds : list PoiKind) : Prop :=
  exists sel : PoiKind -> bool, kinds = filter sel ALL_POI_KINDS.

(** ** The guard on fetch (MapShell.tsx) *)

Definition FETCH_ABSOLUTE_ALLOWLIST : list string :=
  ["https://tiles.openfreemap.org"%string].

(** [s.startsWith(prefix)]. *)
Definition startsWith (s prefix : string) : bool := String.prefix prefix s.

Definition isAllowedAbsoluteFetchUrl (url : string) : bool :=
  let normalized := toLowerCase url in
  existsb
    (fun allowed =>
       let prefix := toLowerCase allowed in
       String.eqb normalized prefix
       || startsWith normalized (String.append prefix "/"%string))
    FETCH_ABSOLUTE_ALLOWLIST.

(** [/^https?:\/\//i.test(requestUrl)]. *)
Definition isAbsoluteHttp (requestUrl : string) : bool :=
  startsWith (toLowerCase requestUrl) "http://"%string
  || startsWith (toLowerCase requestUrl) "https://"%string.

(** The guarded fetch throws instead of fetching; [requestUrl] is the
    address [getFetchUrl] reads from the argument of [fetch]. *)
Definition fetchGuardBlocks (requestUrl : string) : bool :=
  isAbsoluteHttp requestUrl && negb (isAllowedAbsoluteFetchUrl requestUrl).

(** ** Strings without leading white space *)

(** A string that does not begin with white space. *)
Definition startsClean (s : string) : Prop :=
  match s with
  | EmptyString => True
  | String c _ => isSpace c = false
  end.


(** ** The fingerprint of the point collection (MapShell.tsx) *)

(** [ToInt32] and [ToUint32]: the 32-bit integers of the bit
    operators. *)
Definition toInt32 (z : Z) : Z :=
  ((z + 2147483648) mod 4294967296 - 2147483648)%Z.

Definition toUint32 (z : Z) : Z := (z mod 4294967296)%Z.

(** [hash ^= token.charCodeAt(j); hash = Math.imul(hash, 16777619)]. *)
Definition hashChar (hash : Z) (c : ascii) : Z :=
  let hash := Z.lxor (toInt32 hash) (toInt32 (Z.of_N (N_of_ascii c))) in
  toInt32 (hash * 16777619).

(** The loop over the characters of a token. *)
Fixpoint hashToken (hash : Z) (token : string) : Z :=
  match token with
  | EmptyString => hash
  | String c rest => hashToken (hashChar hash c) rest
  end.

Section Fingerprint.

(** [Number(x).toFixed(3)]: the printing of numbers is left to the
    JavaScript engine. *)
Variable toFixed3 : Js.num -> string.

(** The token [`${id}|${kind}|${coords}`] of a feature. *)
Definition tokenOf (f : PoiRecord) : string :=
  let props := r_properties f in
  let id :=
    match props "osm_id"%string with
    | Some v => v
    | None => Js.nullish (props "id"%string) EmptyString
    end in
  let kind :=
    match poi_kind (r_feature f) with
    | Some v => v
    | None => Js.nullish (poi_type (r_feature f)) EmptyString
    end in
  let coords :=
    match poi_coordinates (r_feature f) with
    | Some cs =>
        String.append (toFixed3 (nth 0 cs Js.NonFinite))
          (String.append ","%string (toFixed3 (nth 1 cs Js.NonFinite)))
    | None => EmptyString
    end in
  String.append id
    (String.append "|"%string
       (String.append kind (String.append "|"%string coords))).

(** The loop [for (i = 0; i < features.length; i += sampleStep)];
    [fuel] bounds the number of turns. *)
Fixpoint sampleLoop (fuel : nat) (features : list PoiRecord)
  (sampleStep i hash : Z) : Z :=
  match fuel with
  | O => hash
  | S fuel' =>
      if (i <? Z.of_nat (List.length features))%Z
      then
        match nth_error features (Z.to_nat i) with
        | Some f =>
            sampleLoop fuel' features sampleStep (i + sampleStep)%Z
              (hashToken hash (tokenOf f))
        | None => hash
        end
      else hash
  end.

Definition sampleStepOf (features : list PoiRecord) : Z :=
  Z.max 1 (Z.of_nat (List.length features) / 64).

Definition poiDatasetVersion (features : list PoiRecord) : string :=
  match features with
  | [] => "pois:0"%string
  | _ =>
      let hash :=
        sampleLoop (List.length features) features (sampleStepOf features) 0
          2166136261 in
      String.append "pois:"%string
        (String.append (showZ (Z.of_nat (List.length features)))
           (String.append ":"%string (showZ (Z.abs (toUint32 hash)))))
  end.

End Fingerprint.

(** The indices the loop of the fingerprint visits. *)
Fixpoint sampledFrom (fuel : nat) (len sampleStep i : Z) : list Z :=
  match fuel with
  | O => []
  | S fuel' =>
      if (i <? len)%Z
      then i :: sampledFrom fuel' len sampleStep (i + sampleStep)%Z
      else []
  end.

Definition sampledIndices (features : list PoiRecord) : list Z :=
  sampledFrom (List.length features) (Z.of_nat (List.length features))
    (sampleStepOf features) 0.

(** FNV-1a on 32 bits: exclusive or with the character, then
    multiplication by the prime 16777619 modulo 2^32. *)
Fixpoint fnv1a32 (hash : Z) (token : string) : Z :=
  match token with
  | EmptyString => hash
  | String c rest =>
      fnv1a32
        ((Z.lxor hash (Z.of_N (N_of_ascii c)) * 16777619) mod 4294967296)%Z
        rest
  end.

(** ** The mock hexagons (mockData.ts) *)

Definition degToRad (d : R) : R := ((d * PI) / 180)%R.

(** The body of the loop of [hexRing] at index [i]. *)
Definition hexRingVertex (lon lat rLatDeg : R) (i : Z) : R * R :=
  let cos_ := Rmax (25 / 100) (cos (degToRad lat)) in
  let rLat := rLatDeg in
  let rLon := (rLatDeg / cos_)%R in
  let angle := degToRad (60 * IZR i - 30) in
  ((lon + rLon * cos angle)%R, (lat + rLat * sin angle)%R).

Definition hexRing (lon lat rLatDeg : R) : list (R * R) :=
  let coords := map (hexRingVertex lon lat rLatDeg) [0; 1; 2; 3; 4; 5]%Z in
  coords ++ [nth 0 coords (0%R, 0%R)].

(** ** The centre of a bucket's hexagon *)

(** [cx] and [cy] in the loop over the buckets. *)
Definition bucketCentre (resolution : H3Resolution) (cell : CellBucket)
  : R * R :=
  let radiusM := radiusMetersForResolution resolution in
  let stepX := (sqrt 3 * radiusM)%R in
  let stepY := (15 / 10 * radiusM)%R in
  let offsetX := (stepX / 2)%R in
  let xRowOffset := if (Z.rem (b_row cell) 2 =? 0)%Z then 0%R else offsetX in
  ((IZR (b_col cell) * stepX + xRowOffset)%R, (IZR (b_row cell) * stepY)%R).

(** ** Glow (safety.ts) *)

Definition glowIntensity (count : Q) : Q :=
  let c := Js.max 0 (Js.min count 30) in
  let t := c / 30 in
  (25 # 100) + (75 # 100) * (t * t).

(** ** The rebuild of the presence layer (MapShell.tsx) *)

(** What a rebuild produces: the collection shown, the percentile
    logged, the annotation cache as it leaves it and the console
    output. *)
Record Rebuild : Type := {
  nextFC : FeatureCollection;
  rebuild_p95 : Q;
  rebuild_cache : AnnotationCache;
  rebuild_console : list ConsoleEvent
}.

(** The function [run] of the effect that builds the active tier: the
    sparse builder on the points [synagoguePois] selects, then the
    annotation with all points. *)
Definition rebuildPresence (jsonFirstCoordinate : option Geometry -> string)
  (h3 : H3) (pois : list PoiRecord) (currentRes : H3Resolution)
  (poiDatasetVersion : string) (annotationCache : AnnotationCache)
  : Rebuild :=
  let '(sparse, console) :=
    buildSparseHexesFromPois h3 (map r_feature (synagoguePois pois))
      currentRes in
  let '(annotated, cache) :=
    annotateHexesWithPois jsonFirstCoordinate (fc sparse)
      (map r_feature pois) poiDatasetVersion annotationCache in
  {| nextFC := annotated; rebuild_p95 := p95 sparse;
     rebuild_cache := cache; rebuild_console := console |}.

(** The estimate and the level of a cell are those of the points inside
    its own geometry. *)
Definition showsOwnPoints (pois : list PoiRecord) (resolution : H3Resolution)
  (f : HexFeature) : Prop :=
  exists estimated,
    p_estimated (f_properties f) = Some estimated
    /\ estimated
       == totalWeight
            (pointsInside (f_geometry f) (poiFeaturesOf (map r_feature pois)))
    /\ p_greedLevel (f_properties f)
       = Some (greedLevelFromEstimated estimated (resNumber resolution)).

(** A loaded point of kind synagogue at a finite position, without
    other properties. *)
Definition synagogueRecord (lon lat : Q) : PoiRecord :=
  {| r_feature := synagogueAt lon lat;
     r_geometryType := Some "Point"%string;
     r_properties := fun _ => None |}.

(** * Properties *)

Ltac qlra := Lqa.lra.
Ltac qnra := Lqa.nra.

(** ** The definitions on concrete inputs *)

Example normalize_community_center :
  normalizePoiKind (Some "  Jewish Community-Center "%string) = Some jcc.
Proof. reflexivity. Qed.

Example normalize_unknown :
  normalizePoiKind (Some "library"%string) = None.
Proof. reflexivity. Qed.

Example estimate_of_ten :
  getEstimatedFromPoiCounts tenSynagogues = 2500.
Proof. reflexivity. Qed.

Example level_of_half : greedLevelFromEstimated 450 6 = 50.
Proof. reflexivity. Qed.

Example level_unknown_resolution : greedLevelFromEstimated 450 7 = 45.
Proof. reflexivity. Qed.

Example tier_of_ten : tierForEstimate 10 = notable.
Proof. reflexivity. Qed.

Example percentile_of_three : percentile95 [3; 1; 2] = 2.
Proof. reflexivity. Qed.

Example inside_square :
  pointInRing (1 # 2, 1 # 2) [(0, 0); (1, 0); (1, 1); (0, 1); (0, 0)] = true.
Proof. reflexivity. Qed.

Example outside_square :
  pointInRing (3 # 2, 1 # 2) [(0, 0); (1, 0); (1, 1); (0, 1); (0, 0)] = false.
Proof. reflexivity. Qed.

Example inside_hole :
  pointInGeoJsonPolygon (1 # 2, 1 # 2)
    (Some (Polygon [[(0, 0); (4, 0); (4, 4); (0, 4); (0, 0)];
                    [(0, 0); (1, 0); (1, 1); (0, 1); (0, 0)]]))
  = false.
Proof. reflexivity. Qed.

(** A zoom that hovers around 8 and then leaves: one change per
    crossing of the band. *)
Example zoom_hovering :
  fold_left (fun res z => getHexResWithHysteresis z res)
    [79 # 10; 81 # 10; 79 # 10; 72 # 10; 69 # 10; 72 # 10] Res6
  = Res6
  /\ map (fun z => getHexResWithHysteresis z Res8) [79 # 10; 72 # 10; 69 # 10]
     = [Res8; Res8; Res6].
Proof. split; reflexivity. Qed.

Example cell_id : cellIdOf Res6 (-3) 12 = "6:-3:12"%string.
Proof. reflexivity. Qed.

(** ** Comparisons and rounding *)

Lemma ltb_lt (a b : Q) : Js.ltb a b = true <-> a < b.
Proof.
  unfold Js.ltb. rewrite negb_true_iff, <- not_true_iff_false, Qle_bool_iff.
  split; [apply Qnot_le_lt | apply Qlt_not_le].
Qed.

Lemma leb_le (a b : Q) : Js.leb a b = true <-> a <= b.
Proof. apply Qle_bool_iff. Qed.

Lemma ltb_spec (a b : Q) : reflect (a < b) (Js.ltb a b).
Proof. apply iff_reflect. symmetry. apply ltb_lt. Qed.

Lemma leb_spec (a b : Q) : reflect (a <= b) (Js.leb a b).
Proof. apply iff_reflect. symmetry. apply leb_le. Qed.

Lemma gtb_spec (a b : Q) : reflect (b < a) (Js.gtb a b).
Proof. apply ltb_spec. Qed.

Lemma geb_spec (a b : Q) : reflect (b <= a) (Js.geb a b).
Proof. apply leb_spec. Qed.

Ltac js_cases :=
  repeat match goal with
    | |- context [Js.ltb ?a ?b] => destruct (ltb_spec a b)
    | |- context [Js.leb ?a ?b] => destruct (leb_spec a b)
    | |- context [Js.gtb ?a ?b] => destruct (gtb_spec a b)
    | |- context [Js.geb ?a ?b] => destruct (geb_spec a b)
    end.

Lemma round_bounds (x : Q) :
  inject_Z (Js.round x) <= x + (1 # 2) /\ x - (1 # 2) < inject_Z (Js.round x).
Proof.
  unfold Js.round. split.
  - apply Qfloor_le.
  - pose proof (Qlt_floor (x + (1 # 2))) as H.
    rewrite inject_Z_plus in H. change (inject_Z 1) with 1 in H. qlra.
Qed.

Lemma round_unique (x : Q) (n : Z) :
  inject_Z n <= x + (1 # 2) -> x - (1 # 2) < inject_Z n -> Js.round x = n.
Proof.
  intros H1 H2. destruct (round_bounds x) as [H3 H4].
  set (f := Js.round x) in *.
  assert (Ha : inject_Z n < inject_Z (f + 1)).
  { rewrite inject_Z_plus. change (inject_Z 1) with 1. qlra. }
  assert (Hb : inject_Z f < inject_Z (n + 1)).
  { rewrite inject_Z_plus. change (inject_Z 1) with 1. qlra. }
  rewrite <- Zlt_Qlt in Ha, Hb. lia.
Qed.

Lemma round_inject (n : Z) : Js.round (inject_Z n) = n.
Proof. apply round_unique; qlra. Qed.

Lemma round_mono (x y : Q) : x <= y -> (Js.round x <= Js.round y)%Z.
Proof. intros H. apply Qfloor_resp_le. qlra. Qed.

Lemma round_le (x : Q) (n : Z) : x <= inject_Z n -> (Js.round x <= n)%Z.
Proof. intros H. rewrite <- (round_inject n). now apply round_mono. Qed.

Lemma round_ge (x : Q) (n : Z) : inject_Z n <= x -> (n <= Js.round x)%Z.
Proof. intros H. rewrite <- (round_inject n) at 1. now apply round_mono. Qed.

Lemma round_comp (x y : Q) : x == y -> Js.round x = Js.round y.
Proof. intros H. unfold Js.round. now rewrite H. Qed.

Lemma pos_nonzero (m : Q) : 0 < m -> ~ m == 0.
Proof. intros Hm Hc. rewrite Hc in Hm. now apply Qlt_irrefl in Hm. Qed.

Lemma clamp_cases (n lo hi : Q) :
  lo <= hi ->
  (n <= lo /\ clamp n lo hi == lo)
  \/ (hi <= n /\ clamp n lo hi == hi)
  \/ (lo <= n <= hi /\ clamp n lo hi == n).
Proof.
  intros Hlh. unfold clamp, Js.max, Js.min.
  destruct (Qlt_le_dec n lo) as [H|H].
  - left. split; [qlra|]. rewrite (Q.min_r hi n) by qlra. apply Q.max_l. qlra.
  - destruct (Qlt_le_dec hi n) as [H'|H'].
    + right. left. split; [qlra|].
      rewrite (Q.min_l hi n) by qlra. apply Q.max_r. qlra.
    + right. right. split; [qlra|].
      rewrite (Q.min_r hi n) by qlra. apply Q.max_r. qlra.
Qed.

Lemma max_zero_cases (x : Q) :
  (x <= 0 /\ Js.max 0 x == 0) \/ (0 <= x /\ Js.max 0 x == x).
Proof.
  unfold Js.max. destruct (Qlt_le_dec x 0).
  - left. split; [qlra|]. apply Q.max_l. qlra.
  - right. split; [qlra|]. apply Q.max_r. qlra.
Qed.

Lemma div_le_zero (e m : Q) : 0 < m -> (e / m <= 0 <-> e <= 0).
Proof.
  intros Hm. split; intros H.
  - assert (e == (e / m) * m) as -> by (field; now apply pos_nonzero). qnra.
  - apply Qle_shift_div_r; [assumption|qlra].
Qed.

Lemma div_ge_one (e m : Q) : 0 < m -> (1 <= e / m <-> m <= e).
Proof.
  intros Hm. split; intros H.
  - assert (e == (e / m) * m) as -> by (field; now apply pos_nonzero). qnra.
  - apply Qle_shift_div_l; [assumption|qlra].
Qed.

(** ** The resolution state machine *)

(** C2.  For every zoom [z] and previous resolution, the resolution the
    code moves to is the one the specification's rule gives (thresholds
    6 and 8, exits below 5 and 7); inside a hysteresis band, [7 <= z < 8]
    or [5 <= z < 6], both adjacent resolutions are fixed points. *)
Theorem hysteresis_transition_rule (z : Q) :
  (forall prev next,
      getHexResWithHysteresis z prev = next <-> spec_transition z prev next)
  /\ (7 <= z /\ z < 8 ->
      getHexResWithHysteresis z Res8 = Res8
      /\ getHexResWithHysteresis z Res6 = Res6)
  /\ (5 <= z /\ z < 6 ->
      getHexResWithHysteresis z Res6 = Res6
      /\ getHexResWithHysteresis z Res5 = Res5).
Proof.
  unfold getHexResWithHysteresis,
    TOWN_EXIT_Z, TOWN_ENTER_Z, CITY_EXIT_Z, CITY_ENTER_Z.
  split; [|split].
  - intros prev next. split.
    + intros <-. destruct prev; js_cases;
        solve [ constructor; qlra ].
    + intros H. destruct H; js_cases; try reflexivity; qlra.
  - intros [H1 H2]. js_cases; try (split; reflexivity); qlra.
  - intros [H1 H2]. js_cases; try (split; reflexivity); qlra.
Qed.

(** ** The level *)

Lemma resolutionMax_pos (r : H3Resolution) : 0 < resolutionMax (resNumber r).
Proof. destruct r; reflexivity. Qed.

Lemma GREED_MAX_resolutionMax (r : H3Resolution) :
  GREED_MAX_BY_RES (resNumber r) = Some (resolutionMax (resNumber r)).
Proof. destruct r; reflexivity. Qed.


(** ** Point in polygon *)

Lemma ltb_comp (a a' b b' : Q) :
  a == a' -> b == b' -> Js.ltb a b = Js.ltb a' b'.
Proof. intros Ha Hb. unfold Js.ltb. now rewrite Ha, Hb. Qed.

Lemma intersect_comp (x y : Q) (a a' b b' : Position) :
  samePosition a a' -> samePosition b b' ->
  intersect x y a b = intersect x y a' b'.
Proof.
  destruct a as [xa ya], a' as [xa' ya'], b as [xb yb], b' as [xb' yb'].
  intros [Ha1 Ha2] [Hb1 Hb2]. cbn in *. unfold intersect, Js.gtb.
  rewrite (ltb_comp y y ya ya'), (ltb_comp y y yb yb') by (assumption || reflexivity).
  f_equal. apply ltb_comp; [reflexivity|].
  now rewrite Ha1, Ha2, Hb1, Hb2.
Qed.

Lemma intersect_same (x y : Q) (a : Position) : intersect x y a a = false.
Proof.
  destruct a as [xa ya]. unfold intersect.
  now rewrite Bool.eqb_reflx.
Qed.

Lemma intersect_sym (x y : Q) (a b : Position) :
  intersect x y a b = intersect x y b a.
Proof.
  destruct a as [xa ya], b as [xb yb]. unfold intersect.
  assert (Hs : Bool.eqb (Js.gtb yb y) (Js.gtb ya y)
               = Bool.eqb (Js.gtb ya y) (Js.gtb yb y))
    by (destruct (Js.gtb ya y), (Js.gtb yb y); reflexivity).
  rewrite Hs.
  destruct (Bool.eqb (Js.gtb ya y) (Js.gtb yb y)) eqn:E; [reflexivity|].
  cbn [negb andb].
  assert (Hne : ~ ya == yb).
  { intros Hc. unfold Js.gtb in E.
    rewrite (ltb_comp y y ya yb) in E by (assumption || reflexivity).
    now rewrite Bool.eqb_reflx in E. }
  apply ltb_comp; [reflexivity|].
  field. split; intros Hc; apply Hne; qlra.
Qed.

Section TwoVertexRing.

Variables (x y : Q) (a b : Position).

Local Abbreviation oneOfTwo := (oneOfTwo a b).

Lemma samePosition_refl (v : Position) : samePosition v v.
Proof. split; reflexivity. Qed.

(** Crossings along a path that only visits [a] and [b] cancel: what
    counts is where the path starts and ends. *)
Lemma crossing_chain (l v p : Position) :
  oneOfTwo l -> oneOfTwo v -> oneOfTwo p ->
  xorb (intersect x y v p) (intersect x y l v) = intersect x y l p.
Proof.
  intros [Hl|Hl] [Hv|Hv] [Hp|Hp].
  all: rewrite (intersect_comp x y _ _ _ _ Hv Hp),
         (intersect_comp x y _ _ _ _ Hl Hv),
         (intersect_comp x y _ _ _ _ Hl Hp).
  all: rewrite ?intersect_same, ?(intersect_sym x y b a).
  all: destruct (intersect x y a b); reflexivity.
Qed.

Lemma last_cons_default (v d : Position) (tl : Ring) :
  last (v :: tl) d = last tl v.
Proof.
  revert v d. induction tl as [|w tl IH]; intros v d; [reflexivity|].
  change (last (v :: w :: tl) d) with (last (w :: tl) d).
  now rewrite (IH w d), (IH w v).
Qed.

Lemma oneOfTwo_last (rest : Ring) (d : Position) :
  oneOfTwo d -> Forall oneOfTwo rest -> oneOfTwo (last rest d).
Proof.
  intros Hd Hr. revert d Hd. induction Hr as [|v tl Hv Htl IH]; intros d Hd.
  - exact Hd.
  - rewrite last_cons_default. now apply IH.
Qed.

Lemma pointInRing_from_two (rest : Ring) (vj : Position) (inside : bool) :
  oneOfTwo vj -> Forall oneOfTwo rest ->
  pointInRing_from x y vj rest inside
  = xorb inside (intersect x y (last rest vj) vj).
Proof.
  intros Hj Hr. revert vj inside Hj.
  induction Hr as [|vi tl Hi Htl IH]; intros vj inside Hj.
  - cbn. rewrite intersect_same. now destruct inside.
  - cbn [pointInRing_from]. rewrite IH by assumption.
    rewrite last_cons_default.
    rewrite <- (crossing_chain (last tl vi) vi vj);
      [|now apply oneOfTwo_last|assumption|assumption].
    destruct (intersect x y vi vj), (intersect x y (last tl vi) vi), inside;
      reflexivity.
Qed.

End TwoVertexRing.

(** A ring all of whose vertices are one of two points contains no
    point. *)
Lemma pointInRing_two_points (pt : Position) (a b : Position) (ring : Ring) :
  Forall (oneOfTwo a b) ring -> pointInRing pt ring = false.
Proof.
  intros Hr. destruct pt as [x y]. destruct ring as [|v0 tl]; [reflexivity|].
  unfold pointInRing.
  assert (H0 : oneOfTwo a b v0) by now inversion Hr.
  rewrite (pointInRing_from_two x y a b);
    [|now apply oneOfTwo_last|assumption].
  cbn [xorb].
  replace (last (v0 :: tl) (last (v0 :: tl) v0)) with (last (v0 :: tl) v0).
  - apply intersect_same.
  - now rewrite !last_cons_default.
Qed.

Lemma pointInRing_nil (pt : Position) : pointInRing pt [] = false.
Proof. now destruct pt. Qed.

Lemma pointInRing_short (pt : Position) (ring : Ring) :
  (List.length ring < 3)%nat -> pointInRing pt ring = false.
Proof.
  intros Hlen.
  destruct ring as [|a [|b [|c tl]]];
    [apply pointInRing_nil| | |cbn in Hlen; lia].
  - apply (pointInRing_two_points pt a a).
    constructor; [left; apply samePosition_refl|constructor].
  - apply (pointInRing_two_points pt a b).
    constructor; [left; apply samePosition_refl|].
    constructor; [right; apply samePosition_refl|constructor].
Qed.

Lemma inAnyHole_false (pt : Position) (holes : list Ring) :
  inAnyHole pt holes = false <-> forall h, In h holes -> pointInRing pt h = false.
Proof.
  induction holes as [|h tl IH]; cbn.
  - split; [intros _ h []|reflexivity].
  - destruct (pointInRing pt h) eqn:E.
    + split; [discriminate|]. intros H. rewrite <- E. symmetry. rewrite E.
      specialize (H h (or_introl eq_refl)). congruence.
    + rewrite IH. split.
      * intros H h' [<-|Hin]; [assumption|now apply H].
      * intros H h' Hin. apply H. now right.
Qed.

Lemma pointInMultiPolygon_true (pt : Position) (polys : list (list Ring)) :
  pointInMultiPolygon pt polys = true <-> exists part, In part polys /\ inPart pt part.
Proof.
  induction polys as [|poly rest IH].
  - cbn. split; [discriminate|]. now intros [part [[] _]].
  - cbn [pointInMultiPolygon].
    assert (Hrest : (exists part, In part (poly :: rest) /\ inPart pt part)
                    <-> inPart pt poly \/ exists part, In part rest /\ inPart pt part).
    { split.
      - intros [part [[<-|Hin] Hp]]; [now left|right; now exists part].
      - intros [Hp|[part [Hin Hp]]]; [exists poly|exists part]; cbn; tauto. }
    rewrite Hrest, <- IH. clear Hrest IH.
    destruct poly as [|outer holes]; cbn [hd_error Js.nullish tl].
    { split; [now right|]. intros [[o [h [Hc _]]]|H]; [discriminate|assumption]. }
    assert (Hnot : pointInRing pt outer = false \/ inAnyHole pt holes = true
                   -> ~ inPart pt (outer :: holes)).
    { intros Hc [o [h [Heq [Ho Hh]]]]. injection Heq as <- <-.
      destruct Hc as [Hc|Hc]; [congruence|].
      apply inAnyHole_false in Hh. congruence. }
    destruct outer as [|v0 tl].
    { rewrite pointInRing_nil in Hnot. split; [now right|].
      intros [Hp|H]; [|assumption]. exfalso. apply Hnot; [now left|assumption]. }
    destruct (pointInRing pt (v0 :: tl)) eqn:Eo; cbn [negb].
    + destruct (inAnyHole pt holes) eqn:Eh; cbn [negb].
      * split; [now right|]. intros [Hp|H]; [|assumption].
        exfalso. apply Hnot; [now right|assumption].
      * split; [|reflexivity]. intros _. left. exists (v0 :: tl), holes.
        split; [reflexivity|]. split; [assumption|]. now apply inAnyHole_false.
    + split; [now right|]. intros [Hp|H]; [|assumption].
      exfalso. apply Hnot; [now left|assumption].
Qed.

Lemma pointInPolygon_true (pt : Position) (coordinates : list Ring) :
  pointInGeoJsonPolygon pt (Some (Polygon coordinates)) = true
  <-> inPart pt coordinates.
Proof.
  cbn [pointInGeoJsonPolygon].
  destruct coordinates as [|outer holes]; cbn [hd_error Js.nullish tl].
  { split; [discriminate|]. intros [o [h [Hc _]]]. discriminate. }
  destruct outer as [|v0 tl].
  { split; [discriminate|]. intros [o [h [Heq [Ho _]]]].
    injection Heq as <- <-. now rewrite pointInRing_nil in Ho. }
  split.
  - destruct (pointInRing pt (v0 :: tl)) eqn:Eo; cbn [negb]; [|discriminate].
    intros Hh. apply negb_true_iff in Hh.
    exists (v0 :: tl), holes. split; [reflexivity|]. split; [assumption|].
    now apply inAnyHole_false.
  - intros [o [h [Heq [Ho Hh]]]]. injection Heq as <- <-.
    rewrite Ho. cbn [negb]. apply negb_true_iff. now apply inAnyHole_false.
Qed.


(** ** Hexagon rings *)

Lemma powerRZ_10_8 : powerRZ 10 VTX_DECIMALS = (10 ^ 8)%R.
Proof. reflexivity. Qed.

Lemma roundTo_eightDecimals (n : R) : eightDecimals (roundTo n VTX_DECIMALS).
Proof. unfold roundTo. rewrite powerRZ_10_8. now exists (mathRound (n * 10 ^ 8)). Qed.

Lemma planeVertex_distance (cx cy r : R) (k : Z) :
  (0 <= r)%R ->
  sqrt ((fst (planeVertex cx cy r k) - cx) ^ 2
        + (snd (planeVertex cx cy r k) - cy) ^ 2) = r.
Proof.
  intros Hr. unfold planeVertex. cbn [fst snd].
  set (ang := ((30 + 60 * IZR k) * PI / 180)%R).
  replace ((cx + r * cos ang - cx) ^ 2 + (cy + r * sin ang - cy) ^ 2)%R
    with (Rsqr r * (Rsqr (sin ang) + Rsqr (cos ang)))%R
    by (unfold Rsqr; ring).
  rewrite sin2_cos2, Rmult_1_r. now apply sqrt_Rsqr.
Qed.

Lemma hexRingPoint_planeVertex (cx cy r : R) (k : Z) :
  hexRingPoint cx cy r k
  = (roundTo (fst (mercatorToLonLat (fst (planeVertex cx cy r k))
                     (snd (planeVertex cx cy r k)))) VTX_DECIMALS,
     roundTo (snd (mercatorToLonLat (fst (planeVertex cx cy r k))
                     (snd (planeVertex cx cy r k)))) VTX_DECIMALS).
Proof. reflexivity. Qed.





(** ** Maps *)

Section MapLemmas.

Context {V : Type}.
Implicit Types (m : Js.Map V) (k : string) (v : V).

Lemma get_set_same k v m : Js.get k (Js.set k v m) = Some v.
Proof.
  induction m as [|[k' v'] rest IH]; cbn.
  - now rewrite String.eqb_refl.
  - destruct (String.eqb k k') eqn:E; cbn; rewrite E; [reflexivity|exact IH].
Qed.

Lemma get_set_other k k' v m :
  k <> k' -> Js.get k' (Js.set k v m) = Js.get k' m.
Proof.
  intros Hne. induction m as [|[k0 v0] rest IH]; cbn.
  - destruct (String.eqb_spec k' k); [congruence|reflexivity].
  - destruct (String.eqb_spec k k0) as [->|Hk]; cbn.
    + destruct (String.eqb_spec k' k0); [congruence|reflexivity].
    + now rewrite IH.
Qed.

Lemma get_Some_In k v m : Js.get k m = Some v -> In (k, v) m.
Proof.
  induction m as [|[k' v'] rest IH]; cbn; [discriminate|].
  destruct (String.eqb_spec k k') as [->|Hk].
  - intros [= ->]. now left.
  - intros H. right. now apply IH.
Qed.

Lemma get_None_keys k m : Js.get k m = None <-> ~ In k (Js.keys m).
Proof.
  unfold Js.keys. induction m as [|[k' v'] rest IH]; cbn.
  - tauto.
  - destruct (String.eqb_spec k k') as [->|Hk].
    + split; [discriminate|]. intros H. exfalso. apply H. now left.
    + rewrite IH. split; [intros H [Hc|Hc]; [congruence|tauto]|tauto].
Qed.

Lemma In_get k v m : NoDup (Js.keys m) -> In (k, v) m -> Js.get k m = Some v.
Proof.
  unfold Js.keys. induction m as [|[k' v'] rest IH]; cbn; [tauto|].
  intros Hnd [Hin|Hin].
  - injection Hin as -> ->. now rewrite String.eqb_refl.
  - inversion Hnd as [|? ? Hnot Hnd']; subst.
    destruct (String.eqb_spec k k') as [->|Hk].
    + exfalso. apply Hnot. change k' with (fst (k', v)). now apply in_map.
    + now apply IH.
Qed.

Lemma keys_set k v m :
  Js.keys (Js.set k v m)
  = match Js.get k m with
    | Some _ => Js.keys m
    | None => Js.keys m ++ [k]
    end.
Proof.
  unfold Js.keys. induction m as [|[k' v'] rest IH]; cbn; [reflexivity|].
  destruct (String.eqb_spec k k') as [->|Hk]; cbn; [reflexivity|].
  rewrite IH. now destruct (Js.get k rest).
Qed.

Lemma NoDup_keys_set k v m : NoDup (Js.keys m) -> NoDup (Js.keys (Js.set k v m)).
Proof.
  intros Hnd. rewrite keys_set. destruct (Js.get k m) eqn:E; [assumption|].
  apply get_None_keys in E.
  apply NoDup_app; [assumption|repeat constructor; intros []|].
  intros x Hx [<-|[]]. contradiction.
Qed.

Lemma sumOver_cons (w : V -> Z) (sel : string -> bool) k v m :
  sumOver w sel ((k, v) :: m)
  = ((if sel k then w v else 0) + sumOver w sel m)%Z.
Proof. reflexivity. Qed.

Lemma sumOver_set (w : V -> Z) (sel : string -> bool) k v m :
  sumOver w sel (Js.set k v m)
  = (sumOver w sel m
     + (if sel k
        then w v - match Js.get k m with Some v' => w v' | None => 0 end
        else 0))%Z.
Proof.
  induction m as [|[k' v'] rest IH]; cbn [Js.set Js.get].
  - rewrite sumOver_cons. cbn. destruct (sel k); lia.
  - destruct (String.eqb_spec k k') as [->|Hk]; rewrite !sumOver_cons.
    + destruct (sel k'); lia.
    + rewrite IH. destruct (sel k), (sel k'); lia.
Qed.

End MapLemmas.

Lemma set_fresh {V : Type} (k : string) (v : V) (m : Js.Map V) :
  Js.get k m = None -> Js.set k v m = m ++ [(k, v)].
Proof.
  induction m as [|[k' v'] rest IH]; cbn; [reflexivity|].
  destruct (String.eqb k k'); [discriminate|].
  intros H. now rewrite IH.
Qed.

Lemma In_set {V : Type} (k k' : string) (v v' : V) (m : Js.Map V) :
  In (k', v') (Js.set k v m) -> (k', v') = (k, v) \/ In (k', v') m.
Proof.
  induction m as [|[k0 v0] rest IH]; cbn.
  - intros [H|[]]. left. now symmetry.
  - destruct (String.eqb_spec k k0) as [->|Hne]; cbn.
    + intros [H|H]; [left; now symmetry|right; now right].
    + intros [H|H]; [right; now left|].
      destruct (IH H) as [H'|H']; [now left|right; now right].
Qed.

Lemma get_set_Some {V : Type} (k k' : string) (v : V) (m : Js.Map V) :
  Js.get k' m <> None -> Js.get k' (Js.set k v m) <> None.
Proof.
  intros H. destruct (String.eqb_spec k k') as [->|Hne].
  - rewrite get_set_same. discriminate.
  - now rewrite get_set_other.
Qed.

(** ** Maxima and minima *)

Ltac qmax_name a b :=
  let H := fresh "Hmax" in
  let x := fresh "mx" in
  pose proof (Q.max_spec a b) as H;
  set (x := Qmax a b) in *; clearbody x.

Ltac qmin_name a b :=
  let H := fresh "Hmin" in
  let x := fresh "mn" in
  pose proof (Q.min_spec a b) as H;
  set (x := Qmin a b) in *; clearbody x.

(** Names every maximum and minimum, splits on which argument it is, and
    leaves linear arithmetic. *)
Ltac qmax_cases :=
  unfold Js.max, Js.min in *;
  repeat match goal with
    | |- context [Qmax ?a ?b] => qmax_name a b
    | H : context [Qmax ?a ?b] |- _ => qmax_name a b
    | |- context [Qmin ?a ?b] => qmin_name a b
    | H : context [Qmin ?a ?b] |- _ => qmin_name a b
    end;
  repeat match goal with
    | H : _ /\ _ \/ _ /\ _ |- _ => destruct H as [[? ?]|[? ?]]
    end.

Lemma max_max_same (v h : Q) : Js.max (Js.max v h) h == Js.max v h.
Proof. qmax_cases; qlra. Qed.

Lemma max_assoc (a b c : Q) : Js.max (Js.max a b) c == Js.max a (Js.max b c).
Proof. qmax_cases; qlra. Qed.

Lemma max_comp (a a' b b' : Q) :
  a == a' -> b == b' -> Js.max a b == Js.max a' b'.
Proof. intros Ha Hb. qmax_cases; qlra. Qed.

Lemma max_absorb (v h : Q) : h <= v -> Js.max v h == v.
Proof. intros H. qmax_cases; qlra. Qed.

(** ** Strings *)

Lemma showZ_inj (a b : Z) : showZ a = showZ b -> a = b.
Proof.
  unfold showZ. intros H. apply DecimalZ.to_int_inj.
  assert (Hnn : forall z, Z.to_int z <> Decimal.Pos Decimal.Nil
                          /\ Z.to_int z <> Decimal.Neg Decimal.Nil).
  { intros [|p|p]; cbn; split; try discriminate;
      intros [= Hp]; now apply DecimalPos.Unsigned.to_uint_nonnil in Hp. }
  destruct (Hnn a) as [Ha1 Ha2]. destruct (Hnn b) as [Hb1 Hb2].
  pose proof (NilZero.isi (Z.to_int a) Ha1 Ha2) as Ia.
  pose proof (NilZero.isi (Z.to_int b) Hb1 Hb2) as Ib.
  rewrite H in Ia. congruence.
Qed.

Lemma cacheKeyOf_inj (c1 c2 v1 v2 : string) :
  colonFree c1 = true -> colonFree c2 = true ->
  cacheKeyOf c1 v1 = cacheKeyOf c2 v2 -> c1 = c2 /\ v1 = v2.
Proof.
  unfold cacheKeyOf. revert c2.
  induction c1 as [|a c1 IH]; intros [|b c2] H1 H2 Hk; cbn in *.
  - injection Hk as ->. now split.
  - injection Hk as <- _. discriminate.
  - injection Hk as -> _. discriminate.
  - injection Hk as -> Hk.
    apply andb_true_iff in H1, H2.
    destruct (IH c2 (proj2 H1) (proj2 H2) Hk) as [-> ->]. now split.
Qed.

Lemma string_of_uint_colonFree (u : Decimal.uint) :
  colonFree (NilEmpty.string_of_uint u) = true.
Proof. induction u; cbn; try reflexivity; exact IHu. Qed.

Lemma showZ_colonFree (z : Z) : colonFree (showZ z) = true.
Proof.
  unfold showZ, NilZero.string_of_int, NilZero.string_of_uint.
  destruct (Z.to_int z) as [u|u]; destruct u; cbn; try reflexivity;
    apply string_of_uint_colonFree.
Qed.

Lemma cellIdOf_inj (resolution : H3Resolution) (row col row' col' : Z) :
  cellIdOf resolution row col = cellIdOf resolution row' col' ->
  row = row' /\ col = col'.
Proof.
  unfold cellIdOf. intros H.
  change (cacheKeyOf (showZ (resNumber resolution))
            (cacheKeyOf (showZ row) (showZ col))
          = cacheKeyOf (showZ (resNumber resolution))
              (cacheKeyOf (showZ row') (showZ col'))) in H.
  apply cacheKeyOf_inj in H; try apply showZ_colonFree.
  destruct H as [_ H].
  apply cacheKeyOf_inj in H; try apply showZ_colonFree.
  destruct H as [Hr Hc]. split; now apply showZ_inj.
Qed.



(** ** Offset-grid aggregation *)

Lemma sumOver_ext_in {V : Type} (w w' : V -> Z) (sel sel' : string -> bool)
  (m : Js.Map V) :
  (forall k v, In (k, v) m ->
     (if sel k then w v else 0%Z) = (if sel' k then w' v else 0%Z)) ->
  sumOver w sel m = sumOver w' sel' m.
Proof.
  induction m as [|[k v] rest IH]; intros H; [reflexivity|].
  rewrite !sumOver_cons. rewrite (H k v) by now left.
  rewrite IH; [reflexivity|]. intros k' v' Hin. apply H. now right.
Qed.

Lemma sumOver_key {V : Type} (w : V -> Z) (k : string) (m : Js.Map V) :
  NoDup (Js.keys m) ->
  sumOver w (String.eqb k) m
  = match Js.get k m with Some v => w v | None => 0%Z end.
Proof.
  unfold Js.keys. induction m as [|[k' v'] rest IH]; intros Hnd; [reflexivity|].
  rewrite sumOver_cons. cbn [Js.get map fst] in *.
  inversion Hnd as [|? ? Hnot Hnd']; subst.
  destruct (String.eqb_spec k k') as [->|Hk].
  - rewrite IH by assumption.
    apply (proj2 (get_None_keys k' rest)) in Hnot. rewrite Hnot. lia.
  - now rewrite IH.
Qed.

Section OffsetGrid.

Variable resolution : H3Resolution.

Local Abbreviation cellOf := (homeCellId resolution).

Lemma binPoint_set (cells : Js.Map CellBucket) (p : R * R) :
  exists b,
    binPoint resolution cells p = Js.set (cellOf p) b cells
    /\ b_count b = (countAt (cellOf p) cells + 1)%Z.
Proof.
  unfold binPoint, homeCellId, countAt.
  destruct (homeCell resolution p) as [row col]. cbn [fst snd].
  destruct (Js.get (cellIdOf resolution row col) cells) as [prev|];
    eexists; split; reflexivity.
Qed.

Lemma binPoint_sum (sel : string -> bool) (cells : Js.Map CellBucket)
  (p : R * R) :
  sumOver b_count sel (binPoint resolution cells p)
  = (sumOver b_count sel cells + (if sel (cellOf p) then 1 else 0))%Z.
Proof.
  destruct (binPoint_set cells p) as [b [-> Hb]].
  rewrite sumOver_set, Hb. unfold countAt.
  destruct (sel (cellOf p)); [|reflexivity].
  destruct (Js.get (cellOf p) cells); lia.
Qed.

Lemma binPoint_NoDup (cells : Js.Map CellBucket) (p : R * R) :
  NoDup (Js.keys cells) -> NoDup (Js.keys (binPoint resolution cells p)).
Proof.
  destruct (binPoint_set cells p) as [b [-> _]]. apply NoDup_keys_set.
Qed.

Lemma fold_binPoint_sum (sel : string -> bool) (points : list (R * R))
  (cells : Js.Map CellBucket) :
  sumOver b_count sel (fold_left (binPoint resolution) points cells)
  = (sumOver b_count sel cells
     + Z.of_nat (List.length (filter (fun p => sel (cellOf p)) points)))%Z.
Proof.
  revert cells. induction points as [|p rest IH]; intros cells; cbn [fold_left filter].
  - cbn. lia.
  - rewrite IH, binPoint_sum.
    destruct (sel (cellOf p)); cbn [List.length]; lia.
Qed.

Lemma fold_binPoint_NoDup (points : list (R * R)) (cells : Js.Map CellBucket) :
  NoDup (Js.keys cells) ->
  NoDup (Js.keys (fold_left (binPoint resolution) points cells)).
Proof.
  revert cells. induction points as [|p rest IH]; intros cells H; [exact H|].
  cbn [fold_left]. apply IH. now apply binPoint_NoDup.
Qed.

Lemma buckets_NoDup (points : list (R * R)) :
  NoDup (Js.keys (bucketsOf points resolution)).
Proof. apply fold_binPoint_NoDup. constructor. Qed.

Lemma buckets_sum (sel : string -> bool) (points : list (R * R)) :
  sumOver b_count sel (bucketsOf points resolution)
  = Z.of_nat (List.length (filter (fun p => sel (cellOf p)) points)).
Proof. unfold bucketsOf. now rewrite fold_binPoint_sum. Qed.

(** The count of a bucket is the number of points whose home it is. *)
Lemma buckets_countAt (points : list (R * R)) (k : string) :
  countAt k (bucketsOf points resolution)
  = Z.of_nat (List.length (filter (fun p => String.eqb k (cellOf p)) points)).
Proof.
  unfold countAt. rewrite <- (sumOver_key b_count k) by apply buckets_NoDup.
  apply buckets_sum.
Qed.

Lemma buckets_home (points : list (R * R)) (p : R * R) :
  In p points ->
  exists b, Js.get (cellOf p) (bucketsOf points resolution) = Some b
            /\ (1 <= b_count b)%Z.
Proof.
  intros Hin. pose proof (buckets_countAt points (cellOf p)) as Hc.
  assert (Hpos : (0 < List.length
                        (filter (fun q => String.eqb (cellOf p) (cellOf q)) points))%nat).
  { assert (Hf : In p (filter (fun q => String.eqb (cellOf p) (cellOf q)) points)).
    { apply filter_In. split; [assumption|apply String.eqb_refl]. }
    destruct (filter _ points); [destruct Hf|cbn; lia]. }
  unfold countAt in Hc.
  destruct (Js.get (cellOf p) (bucketsOf points resolution)) as [b|].
  - exists b. split; [reflexivity|lia].
  - lia.
Qed.

(** What the emission loop keeps. *)
Lemma emitBucket_cases (k : string) (b : CellBucket) :
  (b_count b < minCountForResolution resolution)%Z
  /\ emitBucket resolution (k, b) = []
  \/ (minCountForResolution resolution <= b_count b)%Z
     /\ exists f, emitBucket resolution (k, b) = [f]
                  /\ g_cellId f = k /\ g_count f = b_count b
                  /\ g_tier f = tierForCount (b_count b).
Proof.
  unfold emitBucket.
  destruct (Z.ltb_spec (b_count b) (minCountForResolution resolution)).
  - left. now split.
  - right. split; [assumption|]. eexists. split; [reflexivity|]. now cbn.
Qed.

Lemma sumZ_app (l l' : list Z) : sumZ (l ++ l') = (sumZ l + sumZ l')%Z.
Proof.
  unfold sumZ. induction l as [|x l IH]; cbn; [reflexivity|]. rewrite IH. lia.
Qed.

Lemma emitted_sum (m : Js.Map CellBucket) :
  sumZ (map g_count (flat_map (emitBucket resolution) m))
  = sumOver (keptCount resolution) everyKey m.
Proof.
  induction m as [|[k b] rest IH]; [reflexivity|].
  rewrite sumOver_cons. cbn [flat_map everyKey].
  rewrite map_app, sumZ_app, IH. f_equal. unfold keptCount.
  destruct (emitBucket_cases k b) as [[Hlt ->]|[Hge [f [-> [_ [Hc _]]]]]].
  - destruct (Z.ltb_spec (b_count b) (minCountForResolution resolution));
      [reflexivity|lia].
  - destruct (Z.ltb_spec (b_count b) (minCountForResolution resolution));
      [lia|]. cbn. lia.
Qed.

Lemma emitted_ids (m : Js.Map CellBucket) (k : string) :
  In k (map g_cellId (flat_map (emitBucket resolution) m))
  <-> exists b, In (k, b) m /\ (minCountForResolution resolution <= b_count b)%Z.
Proof.
  induction m as [|[k' b'] rest IH]; cbn [flat_map].
  - cbn. split; [tauto|]. now intros [b [[] _]].
  - rewrite map_app, in_app_iff, IH. clear IH.
    destruct (emitBucket_cases k' b') as [[Hlt ->]|[Hge [f [-> [Hid _]]]]]; cbn.
    + split.
      * intros [[]|[b [Hin Hb]]]. exists b. tauto.
      * intros [b [[Heq|Hin] Hb]]; [injection Heq as -> ->; lia|].
        right. now exists b.
    + rewrite Hid. split.
      * intros [[<-|[]]|[b [Hin Hb]]]; [exists b'|exists b]; tauto.
      * intros [b [[Heq|Hin] Hb]]; [injection Heq as -> ->; tauto|].
        right. now exists b.
Qed.

Lemma covered_iff (points : list (R * R)) (p : R * R) :
  covered resolution (aggregatePointsToHexFC points resolution) p = true
  <-> (minCountForResolution resolution
       <= countAt (cellOf p) (bucketsOf points resolution))%Z
      /\ Js.get (cellOf p) (bucketsOf points resolution) <> None.
Proof.
  unfold covered. rewrite existsb_exists. unfold aggregatePointsToHexFC.
  pose proof (buckets_NoDup points) as Hnd.
  pose proof (emitted_ids (bucketsOf points resolution) (cellOf p)) as He.
  rewrite in_map_iff in He. unfold countAt. split.
  - intros [f [Hin Heq]]. apply String.eqb_eq in Heq.
    destruct (proj1 He) as [b [Hb Hge]]; [now exists f|].
    rewrite (In_get _ _ _ Hnd Hb). split; [assumption|discriminate].
  - intros [Hge Hsome].
    destruct (Js.get (cellOf p) (bucketsOf points resolution)) as [b|] eqn:E;
      [|congruence].
    destruct (proj2 He) as [f [Hid Hin]].
    { exists b. split; [now apply get_Some_In|assumption]. }
    exists f. split; [assumption|]. now apply String.eqb_eq.
Qed.

Lemma emitted_sum_covered (points : list (R * R)) :
  sumZ (map g_count (aggregatePointsToHexFC points resolution))
  = Z.of_nat
      (List.length
         (filter (covered resolution (aggregatePointsToHexFC points resolution))
            points)).
Proof.
  unfold aggregatePointsToHexFC at 1. rewrite emitted_sum.
  set (sel := fun k =>
      (minCountForResolution resolution
       <=? countAt k (bucketsOf points resolution))%Z
      && match Js.get k (bucketsOf points resolution) with
         | Some _ => true | None => false end).
  rewrite (sumOver_ext_in (keptCount resolution) b_count everyKey sel).
  - rewrite buckets_sum. f_equal. f_equal. apply filter_ext. intros p.
    destruct (covered resolution _ p) eqn:E.
    + apply covered_iff in E. destruct E as [E1 E2]. subst sel. cbv beta.
      apply Z.leb_le in E1. rewrite E1.
      now destruct (Js.get (homeCellId resolution p) (bucketsOf points resolution)).
    + subst sel. cbv beta.
      destruct (_ && _) eqn:E'; [|reflexivity].
      apply andb_true_iff in E'. destruct E' as [E1 E2].
      apply Z.leb_le in E1.
      assert (covered resolution (aggregatePointsToHexFC points resolution) p = true).
      { apply covered_iff. split; [assumption|].
        destruct (Js.get (homeCellId resolution p) (bucketsOf points resolution));
          [discriminate|discriminate]. }
      congruence.
  - intros k b Hin. cbn [everyKey]. subst sel. cbv beta. unfold countAt.
    rewrite (In_get _ _ _ (buckets_NoDup points) Hin). unfold keptCount.
    destruct (Z.ltb_spec (b_count b) (minCountForResolution resolution));
      destruct (Z.leb_spec (minCountForResolution resolution) (b_count b));
      cbn; lia.
Qed.

End OffsetGrid.

Lemma covered_at_coarse (points : list (R * R)) (p : R * R) :
  In p points ->
  covered Res5 (aggregatePointsToHexFC points Res5) p = true.
Proof.
  intros Hin. apply covered_iff.
  destruct (buckets_home Res5 points p Hin) as [b [Hb Hc]].
  unfold countAt. rewrite Hb. split; [exact Hc|discriminate].
Qed.

Lemma filter_all {A : Type} (f : A -> bool) (l : list A) :
  (forall x, In x l -> f x = true) -> filter f l = l.
Proof.
  induction l as [|x l IH]; intros H; [reflexivity|]. cbn.
  rewrite (H x) by now left. f_equal. apply IH. intros y Hy. apply H. now right.
Qed.

(** A single point at resolution 6 stays under the minimum: nothing is
    emitted. *)
Lemma single_point_suppressed (p : R * R) :
  aggregatePointsToHexFC [p] Res6 = [].
Proof.
  unfold aggregatePointsToHexFC, bucketsOf. cbn [fold_left].
  unfold binPoint. destruct (homeCell Res6 p) as [row col].
  reflexivity.
Qed.

Section BucketCells.

Variable resolution : H3Resolution.

Local Abbreviation wellKeyed := (wellKeyed resolution).

Lemma binPoint_wellKeyed (cells : Js.Map CellBucket) (p : R * R) :
  wellKeyed cells -> wellKeyed (binPoint resolution cells p).
Proof.
  intros Hw k b. unfold binPoint.
  destruct (homeCell resolution p) as [row col].
  destruct (Js.get (cellIdOf resolution row col) cells) as [prev|] eqn:E.
  - destruct (String.eqb_spec (cellIdOf resolution row col) k) as [<-|Hne].
    + rewrite get_set_same. intros [= <-]. cbn. now apply Hw.
    + rewrite get_set_other by assumption. apply Hw.
  - destruct (String.eqb_spec (cellIdOf resolution row col) k) as [<-|Hne].
    + rewrite get_set_same. now intros [= <-].
    + rewrite get_set_other by assumption. apply Hw.
Qed.

Lemma buckets_wellKeyed (points : list (R * R)) :
  wellKeyed (bucketsOf points resolution).
Proof.
  unfold bucketsOf.
  assert (H : forall cells, wellKeyed cells ->
                            wellKeyed (fold_left (binPoint resolution) points cells)).
  { induction points as [|p rest IH]; intros cells Hw; [exact Hw|].
    cbn [fold_left]. apply IH. now apply binPoint_wellKeyed. }
  apply H. intros k b. discriminate.
Qed.

(** The bucket a point is counted in is the one of its row and column. *)
Lemma buckets_rowcol (points : list (R * R)) (p : R * R) :
  In p points ->
  exists b,
    Js.get (homeCellId resolution p) (bucketsOf points resolution) = Some b
    /\ (b_row b, b_col b) = homeCell resolution p
    /\ (1 <= b_count b)%Z.
Proof.
  intros Hin. destruct (buckets_home resolution points p Hin) as [b [Hb Hc]].
  exists b. split; [exact Hb|]. split; [|exact Hc].
  apply buckets_wellKeyed in Hb. unfold homeCellId in Hb.
  apply cellIdOf_inj in Hb. destruct Hb as [<- <-].
  now destruct (homeCell resolution p).
Qed.

End BucketCells.


(** ** Home cells of the sparse builder *)

Lemma sumOverQ_cons (sel : string -> bool) k v (m : Js.Map Q) :
  sumOverQ sel ((k, v) :: m) = (if sel k then v else 0) + sumOverQ sel m.
Proof. reflexivity. Qed.

Lemma sumOverQ_set (sel : string -> bool) k v (m : Js.Map Q) :
  sumOverQ sel (Js.set k v m)
  == sumOverQ sel m
     + (if sel k then v - Js.nullish (Js.get k m) 0 else 0).
Proof.
  induction m as [|[k' v'] rest IH]; cbn [Js.set Js.get Js.nullish].
  - rewrite sumOverQ_cons. cbn. destruct (sel k); ring.
  - destruct (String.eqb_spec k k') as [->|Hk]; rewrite !sumOverQ_cons.
    + cbn [Js.nullish]. destruct (sel k'); ring.
    + rewrite IH. destruct (sel k), (sel k'); ring.
Qed.

Lemma sumOverQ_key (k : string) (m : Js.Map Q) :
  NoDup (Js.keys m) ->
  sumOverQ (String.eqb k) m == Js.nullish (Js.get k m) 0.
Proof.
  unfold Js.keys. induction m as [|[k' v'] rest IH]; intros Hnd; [reflexivity|].
  rewrite sumOverQ_cons. cbn [Js.get map fst] in *.
  inversion Hnd as [|? ? Hnot Hnd']; subst.
  destruct (String.eqb_spec k k') as [->|Hk].
  - rewrite IH by assumption.
    apply (proj2 (get_None_keys k' rest)) in Hnot. rewrite Hnot. cbn. ring.
  - rewrite IH by assumption. ring.
Qed.

Section SparseHome.

Variables (h3 : H3) (resolution : H3Resolution).

Lemma countCenter_home (m : Js.Map Q) (f : PoiFeature) :
  countCenter h3 resolution m f
  = match sparseHome h3 resolution f with
    | Some cell => Js.set cell (Js.nullish (Js.get cell m) 0 + 1) m
    | None => m
    end.
Proof.
  unfold countCenter, sparseHome.
  destruct (poi_kind f) as [kind|]; cbn [option_map Js.nullish negb];
    [|reflexivity].
  destruct (String.eqb "synagogue" kind); cbn [negb]; [|reflexivity].
  destruct (finiteLonLat f) as [[lon lat]|]; reflexivity.
Qed.

Lemma countCenter_sum (sel : string -> bool) (m : Js.Map Q) (f : PoiFeature) :
  sumOverQ sel (countCenter h3 resolution m f)
  == sumOverQ sel m + (if homeIs h3 resolution sel f then 1 else 0).
Proof.
  rewrite countCenter_home. unfold homeIs.
  destruct (sparseHome h3 resolution f) as [cell|]; [|ring].
  rewrite sumOverQ_set. destruct (sel cell); ring.
Qed.

Lemma countCenter_NoDup (m : Js.Map Q) (f : PoiFeature) :
  NoDup (Js.keys m) -> NoDup (Js.keys (countCenter h3 resolution m f)).
Proof.
  rewrite countCenter_home.
  destruct (sparseHome h3 resolution f); [apply NoDup_keys_set|trivial].
Qed.

Lemma fold_countCenter_sum (sel : string -> bool) (features : list PoiFeature)
  (m : Js.Map Q) :
  sumOverQ sel (fold_left (countCenter h3 resolution) features m)
  == sumOverQ sel m
     + inject_Z
         (Z.of_nat (List.length (filter (homeIs h3 resolution sel) features))).
Proof.
  revert m. induction features as [|f rest IH]; intros m; cbn [fold_left filter].
  - cbn. ring.
  - rewrite IH, countCenter_sum.
    destruct (homeIs h3 resolution sel f); [|ring].
    cbn [List.length]. rewrite Nat2Z.inj_succ. unfold Z.succ.
    rewrite inject_Z_plus. change (inject_Z 1) with 1. ring.
Qed.

Lemma centerEstimates_NoDup (features : list PoiFeature) :
  NoDup (Js.keys (centerEstimatesOf h3 resolution features)).
Proof.
  unfold centerEstimatesOf.
  assert (H : forall m : Js.Map Q,
             NoDup (Js.keys m) ->
             NoDup (Js.keys (fold_left (countCenter h3 resolution) features m))).
  { induction features as [|f rest IH]; intros m Hm; [exact Hm|].
    cbn [fold_left]. apply IH. now apply countCenter_NoDup. }
  apply H. constructor.
Qed.

Lemma centerEstimates_sum (sel : string -> bool) (features : list PoiFeature) :
  sumOverQ sel (centerEstimatesOf h3 resolution features)
  == inject_Z
       (Z.of_nat (List.length (filter (homeIs h3 resolution sel) features))).
Proof.
  unfold centerEstimatesOf. rewrite fold_countCenter_sum. cbn. ring.
Qed.

(** The count of a cell is the number of points whose home it is. *)
Lemma centerEstimates_at (features : list PoiFeature) (k : string) :
  Js.nullish (Js.get k (centerEstimatesOf h3 resolution features)) 0
  == inject_Z
       (Z.of_nat
          (List.length (filter (homeIs h3 resolution (String.eqb k)) features))).
Proof.
  rewrite <- sumOverQ_key by apply centerEstimates_NoDup.
  apply centerEstimates_sum.
Qed.

End SparseHome.

(** C3, amended.  Binning gives every point exactly one home cell: the
    buckets have distinct identifiers, the count of each is the number
    of points whose home it is, a point is counted in the bucket of its
    own row and column, and the counts add up to the number of points
    binned.  The counts of the features the offset-grid
    aggregator emits add up to the number of points that lie in an
    emitted cell, which is every point at resolution 5; in the sparse
    builder the centre counts add up to the number of points its first
    loop accepts. *)
Theorem count_conservation :
  (forall (points : list (R * R)) (resolution : H3Resolution),
      NoDup (Js.keys (bucketsOf points resolution))
      /\ (forall k,
             countAt k (bucketsOf points resolution)
             = Z.of_nat
                 (List.length
                    (filter
                       (fun p => String.eqb k (homeCellId resolution p))
                       points)))
      /\ (forall p,
             In p points ->
             exists b,
               Js.get (homeCellId resolution p) (bucketsOf points resolution)
               = Some b
               /\ (b_row b, b_col b) = homeCell resolution p
               /\ (1 <= b_count b)%Z)
      /\ sumOver b_count everyKey (bucketsOf points resolution)
         = Z.of_nat (List.length points)
      /\ sumZ (map g_count (aggregatePointsToHexFC points resolution))
         = Z.of_nat
             (List.length
                (filter
                   (covered resolution
                      (aggregatePointsToHexFC points resolution))
                   points)))
  /\ (forall points : list (R * R),
         sumZ (map g_count (aggregatePointsToHexFC points Res5))
         = Z.of_nat (List.length points))
  /\ (forall (h3 : H3) (features : list PoiFeature)
        (resolution : H3Resolution),
         NoDup (Js.keys (centerEstimatesOf h3 resolution features))
         /\ (forall k,
                Js.nullish
                  (Js.get k (centerEstimatesOf h3 resolution features)) 0
                == inject_Z
                     (Z.of_nat
                        (List.length
                           (filter (homeIs h3 resolution (String.eqb k))
                              features))))
         /\ sumOverQ everyKey (centerEstimatesOf h3 resolution features)
            == inject_Z
                 (Z.of_nat
                    (List.length
                       (filter (homeIs h3 resolution everyKey) features)))).
Proof.
  split; [|split].
  - intros points resolution. split; [apply buckets_NoDup|].
    split; [apply buckets_countAt|]. split; [apply buckets_rowcol|].
    split; [|apply emitted_sum_covered].
    rewrite buckets_sum. f_equal. f_equal.
    induction points as [|p rest IH]; [reflexivity|]. cbn. now rewrite IH.
  - intros points. rewrite emitted_sum_covered. f_equal. f_equal.
    apply filter_all. intros p Hp. now apply covered_at_coarse.
  - intros h3 features resolution. split; [apply centerEstimates_NoDup|].
    split; [apply centerEstimates_at|apply centerEstimates_sum].
Qed.

(** C3 as stated fails: one point, at resolution 6, is binned but its
    cell is not emitted, so the emitted counts add up to 0, not 1. *)
Lemma count_conservation_counterexample :
  sumZ (map g_count (aggregatePointsToHexFC [(0, 0)%R] Res6))
  <> Z.of_nat (List.length [(0, 0)%R]).
Proof. rewrite single_point_suppressed. cbn. discriminate. Qed.

(** C10.  Every feature the offset-grid aggregator emits has a count of
    at least the minimum of its resolution, 2 at resolutions 6 and 8 and
    1 at resolution 5; the features are exactly the buckets that reach
    the minimum, in order; the minimum is not the threshold 3 of
    [K_ANONYMITY_THRESHOLD]. *)
Theorem suppression_minimum (points : list (R * R))
  (resolution : H3Resolution) :
  Forall (fun f => (minCountForResolution resolution <= g_count f)%Z)
    (aggregatePointsToHexFC points resolution)
  /\ map (fun f => (g_cellId f, g_count f))
       (aggregatePointsToHexFC points resolution)
     = map (fun e => (fst e, b_count (snd e)))
         (filter
            (fun e =>
               (minCountForResolution resolution <=? b_count (snd e))%Z)
            (bucketsOf points resolution))
  /\ minCountForResolution Res5 = 1%Z
  /\ minCountForResolution Res6 = 2%Z
  /\ minCountForResolution Res8 = 2%Z
  /\ K_ANONYMITY_THRESHOLD = 3%Z
  /\ (minCountForResolution resolution < K_ANONYMITY_THRESHOLD)%Z.
Proof.
  split; [|split].
  - unfold aggregatePointsToHexFC.
    induction (bucketsOf points resolution) as [|[k b] rest IH];
      [constructor|].
    cbn [flat_map]. apply Forall_app. split; [|exact IH].
    destruct (emitBucket_cases resolution k b)
      as [[Hlt ->]|[Hge [f [-> [_ [Hc _]]]]]]; [constructor|].
    constructor; [lia|constructor].
  - unfold aggregatePointsToHexFC.
    induction (bucketsOf points resolution) as [|[k b] rest IH];
      [reflexivity|].
    cbn [flat_map filter fst snd]. rewrite map_app, IH.
    destruct (emitBucket_cases resolution k b)
      as [[Hlt ->]|[Hge [f [-> [Hid [Hc _]]]]]].
    + destruct (Z.leb_spec (minCountForResolution resolution) (b_count b));
        [lia|reflexivity].
    + destruct (Z.leb_spec (minCountForResolution resolution) (b_count b));
        [|lia]. cbn. now rewrite Hid, Hc.
  - repeat split; destruct resolution; reflexivity.
Qed.

(** ** Spreading the halo *)

Lemma valueAt_set_same k v m : valueAt k (Js.set k v m) = v.
Proof. unfold valueAt. now rewrite get_set_same. Qed.

Lemma valueAt_set_other k k' v m :
  k <> k' -> valueAt k' (Js.set k v m) = valueAt k' m.
Proof. intros H. unfold valueAt. now rewrite get_set_other. Qed.

Section Halo.

Variable h3 : H3.

Lemma spreadHalo_fold (cell : string) (halo : Q) (m : Js.Map Q) :
  spreadHalo h3 cell halo m
  = fold_left (haloTurn cell halo) (gridDisk h3 cell 1) m.
Proof. reflexivity. Qed.

Lemma haloTurn_valueAt (cell : string) (halo : Q) (m : Js.Map Q)
  (nb n : string) :
  valueAt n (haloTurn cell halo m nb)
  = if String.eqb n nb && negb (String.eqb n cell)
    then Js.max (valueAt n m) halo else valueAt n m.
Proof.
  unfold haloTurn.
  destruct (String.eqb_spec nb cell) as [->|Hc].
  - destruct (String.eqb_spec n cell); reflexivity.
  - destruct (String.eqb_spec n nb) as [->|Hn].
    + rewrite valueAt_set_same.
      destruct (String.eqb_spec nb cell); [contradiction|reflexivity].
    + rewrite valueAt_set_other by congruence. reflexivity.
Qed.

Lemma fold_haloTurn_valueAt (cell : string) (halo : Q) (disk : list string)
  (m : Js.Map Q) (n : string) :
  valueAt n (fold_left (haloTurn cell halo) disk m)
  == if existsb (String.eqb n) disk && negb (String.eqb n cell)
     then Js.max (valueAt n m) halo else valueAt n m.
Proof.
  revert m. induction disk as [|nb rest IH]; intros m; cbn [fold_left existsb].
  - reflexivity.
  - rewrite IH, haloTurn_valueAt.
    destruct (String.eqb n nb), (negb (String.eqb n cell)),
      (existsb (String.eqb n) rest); cbn [andb orb];
      try reflexivity; apply max_max_same.
Qed.

Lemma spreadHalo_valueAt (cell : string) (halo : Q) (m : Js.Map Q)
  (n : string) :
  valueAt n (spreadHalo h3 cell halo m)
  == if adjacentTo h3 n cell then Js.max (valueAt n m) halo else valueAt n m.
Proof. rewrite spreadHalo_fold. apply fold_haloTurn_valueAt. Qed.

Lemma haloStep_valueAt (m : Js.Map Q) (cell : string) (count : Q) (n : string) :
  0 <= valueAt n m ->
  valueAt n (haloStep h3 m (cell, count))
  == if adjacentTo h3 n cell
     then Js.max (valueAt n m) (count * (25 # 100)) else valueAt n m.
Proof.
  intros Hv. unfold haloStep.
  destruct (leb_spec (count * (25 # 100)) 0) as [Hle|Hgt].
  - destruct (adjacentTo h3 n cell); [|reflexivity].
    symmetry. apply max_absorb. qlra.
  - apply spreadHalo_valueAt.
Qed.

Lemma haloStep_nonneg (m : Js.Map Q) (e : string * Q) (n : string) :
  0 <= valueAt n m -> 0 <= valueAt n (haloStep h3 m e).
Proof.
  intros Hv. destruct e as [cell count]. rewrite haloStep_valueAt by assumption.
  destruct (adjacentTo h3 n cell); [|assumption]. qmax_cases; qlra.
Qed.

Lemma largest_cons (e : string * Q) (done : Js.Map Q) (n : string) :
  largestAdjacentCount h3 (e :: done) n
  = if adjacentTo h3 n (fst e)
    then Js.max (snd e) (largestAdjacentCount h3 done n)
    else largestAdjacentCount h3 done n.
Proof. reflexivity. Qed.

Lemma largest_nonneg (done : Js.Map Q) (n : string) :
  0 <= largestAdjacentCount h3 done n.
Proof.
  induction done as [|e rest IH]; [cbn; qlra|].
  rewrite largest_cons. destruct (adjacentTo h3 n (fst e)); [|assumption].
  qmax_cases; qlra.
Qed.

Lemma fold_haloStep_valueAt (done : Js.Map Q) (m : Js.Map Q) (n : string) :
  0 <= valueAt n m ->
  valueAt n (fold_left (haloStep h3) done m)
  == Js.max (valueAt n m) ((25 # 100) * largestAdjacentCount h3 done n).
Proof.
  revert m. induction done as [|[cell count] rest IH]; intros m Hv.
  - cbn [fold_left]. unfold largestAdjacentCount. cbn [fold_right].
    symmetry. apply max_absorb. qlra.
  - cbn [fold_left]. rewrite IH by now apply haloStep_nonneg.
    rewrite largest_cons. cbn [fst snd].
    pose proof (haloStep_valueAt m cell count n Hv) as Hs.
    pose proof (largest_nonneg rest n) as Hl.
    set (L := largestAdjacentCount h3 rest n) in *.
    set (s := valueAt n (haloStep h3 m (cell, count))) in *.
    destruct (adjacentTo h3 n cell); qmax_cases; qlra.
Qed.

End Halo.

Section HaloKeys.

Variable h3 : H3.

Lemma haloTurn_keeps (cell : string) (halo : Q) (m : Js.Map Q)
  (nb k : string) :
  Js.get k m <> None -> Js.get k (haloTurn cell halo m nb) <> None.
Proof.
  intros H. unfold haloTurn. destruct (String.eqb nb cell); [assumption|].
  now apply get_set_Some.
Qed.

Lemma fold_haloTurn_keeps (cell : string) (halo : Q) (disk : list string)
  (m : Js.Map Q) (k : string) :
  Js.get k m <> None ->
  Js.get k (fold_left (haloTurn cell halo) disk m) <> None.
Proof.
  revert m. induction disk as [|nb rest IH]; intros m H; [exact H|].
  cbn [fold_left]. apply IH. now apply haloTurn_keeps.
Qed.

Lemma fold_haloTurn_sets (cell : string) (halo : Q) (disk : list string)
  (m : Js.Map Q) (n : string) :
  In n disk -> n <> cell ->
  Js.get n (fold_left (haloTurn cell halo) disk m) <> None.
Proof.
  intros Hin Hne. revert m. induction disk as [|nb rest IH]; intros m;
    [destruct Hin|].
  cbn [fold_left]. destruct Hin as [->|Hin]; [|now apply IH].
  apply fold_haloTurn_keeps. unfold haloTurn.
  destruct (String.eqb_spec n cell); [contradiction|].
  rewrite get_set_same. discriminate.
Qed.

Lemma haloStep_keeps (m : Js.Map Q) (e : string * Q) (k : string) :
  Js.get k m <> None -> Js.get k (haloStep h3 m e) <> None.
Proof.
  intros H. destruct e as [cell count]. unfold haloStep.
  destruct (Js.leb _ 0); [assumption|].
  rewrite spreadHalo_fold. now apply fold_haloTurn_keeps.
Qed.

Lemma fold_haloStep_keeps (done m : Js.Map Q) (k : string) :
  Js.get k m <> None -> Js.get k (fold_left (haloStep h3) done m) <> None.
Proof.
  revert m. induction done as [|e rest IH]; intros m H; [exact H|].
  cbn [fold_left]. apply IH. now apply haloStep_keeps.
Qed.

Lemma fold_haloStep_sets (done m : Js.Map Q) (c n : string) (count : Q) :
  In (c, count) done -> 0 < count ->
  In n (gridDisk h3 c 1) -> n <> c ->
  Js.get n (fold_left (haloStep h3) done m) <> None.
Proof.
  intros Hin Hpos Hn Hne. revert m.
  induction done as [|e rest IH]; intros m; [destruct Hin|].
  cbn [fold_left]. destruct Hin as [->|Hin]; [|now apply IH].
  apply fold_haloStep_keeps. unfold haloStep.
  destruct (leb_spec (count * (25 # 100)) 0) as [Hle|Hgt]; [qlra|].
  rewrite spreadHalo_fold. now apply fold_haloTurn_sets.
Qed.

Lemma largest_ge (done : Js.Map Q) (c n : string) (count : Q) :
  In (c, count) done -> adjacentTo h3 n c = true ->
  count <= largestAdjacentCount h3 done n.
Proof.
  intros Hin Hadj. induction done as [|e rest IH]; [destruct Hin|].
  rewrite largest_cons. destruct Hin as [->|Hin].
  - cbn [fst snd]. rewrite Hadj. qmax_cases; qlra.
  - specialize (IH Hin). destruct (adjacentTo h3 n (fst e)); [|assumption].
    qmax_cases; qlra.
Qed.

Lemma adjacentTo_true (n c : string) :
  adjacentTo h3 n c = true <-> In n (gridDisk h3 c 1) /\ n <> c.
Proof.
  unfold adjacentTo. rewrite andb_true_iff, negb_true_iff, existsb_exists.
  split.
  - intros [[x [Hx Hxn]] Hne]. apply String.eqb_eq in Hxn. subst x.
    split; [assumption|]. now apply String.eqb_neq.
  - intros [Hin Hne]. split; [|now apply String.eqb_neq].
    exists n. split; [assumption|apply String.eqb_refl].
Qed.

End HaloKeys.

Section CenterValues.

Variables (h3 : H3) (resolution : H3Resolution).

Lemma set_values_ge (m : Js.Map Q) (k : string) (v b : Q) :
  b <= v ->
  (forall k' v', Js.get k' m = Some v' -> b <= v') ->
  forall k' v', Js.get k' (Js.set k v m) = Some v' -> b <= v'.
Proof.
  intros Hv Hm k' v'. destruct (String.eqb_spec k k') as [->|Hne].
  - rewrite get_set_same. now intros [= <-].
  - rewrite get_set_other by assumption. apply Hm.
Qed.

Lemma centerEstimates_ge_one (features : list PoiFeature) (k : string) (v : Q) :
  Js.get k (centerEstimatesOf h3 resolution features) = Some v -> 1 <= v.
Proof.
  unfold centerEstimatesOf.
  assert (H : forall m : Js.Map Q,
             (forall k' v', Js.get k' m = Some v' -> 1 <= v') ->
             forall k' v',
               Js.get k' (fold_left (countCenter h3 resolution) features m)
               = Some v' -> 1 <= v').
  { induction features as [|f rest IH]; intros m Hm; [exact Hm|].
    cbn [fold_left]. apply IH. rewrite countCenter_home.
    destruct (sparseHome h3 resolution f) as [cell|]; [|exact Hm].
    apply set_values_ge; [|exact Hm].
    destruct (Js.get cell m) as [v0|] eqn:E; cbn [Js.nullish].
    - specialize (Hm cell v0 E). qlra.
    - qlra. }
  apply (H []). cbn. discriminate.
Qed.

Lemma centerEstimates_valueAt_nonneg (features : list PoiFeature) (n : string) :
  0 <= valueAt n (centerEstimatesOf h3 resolution features).
Proof.
  unfold valueAt.
  destruct (Js.get n (centerEstimatesOf h3 resolution features)) as [v|] eqn:E;
    cbn [Js.nullish]; [|qlra].
  apply centerEstimates_ge_one in E. qlra.
Qed.

End CenterValues.

(** ** The rows of the sparse builder *)

Lemma tierForEstimate_comp (a b : Q) :
  a == b -> tierForEstimate a = tierForEstimate b.
Proof.
  intros H. unfold tierForEstimate, Js.geb, Js.leb.
  assert (Hc : forall c, Qle_bool c a = Qle_bool c b)
    by (intros c; now rewrite H).
  now rewrite !Hc.
Qed.

Section Rows.

Variables (h3 : H3) (resolution : H3Resolution).

Lemma sparseRows_In (entries : list (string * Q)) (processed : Z)
  (r : SparseRow) :
  In r (fst (sparseRows h3 resolution entries processed)) ->
  exists raw,
    In (row_cell r, raw) entries
    /\ row_estimate r = Js.max 0 (Js.min 10000 raw)
    /\ row_tier r = tierForEstimate (row_estimate r).
Proof.
  revert processed. induction entries as [|[cell raw] rest IH];
    intros processed; [intros []|].
  cbn [sparseRows].
  destruct (Z.leb MAX_SPARSE_HEX_CELLS processed); [intros []|].
  assert (Hrest : In r (fst (sparseRows h3 resolution rest (processed + 1))) ->
                  exists raw0,
                    In (row_cell r, raw0) ((cell, raw) :: rest)
                    /\ row_estimate r = Js.max 0 (Js.min 10000 raw0)
                    /\ row_tier r = tierForEstimate (row_estimate r)).
  { intros H. destruct (IH _ H) as [raw0 [Hin Hr]]. exists raw0.
    split; [now right|exact Hr]. }
  destruct (Js.leb _ 0); [exact Hrest|].
  destruct (Nat.ltb _ 4); [exact Hrest|].
  destruct (sparseRows h3 resolution rest (processed + 1)) as [rows capped].
  cbn [fst] in *. intros [<-|Hin]; [|now apply Hrest].
  exists raw. cbn [row_cell row_estimate row_tier].
  split; [now left|]. split; reflexivity.
Qed.

Lemma sparseRows_first (cell : string) (raw : Q) (rest : list (string * Q)) :
  0 < raw -> raw <= 10000 ->
  (4 <= List.length (cellToBoundary h3 cell true))%nat ->
  exists row,
    fst (sparseRows h3 resolution ((cell, raw) :: rest) 0)
    = row :: fst (sparseRows h3 resolution rest 1)
    /\ row_cell row = cell
    /\ row_boundary row = cellToBoundary h3 cell true
    /\ row_estimate row == raw
    /\ row_tier row = tierForEstimate raw.
Proof.
  intros Hpos Hmax Hb. cbn [sparseRows].
  change (MAX_SPARSE_HEX_CELLS <=? 0)%Z with false. cbv iota.
  assert (He : Js.max 0 (Js.min 10000 raw) == raw) by (qmax_cases; qlra).
  destruct (leb_spec (Js.max 0 (Js.min 10000 raw)) 0) as [Hle|Hgt]; [qlra|].
  destruct (Nat.ltb_spec (List.length (cellToBoundary h3 cell true)) 4);
    [lia|].
  change (0 + 1)%Z with 1%Z.
  destruct (sparseRows h3 resolution rest 1) as [rows capped].
  eexists. split; [reflexivity|]. cbn [fst row_cell row_boundary row_estimate row_tier].
  split; [reflexivity|]. split; [reflexivity|]. split; [exact He|].
  now apply tierForEstimate_comp.
Qed.

End Rows.


(** ** The cap *)

Section Cap.

Variables (h3 : H3) (resolution : H3Resolution).

Lemma sparseRows_length (entries : list (string * Q)) (processed : Z) :
  (Z.of_nat (List.length (fst (sparseRows h3 resolution entries processed)))
   <= Z.max 0 (MAX_SPARSE_HEX_CELLS - processed))%Z.
Proof.
  revert processed. induction entries as [|[cell raw] rest IH]; intros processed.
  - cbn [sparseRows fst List.length]. lia.
  - cbn [sparseRows].
    destruct (Z.leb_spec MAX_SPARSE_HEX_CELLS processed) as [Hcap|Hcap].
    + cbn [fst List.length]. lia.
    + specialize (IH (processed + 1)%Z).
      destruct (Js.leb _ 0); [lia|].
      destruct (Nat.ltb _ 4); [lia|].
      destruct (sparseRows h3 resolution rest (processed + 1)) as [rows capped].
      cbn [fst List.length] in *. lia.
Qed.

Lemma sparseRows_capped (entries : list (string * Q)) (processed : Z) :
  (processed <= MAX_SPARSE_HEX_CELLS)%Z ->
  snd (sparseRows h3 resolution entries processed) = true
  <-> (MAX_SPARSE_HEX_CELLS - processed < Z.of_nat (List.length entries))%Z.
Proof.
  revert processed. induction entries as [|[cell raw] rest IH];
    intros processed Hle.
  - cbn [sparseRows snd List.length]. split; [discriminate|lia].
  - cbn [sparseRows List.length].
    destruct (Z.leb_spec MAX_SPARSE_HEX_CELLS processed) as [Hcap|Hcap].
    + cbn [snd]. split; [lia|reflexivity].
    + assert (Hle' : (processed + 1 <= MAX_SPARSE_HEX_CELLS)%Z) by lia.
      specialize (IH (processed + 1)%Z Hle').
      assert (Hiff : snd (sparseRows h3 resolution rest (processed + 1)) = true
                     <-> (MAX_SPARSE_HEX_CELLS - processed
                          < Z.of_nat (S (List.length rest)))%Z)
        by (rewrite IH; lia).
      destruct (Js.leb _ 0); [exact Hiff|].
      destruct (Nat.ltb _ 4); [exact Hiff|].
      destruct (sparseRows h3 resolution rest (processed + 1)) as [rows capped].
      exact Hiff.
Qed.

Lemma build_cases (features : list PoiFeature) :
  centerEstimatesOf h3 resolution features = []
  /\ buildSparseHexesFromPois h3 features resolution
     = ({| fc := EMPTY_FC; p95 := 1 |}, [])
  \/ centerEstimatesOf h3 resolution features <> []
     /\ buildSparseHexesFromPois h3 features resolution
        = sparseMain h3 resolution
            (estimatesOf h3 (centerEstimatesOf h3 resolution features)).
Proof.
  unfold buildSparseHexesFromPois, sparseMain.
  destruct features as [|f rest]; [left; split; reflexivity|].
  destruct (centerEstimatesOf h3 resolution (f :: rest)) as [|e m] eqn:E.
  - left. split; reflexivity.
  - right. split; [discriminate|reflexivity].
Qed.

Lemma estimatesOf_nil : estimatesOf h3 [] = [].
Proof. reflexivity. Qed.

End Cap.

Lemma build_length (h3 : H3) (features : list PoiFeature)
  (resolution : H3Resolution) :
  (Z.of_nat
     (List.length (fc (fst (buildSparseHexesFromPois h3 features resolution))))
   <= MAX_SPARSE_HEX_CELLS)%Z.
Proof.
  destruct (build_cases h3 resolution features) as [[Hc ->]|[Hc ->]].
  - unfold MAX_SPARSE_HEX_CELLS. cbn. lia.
  - unfold sparseMain.
    pose proof (sparseRows_length h3 resolution
                  (estimatesOf h3 (centerEstimatesOf h3 resolution features))
                  0) as Hlen.
    destruct (sparseRows h3 resolution _ 0) as [rows capped].
    cbn [fst snd fc] in *. rewrite length_map.
    unfold MAX_SPARSE_HEX_CELLS in *. lia.
Qed.

Lemma build_console (h3 : H3) (features : list PoiFeature)
  (resolution : H3Resolution) :
  (snd (buildSparseHexesFromPois h3 features resolution) <> []
   <-> (MAX_SPARSE_HEX_CELLS
        < Z.of_nat
            (List.length
               (estimatesOf h3 (centerEstimatesOf h3 resolution features))))%Z)
  /\ (snd (buildSparseHexesFromPois h3 features resolution) = []
      \/ snd (buildSparseHexesFromPois h3 features resolution)
         = [WarnMaxCellsReached resolution MAX_SPARSE_HEX_CELLS
              (Z.of_nat
                 (List.length
                    (estimatesOf h3
                       (centerEstimatesOf h3 resolution features))))
              (Z.of_nat
                 (List.length
                    (fc (fst (buildSparseHexesFromPois h3 features
                                resolution)))))]).
Proof.
  destruct (build_cases h3 resolution features) as [[Hc ->]|[Hc ->]].
  - rewrite Hc. cbn [estimatesOf fold_left List.length fst snd fc EMPTY_FC].
    split; [|now left].
    split; [intros H; exfalso; now apply H|].
    unfold MAX_SPARSE_HEX_CELLS; cbn; lia.
  - set (estimates := estimatesOf h3 (centerEstimatesOf h3 resolution features)).
    unfold sparseMain.
    pose proof (sparseRows_capped h3 resolution estimates 0) as Hcap.
    destruct (sparseRows h3 resolution estimates 0) as [rows capped].
    cbn [fst snd fc] in *. rewrite length_map. split.
    + rewrite <- (Z.sub_0_r MAX_SPARSE_HEX_CELLS), <- Hcap
        by (unfold MAX_SPARSE_HEX_CELLS; lia).
      destruct capped; split; try discriminate; try reflexivity.
      intros H. exfalso. now apply H.
    + destruct capped; [right; reflexivity|left; reflexivity].
Qed.

Section FirstReached.

Variables (h3 : H3) (resolution : H3Resolution).

Lemma sparseRows_firstn (entries : list (string * Q)) (processed : Z) :
  (0 <= processed <= MAX_SPARSE_HEX_CELLS)%Z ->
  fst (sparseRows h3 resolution entries processed)
  = fst (sparseRows h3 resolution
           (firstn (Z.to_nat (MAX_SPARSE_HEX_CELLS - processed)) entries)
           processed).
Proof.
  revert processed. induction entries as [|[cell raw] rest IH];
    intros processed Hp.
  - now rewrite firstn_nil.
  - destruct (Z.leb_spec MAX_SPARSE_HEX_CELLS processed) as [Hcap|Hcap].
    + replace (MAX_SPARSE_HEX_CELLS - processed)%Z with 0%Z by lia.
      cbn [Z.to_nat firstn sparseRows].
      destruct (Z.leb_spec MAX_SPARSE_HEX_CELLS processed); [reflexivity|lia].
    + replace (MAX_SPARSE_HEX_CELLS - processed)%Z
        with (Z.succ (MAX_SPARSE_HEX_CELLS - (processed + 1)))%Z by lia.
      rewrite Z2Nat.inj_succ by lia. cbn [firstn sparseRows].
      destruct (Z.leb_spec MAX_SPARSE_HEX_CELLS processed); [lia|].
      assert (Hp' : (0 <= processed + 1 <= MAX_SPARSE_HEX_CELLS)%Z) by lia.
      specialize (IH (processed + 1)%Z Hp').
      destruct (Js.leb _ 0); [exact IH|].
      destruct (Nat.ltb _ 4); [exact IH|].
      destruct (sparseRows h3 resolution rest (processed + 1)) as [rows c1].
      destruct (sparseRows h3 resolution _ (processed + 1)) as [rows' c2].
      cbn [fst] in *. now subst.
Qed.

Lemma sparseMain_firstn (estimates : Js.Map Q) :
  fst (sparseMain h3 resolution estimates)
  = fst (sparseMain h3 resolution
           (firstn (Z.to_nat MAX_SPARSE_HEX_CELLS) estimates)).
Proof.
  unfold sparseMain.
  assert (H0 : (0 <= 0 <= MAX_SPARSE_HEX_CELLS)%Z)
    by (unfold MAX_SPARSE_HEX_CELLS; lia).
  pose proof (sparseRows_firstn estimates 0 H0) as Hrows.
  rewrite Z.sub_0_r in Hrows.
  destruct (sparseRows h3 resolution estimates 0) as [rows c1].
  destruct (sparseRows h3 resolution _ 0) as [rows' c2].
  cbn [fst] in *. now subst.
Qed.

End FirstReached.

(** ** The halo rule *)

Lemma estimates_NoDup (h3 : H3) (m : Js.Map Q) :
  NoDup (Js.keys m) -> NoDup (Js.keys (estimatesOf h3 m)).
Proof.
  unfold estimatesOf.
  assert (Hturn : forall cell halo disk acc,
             NoDup (Js.keys acc) ->
             NoDup (Js.keys (fold_left (haloTurn cell halo) disk acc))).
  { intros cell halo. induction disk as [|nb disk IHd]; intros acc Hacc;
      [exact Hacc|].
    cbn [fold_left]. apply IHd. unfold haloTurn.
    destruct (String.eqb nb cell); [exact Hacc|]. now apply NoDup_keys_set. }
  assert (Hstep : forall todo acc,
             NoDup (Js.keys acc) ->
             NoDup (Js.keys (fold_left (haloStep h3) todo acc))).
  { induction todo as [|[cell count] rest IH]; intros acc Hacc; [exact Hacc|].
    cbn [fold_left]. apply IH. unfold haloStep.
    destruct (Js.leb _ 0); [exact Hacc|]. rewrite spreadHalo_fold.
    now apply Hturn. }
  apply Hstep.
Qed.

(** C8.  Every cell spreads 25 percent of its own count to each adjacent
    cell; the estimate of a cell is the maximum, not the sum, of its own
    count and the halos it receives, so it never exceeds the maximum of
    its own count and a quarter of the largest adjacent count; neither
    does the estimate of a cell the builder emits. *)
Theorem halo_rule (h3 : H3) (features : list PoiFeature)
  (resolution : H3Resolution) :
  (forall c count n,
      Js.get c (centerEstimatesOf h3 resolution features) = Some count ->
      In n (gridDisk h3 c 1) -> n <> c ->
      exists v,
        Js.get n (estimatesOf h3 (centerEstimatesOf h3 resolution features))
        = Some v
        /\ count * (25 # 100) <= v)
  /\ (forall n v,
         Js.get n (estimatesOf h3 (centerEstimatesOf h3 resolution features))
         = Some v ->
         v == Js.max (valueAt n (centerEstimatesOf h3 resolution features))
                ((25 # 100)
                 * largestAdjacentCount h3
                     (centerEstimatesOf h3 resolution features) n)
         /\ v <= Js.max (valueAt n (centerEstimatesOf h3 resolution features))
                   ((25 # 100)
                    * largestAdjacentCount h3
                        (centerEstimatesOf h3 resolution features) n))
  /\ (forall f,
         In f (fc (fst (buildSparseHexesFromPois h3 features resolution))) ->
         exists n e,
           p_cellId (f_properties f) = Some n
           /\ p_estimated (f_properties f) = Some e
           /\ e <= Js.max
                     (valueAt n (centerEstimatesOf h3 resolution features))
                     ((25 # 100)
                      * largestAdjacentCount h3
                          (centerEstimatesOf h3 resolution features) n)).
Proof.
  set (centre := centerEstimatesOf h3 resolution features).
  assert (Hval : forall n v,
             Js.get n (estimatesOf h3 centre) = Some v ->
             v == Js.max (valueAt n centre)
                    ((25 # 100) * largestAdjacentCount h3 centre n)).
  { intros n v Hget.
    rewrite <- (fold_haloStep_valueAt h3 centre centre n)
      by apply centerEstimates_valueAt_nonneg.
    unfold estimatesOf in Hget. unfold valueAt at 1. now rewrite Hget. }
  split; [|split].
  - intros c count n Hc Hn Hne.
    pose proof (centerEstimates_ge_one h3 resolution features c count Hc)
      as Hpos.
    destruct (Js.get n (estimatesOf h3 centre)) as [v|] eqn:E.
    + exists v. split; [reflexivity|]. rewrite (Hval n v E).
      assert (Hl : count <= largestAdjacentCount h3 centre n).
      { apply (largest_ge h3 centre c n count).
        - now apply get_Some_In.
        - now apply adjacentTo_true. }
      qmax_cases; qlra.
    + exfalso. revert E. unfold estimatesOf.
      apply (fold_haloStep_sets h3 centre centre c n count);
        [now apply get_Some_In|qlra|assumption|assumption].
  - intros n v Hget. specialize (Hval n v Hget). split; [exact Hval|].
    rewrite Hval. apply Qle_refl.
  - intros f Hf.
    destruct (build_cases h3 resolution features) as [[_ Hb]|[_ Hb]];
      rewrite Hb in Hf; [destruct Hf|].
    fold centre in Hf. unfold sparseMain in Hf.
    pose proof (sparseRows_In h3 resolution (estimatesOf h3 centre) 0) as Hrows.
    destruct (sparseRows h3 resolution (estimatesOf h3 centre) 0)
      as [rows capped].
    cbn [fst fc] in *. apply in_map_iff in Hf. destruct Hf as [r [<- Hr]].
    destruct (Hrows r Hr) as [raw [Hin [He _]]].
    exists (row_cell r), (row_estimate r).
    cbn [sparseFeature f_properties p_cellId p_estimated].
    split; [reflexivity|]. split; [reflexivity|].
    assert (Hget : Js.get (row_cell r) (estimatesOf h3 centre) = Some raw).
    { apply In_get; [|exact Hin].
      apply estimates_NoDup. apply centerEstimates_NoDup. }
    pose proof (Hval _ _ Hget) as Hraw.
    pose proof (centerEstimates_valueAt_nonneg h3 resolution features
                  (row_cell r)) as Hown.
    fold centre in Hown. rewrite He.
    set (own := valueAt (row_cell r) centre) in *.
    set (L := (25 # 100) * largestAdjacentCount h3 centre (row_cell r)) in *.
    clearbody own L. qmax_cases; qlra.
Qed.

(** ** Two runs with one returned value *)

Lemma fold_countCenter_fresh (h3 : H3) (resolution : H3Resolution)
  (features : list PoiFeature) (cells : list string) (m : Js.Map Q) :
  map (sparseHome h3 resolution) features = map Some cells ->
  NoDup (Js.keys m ++ cells) ->
  fold_left (countCenter h3 resolution) features m
  = m ++ map (fun cell => (cell, 0 + 1)) cells.
Proof.
  revert cells m. induction features as [|f rest IH]; intros cells m Hh Hnd.
  - destruct cells; [|discriminate]. cbn. now rewrite app_nil_r.
  - destruct cells as [|cell cells]; [discriminate|].
    cbn [map] in Hh. injection Hh as Hf Hrest.
    cbn [fold_left]. rewrite countCenter_home, Hf.
    assert (Hnone : Js.get cell m = None).
    { apply get_None_keys. intros Hin.
      apply NoDup_app_remove_r in Hnd as Hm.
      apply NoDup_remove_2 in Hnd. apply Hnd.
      apply in_or_app. now left. }
    rewrite Hnone. cbn [Js.nullish]. rewrite (set_fresh _ _ _ Hnone).
    rewrite (IH cells).
    + now rewrite <- app_assoc.
    + exact Hrest.
    + unfold Js.keys. rewrite map_app. cbn [map fst].
      rewrite <- app_assoc. exact Hnd.
Qed.

Lemma bareH3_home (resolution : H3Resolution) (lon : Q) (z : Z) :
  sparseHome bareH3 resolution (synagogueAt lon (inject_Z z / 10000))
  = Some (showZ z).
Proof.
  unfold sparseHome, synagogueAt, finiteLonLat.
  cbn [poi_kind poi_coordinates]. rewrite String.eqb_refl.
  cbn [bareH3 latLngToCell]. unfold Js.floor.
  rewrite (Qfloor_comp (inject_Z z / 10000 * 10000) (inject_Z z))
    by (field; discriminate).
  now rewrite Qfloor_Z.
Qed.

Lemma bareH3_estimates (m : Js.Map Q) : estimatesOf bareH3 m = m.
Proof.
  unfold estimatesOf.
  assert (H : forall todo acc : Js.Map Q,
             fold_left (haloStep bareH3) todo acc = acc).
  { induction todo as [|[cell count] rest IH]; intros acc; [reflexivity|].
    cbn [fold_left]. rewrite IH. unfold haloStep.
    destruct (Js.leb (count * (25 # 100)) 0); [reflexivity|].
    unfold spreadHalo. cbn [bareH3 gridDisk fold_left].
    now rewrite String.eqb_refl. }
  apply H.
Qed.

Lemma bareH3_rows (resolution : H3Resolution) (entries : list (string * Q))
  (processed : Z) :
  fst (sparseRows bareH3 resolution entries processed) = [].
Proof.
  revert processed. induction entries as [|[cell raw] rest IH];
    intros processed; [reflexivity|].
  cbn [sparseRows]. destruct (Z.leb _ processed); [reflexivity|].
  destruct (Js.leb _ 0); [apply IH|].
  cbn [bareH3 cellToBoundary List.length Nat.ltb Nat.leb]. apply IH.
Qed.

Lemma pointsOnMeridian_centers (resolution : H3Resolution) (n : nat) :
  centerEstimatesOf bareH3 resolution (pointsOnMeridian n)
  = map (fun cell => (cell, 0 + 1))
      (map (fun i => showZ (Z.of_nat i)) (seq 0 n)).
Proof.
  unfold centerEstimatesOf.
  rewrite (fold_countCenter_fresh bareH3 resolution _
             (map (fun i => showZ (Z.of_nat i)) (seq 0 n))).
  - reflexivity.
  - unfold pointsOnMeridian. rewrite !map_map. apply map_ext.
    intros i. apply bareH3_home.
  - cbn [Js.keys map app]. apply Injective_map_NoDup; [|apply seq_NoDup].
    intros i j H. apply showZ_inj in H. lia.
Qed.

Lemma over_cap_run (resolution : H3Resolution) (n : nat) :
  (MAX_SPARSE_HEX_CELLS < Z.of_nat n)%Z ->
  fst (buildSparseHexesFromPois bareH3 (pointsOnMeridian n) resolution)
  = {| fc := []; p95 := 1 |}
  /\ snd (buildSparseHexesFromPois bareH3 (pointsOnMeridian n) resolution)
     <> [].
Proof.
  intros Hn.
  assert (Hlen : List.length
                   (estimatesOf bareH3
                      (centerEstimatesOf bareH3 resolution (pointsOnMeridian n)))
                 = n).
  { rewrite bareH3_estimates, pointsOnMeridian_centers.
    now rewrite !length_map, length_seq. }
  split.
  - destruct (build_cases bareH3 resolution (pointsOnMeridian n))
      as [[Hc ->]|[Hc ->]]; [reflexivity|].
    unfold sparseMain.
    pose proof (bareH3_rows resolution
                  (estimatesOf bareH3
                     (centerEstimatesOf bareH3 resolution (pointsOnMeridian n)))
                  0) as Hrows.
    destruct (sparseRows bareH3 resolution _ 0) as [rows capped].
    cbn [fst] in *. subst rows. reflexivity.
  - apply (build_console bareH3 (pointsOnMeridian n) resolution).
    now rewrite Hlen.
Qed.

(** C5, amended.  The builder is a total function: for every input it
    returns.  It emits at most 120000 cells, those of the first 120000
    candidates; it writes the warning to the console exactly when more
    than 120000 candidate cells exist, and the warning carries the
    numbers of candidate and emitted cells.  No flag is part of the
    value returned, which holds the collection and the percentile
    only. *)
Theorem cap_safety (h3 : H3) (features : list PoiFeature)
  (resolution : H3Resolution) :
  (Z.of_nat
     (List.length (fc (fst (buildSparseHexesFromPois h3 features resolution))))
   <= MAX_SPARSE_HEX_CELLS)%Z
  /\ (snd (buildSparseHexesFromPois h3 features resolution) <> []
      <-> (MAX_SPARSE_HEX_CELLS
           < Z.of_nat
               (List.length
                  (estimatesOf h3
                     (centerEstimatesOf h3 resolution features))))%Z)
  /\ (snd (buildSparseHexesFromPois h3 features resolution) = []
      \/ snd (buildSparseHexesFromPois h3 features resolution)
         = [WarnMaxCellsReached resolution MAX_SPARSE_HEX_CELLS
              (Z.of_nat
                 (List.length
                    (estimatesOf h3
                       (centerEstimatesOf h3 resolution features))))
              (Z.of_nat
                 (List.length
                    (fc (fst (buildSparseHexesFromPois h3 features
                                resolution)))))])
  /\ fst (sparseMain h3 resolution
            (estimatesOf h3 (centerEstimatesOf h3 resolution features)))
     = fst (sparseMain h3 resolution
              (firstn (Z.to_nat MAX_SPARSE_HEX_CELLS)
                 (estimatesOf h3 (centerEstimatesOf h3 resolution features))))
  /\ MAX_SPARSE_HEX_CELLS = 120000%Z.
Proof.
  split; [apply build_length|].
  destruct (build_console h3 features resolution) as [H1 H2].
  split; [exact H1|]. split; [exact H2|]. split; [|reflexivity].
  apply sparseMain_firstn.
Qed.


(** C5 as stated fails: a run over the cap and a run on no point return
    the same value, and only the first writes the warning; no flag can
    be read off the value returned. *)
Lemma cap_flag_counterexample :
  (fst (buildSparseHexesFromPois bareH3 overCapPoints Res5)
   = fst (buildSparseHexesFromPois bareH3 [] Res5)
   /\ snd (buildSparseHexesFromPois bareH3 overCapPoints Res5) <> []
   /\ snd (buildSparseHexesFromPois bareH3 [] Res5) = [])
  /\ ~ (exists flag : SparseResult -> bool,
          forall h3 features resolution,
            flag (fst (buildSparseHexesFromPois h3 features resolution)) = true
            <-> snd (buildSparseHexesFromPois h3 features resolution) <> []).
Proof.
  assert (Hover : (MAX_SPARSE_HEX_CELLS < Z.of_nat (N.to_nat 120001))%Z)
    by (rewrite N_nat_Z; reflexivity).
  destruct (over_cap_run Res5 (N.to_nat 120001) Hover) as [Hv Hw].
  fold overCapPoints in Hv, Hw.
  split; [split; [exact Hv|split; [exact Hw|reflexivity]]|].
  intros [flag Hflag].
  pose proof (proj2 (Hflag bareH3 overCapPoints Res5) Hw) as Ht.
  rewrite Hv in Ht.
  apply (proj1 (Hflag bareH3 [] Res5)) in Ht. now apply Ht.
Qed.

(** ** The annotation cache *)

Section Cache.

Variable jsonFirstCoordinate : option Geometry -> string.
Variable poiFeatures : list (Position * PoiKind).
Variable poiVersion : string.

Local Abbreviation keyOf f :=
  (cacheKeyOf (hexCellId jsonFirstCoordinate f) poiVersion).
Local Abbreviation step :=
  (annotateHex jsonFirstCoordinate poiFeatures poiVersion).
Local Abbreviation run :=
  (annotateAll jsonFirstCoordinate poiFeatures poiVersion).

Lemma extends_refl (c : AnnotationCache) : extends c c.
Proof. now intros k e. Qed.

Lemma extends_trans (c c' c'' : AnnotationCache) :
  extends c c' -> extends c' c'' -> extends c c''.
Proof. intros H1 H2 k e H. now apply H2, H1. Qed.

Lemma step_hit (c : AnnotationCache) (f : HexFeature)
  (e : HexAnnotationCacheEntry) :
  Js.get (keyOf f) c = Some e ->
  step c f = (withAnnotation f (annotationOf poiFeatures (Some e) f), c).
Proof. intros H. unfold annotateHex. now rewrite H. Qed.

Lemma step_miss (c : AnnotationCache) (f : HexFeature) :
  Js.get (keyOf f) c = None ->
  exists e,
    step c f = (withAnnotation f (annotationOf poiFeatures (Some e) f),
                Js.set (keyOf f) e c)
    /\ annotationOf poiFeatures (Some e) f = annotationOf poiFeatures None f.
Proof.
  intros H. unfold annotateHex. rewrite H.
  destruct (annotationOf poiFeatures None f) as [[counts estimated] level] eqn:E.
  exists {| e_poiVersion := poiVersion; e_poiCounts := counts;
            e_estimated := estimated; e_greedLevel := Js.Finite level |}.
  split; reflexivity.
Qed.

(** After a feature is annotated its entry is in the cache, and it is
    the entry the output was read from. *)
Lemma step_entry (c c' : AnnotationCache) (f out : HexFeature) :
  step c f = (out, c') ->
  extends c c'
  /\ exists e,
       Js.get (keyOf f) c' = Some e
       /\ out = withAnnotation f (annotationOf poiFeatures (Some e) f).
Proof.
  intros H. destruct (Js.get (keyOf f) c) as [e|] eqn:E.
  - rewrite (step_hit c f e E) in H. injection H as <- <-.
    split; [apply extends_refl|]. now exists e.
  - destruct (step_miss c f E) as [e [Hs He]]. rewrite Hs in H.
    injection H as <- <-. split.
    + intros k e' Hk. destruct (String.eqb_spec (keyOf f) k) as [<-|Hne].
      * congruence.
      * now rewrite get_set_other.
    + exists e. split; [apply get_set_same|reflexivity].
Qed.

Lemma run_extends (fs : list HexFeature) (c c' : AnnotationCache)
  (outs : FeatureCollection) :
  run c fs = (outs, c') -> extends c c'.
Proof.
  revert c c' outs. induction fs as [|f rest IH]; intros c c' outs H.
  - injection H as _ <-. apply extends_refl.
  - cbn [annotateAll] in H.
    destruct (step c f) as [o c1] eqn:E1.
    destruct (run c1 rest) as [os c2] eqn:E2.
    injection H as _ <-.
    apply (extends_trans c c1 c2).
    + now apply (step_entry c c1 f o).
    + now apply (IH c1 c2 os).
Qed.

(** A second run over the cache the first one left reads every cell from
    the cache: same output, cache unchanged. *)
Lemma run_again (fs : list HexFeature) (c c' : AnnotationCache)
  (outs : FeatureCollection) :
  run c fs = (outs, c') ->
  forall c'', extends c' c'' -> run c'' fs = (outs, c'').
Proof.
  revert c c' outs. induction fs as [|f rest IH]; intros c c' outs H c'' Hext.
  - injection H as <- _. reflexivity.
  - cbn [annotateAll] in H |- *.
    destruct (step c f) as [o c1] eqn:E1.
    destruct (run c1 rest) as [os c2] eqn:E2.
    injection H as <- <-.
    destruct (step_entry c c1 f o E1) as [_ [e [He ->]]].
    pose proof (run_extends rest c1 c2 os E2) as H12.
    rewrite (step_hit c'' f e) by now apply Hext, H12.
    now rewrite (IH c1 c2 os E2 c'' Hext).
Qed.

Local Abbreviation agreeOn :=
  (agreeOn jsonFirstCoordinate poiVersion).

Lemma run_agree (fs : list HexFeature) (c d : AnnotationCache) :
  agreeOn fs c d -> fst (run c fs) = fst (run d fs).
Proof.
  assert (H : forall all rest c d,
             (forall f, In f rest -> In f all) ->
             agreeOn all c d -> fst (run c rest) = fst (run d rest)).
  { intros all rest. induction rest as [|f rest' IH]; intros c0 d0 Hsub Hag;
      [reflexivity|].
    cbn [annotateAll].
    assert (Hf : Js.get (keyOf f) c0 = Js.get (keyOf f) d0)
      by (apply Hag, Hsub; now left).
    assert (Hstep : fst (step c0 f) = fst (step d0 f)
                    /\ agreeOn all (snd (step c0 f)) (snd (step d0 f))).
    { destruct (Js.get (keyOf f) c0) as [e|] eqn:Ec.
      - rewrite (step_hit c0 f e Ec), (step_hit d0 f e) by now rewrite <- Hf.
        now split.
      - symmetry in Hf. unfold annotateHex. rewrite Ec, Hf.
        destruct (annotationOf poiFeatures None f) as [[counts est] lvl].
        cbn [fst snd]. split; [reflexivity|].
        intros g Hg. specialize (Hag g Hg).
        destruct (String.eqb_spec (keyOf f) (keyOf g)) as [Heq|Hne].
        + rewrite <- Heq, !get_set_same. reflexivity.
        + now rewrite !get_set_other. }
    destruct Hstep as [Ho Hag'].
    destruct (step c0 f) as [o1 c1]. destruct (step d0 f) as [o2 d1].
    cbn [fst snd] in *. subst o2.
    specialize (IH c1 d1 (fun g Hg => Hsub g (or_intror Hg)) Hag').
    destruct (run c1 rest') as [os1 c2]. destruct (run d1 rest') as [os2 d2].
    cbn [fst] in *. now subst. }
  apply (H fs fs c d); auto.
Qed.

(** The keys a run adds are keys of its own fingerprint and cells. *)
Lemma run_keys (fs : list HexFeature) (c c' : AnnotationCache)
  (outs : FeatureCollection) (k : string) (e : HexAnnotationCacheEntry) :
  run c fs = (outs, c') ->
  Js.get k c' = Some e ->
  Js.get k c = Some e \/ exists f, In f fs /\ k = keyOf f.
Proof.
  revert c c' outs. induction fs as [|f rest IH]; intros c c' outs H Hk.
  - injection H as _ <-. now left.
  - cbn [annotateAll] in H.
    destruct (step c f) as [o c1] eqn:E1.
    destruct (run c1 rest) as [os c2] eqn:E2.
    injection H as _ <-.
    destruct (IH c1 c2 os E2 Hk) as [H1|[g [Hg ->]]].
    + destruct (Js.get (keyOf f) c) as [e0|] eqn:E.
      * rewrite (step_hit c f e0 E) in E1. injection E1 as _ <-. now left.
      * destruct (step_miss c f E) as [e1 [Hs _]]. rewrite Hs in E1.
        injection E1 as _ <-.
        destruct (String.eqb_spec (keyOf f) k) as [<-|Hne].
        -- right. exists f. split; [now left|reflexivity].
        -- rewrite get_set_other in H1 by assumption. now left.
    + right. exists g. split; [now right|reflexivity].
Qed.

End Cache.




(** ** The scenario of ten points *)

Section Scenario.

Variables (h3 : H3) (lon lat : Q).

Local Abbreviation home := (latLngToCell h3 lat lon 5).

Lemma scenario_home :
  sparseHome h3 Res5 (synagogueAt lon lat) = Some home.
Proof.
  unfold sparseHome, synagogueAt, finiteLonLat.
  cbn [poi_kind poi_coordinates]. now rewrite String.eqb_refl.
Qed.

Lemma scenario_count_more (n : nat) (v : Q) :
  exists v',
    fold_left (countCenter h3 Res5) (repeat (synagogueAt lon lat) n)
      [(home, v)]
    = [(home, v')]
    /\ v' == v + inject_Z (Z.of_nat n).
Proof.
  revert v. induction n as [|n IH]; intros v.
  - exists v. split; [reflexivity|]. cbn. ring.
  - cbn [repeat fold_left]. rewrite countCenter_home, scenario_home.
    cbn [Js.get Js.set]. rewrite String.eqb_refl. cbn [Js.nullish].
    destruct (IH (v + 1)) as [v' [Hf Hv]]. exists v'. split; [exact Hf|].
    rewrite Hv, Nat2Z.inj_succ. unfold Z.succ. rewrite inject_Z_plus.
    change (inject_Z 1) with 1. ring.
Qed.

Lemma scenario_centers :
  exists v,
    centerEstimatesOf h3 Res5 (tenPoints lon lat) = [(home, v)] /\ v == 10.
Proof.
  unfold centerEstimatesOf, tenPoints.
  change 10%nat with (S 9). cbn [repeat fold_left].
  rewrite countCenter_home, scenario_home. cbn [Js.get Js.set Js.nullish].
  destruct (scenario_count_more 9 (0 + 1)) as [v [Hf Hv]].
  exists v. split; [exact Hf|]. rewrite Hv. reflexivity.
Qed.

Local Abbreviation haloShape := (haloShape h3 home).

Lemma haloTurn_shape (v halo : Q) (m : Js.Map Q) (nb : string) :
  0 <= halo -> In nb (gridDisk h3 home 1) ->
  haloShape v halo m -> haloShape v halo (haloTurn home halo m nb).
Proof.
  intros Hh Hnb [tail [-> Htail]]. unfold haloTurn.
  destruct (String.eqb_spec nb home) as [Heq|Hne]; [now exists tail|].
  cbn [Js.set]. destruct (String.eqb_spec nb home); [contradiction|].
  exists (Js.set nb (Js.max (valueAt nb ((home, v) :: tail)) halo) tail).
  split; [reflexivity|].
  rewrite Forall_forall in *. intros [k w] Hin.
  apply In_set in Hin. destruct Hin as [Heq|Hin]; [|now apply Htail].
  injection Heq as -> ->. cbn [fst snd]. split; [assumption|].
  split; [assumption|].
  unfold valueAt. cbn [Js.get].
  destruct (String.eqb_spec nb home); [contradiction|].
  destruct (Js.get nb tail) as [w|] eqn:E; cbn [Js.nullish].
  - apply get_Some_In in E. destruct (Htail _ E) as [_ [_ Hw]].
    cbn [snd] in Hw. qmax_cases; qlra.
  - qmax_cases; qlra.
Qed.

Lemma scenario_estimates (v : Q) :
  v == 10 -> haloShape v (v * (25 # 100)) (estimatesOf h3 [(home, v)]).
Proof.
  intros Hv. unfold estimatesOf. cbn [fold_left]. unfold haloStep.
  destruct (leb_spec (v * (25 # 100)) 0) as [Hle|Hgt]; [qlra|].
  rewrite spreadHalo_fold.
  assert (H : forall disk m,
             (forall nb, In nb disk -> In nb (gridDisk h3 home 1)) ->
             haloShape v (v * (25 # 100)) m ->
             haloShape v (v * (25 # 100))
               (fold_left (haloTurn home (v * (25 # 100))) disk m)).
  { induction disk as [|nb rest IH]; intros m Hsub Hm; [exact Hm|].
    cbn [fold_left]. apply IH.
    - intros x Hx. apply Hsub. now right.
    - apply haloTurn_shape; [qlra|apply Hsub; now left|exact Hm]. }
  apply H; [auto|]. exists []. split; [reflexivity|constructor].
Qed.

End Scenario.

Section Annotated.

Variable jsonFirstCoordinate : option Geometry -> string.
Variable poiFeatures : list (Position * PoiKind).
Variable poiVersion : string.

Lemma withAnnotation_sameCell (f : HexFeature) (a : PoiCounts * Q * Q) :
  sameCell f (withAnnotation f a).
Proof. destruct a as [[counts estimated] level]. now repeat split. Qed.

Lemma annotateHex_sameCell (c : AnnotationCache) (f : HexFeature) :
  sameCell f (fst (annotateHex jsonFirstCoordinate poiFeatures poiVersion c f)).
Proof. unfold annotateHex. cbn [fst]. apply withAnnotation_sameCell. Qed.

Lemma annotateAll_sameCell (fs : list HexFeature) (c : AnnotationCache) :
  Forall2 sameCell fs
    (fst (annotateAll jsonFirstCoordinate poiFeatures poiVersion c fs)).
Proof.
  revert c. induction fs as [|f rest IH]; intros c; [constructor|].
  cbn [annotateAll].
  pose proof (annotateHex_sameCell c f) as Hf.
  destruct (annotateHex jsonFirstCoordinate poiFeatures poiVersion c f)
    as [o c1].
  specialize (IH c1).
  destruct (annotateAll jsonFirstCoordinate poiFeatures poiVersion c1 rest)
    as [os c2].
  cbn [fst] in *. now constructor.
Qed.

End Annotated.

Lemma tenPoints_features (lon lat : Q) :
  poiFeaturesOf (tenPoints lon lat) = repeat ((lon, lat), synagogue) 10.
Proof. reflexivity. Qed.

Lemma countInside_ten (pt : Position) (boundary : Ring) :
  boundary <> [] ->
  pointInRing pt boundary = true ->
  countInside (Some (Polygon [boundary])) (repeat (pt, synagogue) 10)
  = tenSynagogues.
Proof.
  intros Hne Hin.
  assert (Hp : pointInGeoJsonPolygon pt (Some (Polygon [boundary])) = true).
  { cbn [pointInGeoJsonPolygon hd_error Js.nullish tl].
    destruct boundary as [|v0 tl0]; [contradiction|]. now rewrite Hin. }
  unfold countInside. cbn [repeat fold_left fst snd]. rewrite Hp. reflexivity.
Qed.

(** C1, amended.  Ten points of kind synagogue at one position, built at
    resolution 5 and annotated over an empty cache, give the home cell
    first, with raw count 10, tier notable, ten points counted, weighted
    estimate 2500 and level 100, followed by halo cells only: each is
    adjacent to the home cell, with estimate 2.5 and tier low.  The home
    cell is taken to have a boundary of at least four vertices that
    contains the position. *)
Theorem ten_points_scenario (h3 : H3)
  (jsonFirstCoordinate : option Geometry -> string) (lon lat : Q)
  (poiVersion : string) :
  (4 <= List.length (cellToBoundary h3 (latLngToCell h3 lat lon 5) true))%nat ->
  pointInRing (lon, lat) (cellToBoundary h3 (latLngToCell h3 lat lon 5) true)
  = true ->
  exists homeCell haloCells,
    fst (annotateHexesWithPois jsonFirstCoordinate
           (fc (fst (buildSparseHexesFromPois h3 (tenPoints lon lat) Res5)))
           (tenPoints lon lat) poiVersion [])
    = homeCell :: haloCells
    /\ isHomeCell (latLngToCell h3 lat lon 5) homeCell
    /\ Forall (isHaloCell h3 (latLngToCell h3 lat lon 5)) haloCells.
Proof.
  intros Hb Hin.
  destruct (scenario_centers h3 lon lat) as [v [Hc Hv]].
  destruct (build_cases h3 Res5 (tenPoints lon lat)) as [[Hnil _]|[_ ->]];
    [congruence|].
  rewrite Hc.
  destruct (scenario_estimates h3 lon lat v Hv) as [tail [-> Htail]].
  unfold sparseMain.
  destruct (sparseRows_first h3 Res5 (latLngToCell h3 lat lon 5) v tail) as [row [Hrows Hrow]];
    [qlra|qlra|exact Hb|].
  pose proof (sparseRows_In h3 Res5 tail 1) as Hrest.
  destruct (sparseRows h3 Res5 (((latLngToCell h3 lat lon 5), v) :: tail) 0) as [rows capped].
  cbn [fst] in Hrows. subst rows.
  set (rest := fst (sparseRows h3 Res5 tail 1)) in *.
  cbn [fst fc map].
  set (p := if Js.leb _ 0 then 1 else _).
  unfold annotateHexesWithPois. rewrite tenPoints_features.
  cbn [annotateAll].
  pose proof (annotateAll_sameCell jsonFirstCoordinate
                (repeat ((lon, lat), synagogue) 10) poiVersion
                (map (sparseFeature Res5 p) rest)) as Hsame.
  destruct Hrow as [Hcell [Hbd [Hest Htier]]].
  unfold annotateHex at 1. cbn [Js.get].
  unfold annotationOf.
  cbn [sparseFeature f_properties p_resolution f_geometry Js.nullish resNumber].
  assert (Hcount : countInside (Some (Polygon [row_boundary row]))
                     (repeat ((lon, lat), synagogue) 10) = tenSynagogues).
  { rewrite Hbd. apply countInside_ten; [|exact Hin].
    destruct (cellToBoundary h3 (latLngToCell h3 lat lon 5) true);
      [cbn in Hb; lia|discriminate]. }
  rewrite !Hcount.
  change (getEstimatedFromPoiCounts tenSynagogues) with (2500 : Q).
  change (greedLevelFromEstimated 2500 5) with (100 : Q).
  match goal with
  | |- context [annotateAll ?j ?pf ?ver ?c ?fs] =>
      specialize (Hsame c); destruct (annotateAll j pf ver c fs) as [os c2]
  end.
  cbn [fst] in *.
  eexists. exists os. split; [reflexivity|]. split.
  - unfold isHomeCell.
    cbn [withAnnotation f_properties p_cellId p_estimateSmoothed p_tier
           p_poiCounts p_estimated p_greedLevel sparseFeature].
    rewrite Hcell, Htier. split; [reflexivity|].
    split; [exists (row_estimate row); split; [reflexivity|qlra]|].
    split; [now rewrite (tierForEstimate_comp v 10 Hv)|].
    repeat split.
  - clear - Hsame Hrest Htail Hv.
    remember (map (sparseFeature Res5 p) rest) as feats eqn:Ef.
    assert (Hfeat : Forall (fun f => exists r, In r rest
                                      /\ f = sparseFeature Res5 p r) feats).
    { subst feats. apply Forall_forall. intros f Hf.
      apply in_map_iff in Hf. destruct Hf as [r [<- Hr]]. now exists r. }
    clear Ef. induction Hsame as [|f o fs os' Hfo Hsame IH]; [constructor|].
    inversion Hfeat as [|? ? [r [Hr ->]] Hfeat']; subst.
    constructor; [|now apply IH].
    destruct (Hrest r Hr) as [raw [Hraw [He Ht]]].
    rewrite Forall_forall in Htail.
    destruct (Htail _ Hraw) as [Hne [Hdisk Hval]]. cbn [fst snd] in *.
    destruct Hfo as [Hid [Hsm Htr]].
    exists (row_cell r), (row_estimate r).
    rewrite Hid, Hsm, Htr. cbn [sparseFeature f_properties p_cellId
                                  p_estimateSmoothed p_tier].
    assert (Hq : row_estimate r == 25 # 10).
    { rewrite He. qmax_cases; qlra. }
    repeat split; try assumption.
    rewrite Ht, (tierForEstimate_comp _ _ Hq). reflexivity.
Qed.

Lemma ten_points_scenario_witness :
  (4 <= List.length
          (cellToBoundary gridH3 (latLngToCell gridH3 (1 # 2) (1 # 2) 5) true))%nat
  /\ pointInRing (1 # 2, 1 # 2)
       (cellToBoundary gridH3 (latLngToCell gridH3 (1 # 2) (1 # 2) 5) true)
     = true
  /\ exists homeCell haloCells,
      fst (annotateHexesWithPois noJson
             (fc (fst (buildSparseHexesFromPois gridH3
                         (tenPoints (1 # 2) (1 # 2)) Res5)))
             (tenPoints (1 # 2) (1 # 2)) "v" [])
      = homeCell :: haloCells
      /\ isHomeCell (latLngToCell gridH3 (1 # 2) (1 # 2) 5) homeCell
      /\ Forall (isHaloCell gridH3 (latLngToCell gridH3 (1 # 2) (1 # 2) 5))
           haloCells.
Proof.
  assert (H1 : (4 <= List.length
                  (cellToBoundary gridH3
                     (latLngToCell gridH3 (1 # 2) (1 # 2) 5) true))%nat)
    by (vm_compute; lia).
  assert (H2 : pointInRing (1 # 2, 1 # 2)
                 (cellToBoundary gridH3
                    (latLngToCell gridH3 (1 # 2) (1 # 2) 5) true) = true)
    by (vm_compute; reflexivity).
  split; [exact H1|]. split; [exact H2|].
  exact (ten_points_scenario gridH3 noJson (1 # 2) (1 # 2) "v" H1 H2).
Defined.

(** C1 as stated fails: on the lattice the scenario gives seven cells,
    the home cell and six halo cells, and the tier of the home cell,
    read from its raw count 10, is notable. *)
Lemma ten_points_counterexample :
  map (fun f => (p_cellId (f_properties f),
                 p_estimateSmoothed (f_properties f),
                 p_tier (f_properties f),
                 p_poiCounts (f_properties f),
                 p_estimated (f_properties f),
                 p_greedLevel (f_properties f)))
    (fst (annotateHexesWithPois noJson
            (fc (fst (buildSparseHexesFromPois gridH3
                        (tenPoints (1 # 2) (1 # 2)) Res5)))
            (tenPoints (1 # 2) (1 # 2)) "v" []))
  = [(Some "0"%string, Some 10, Some notable,
      Some tenSynagogues, Some 2500, Some 100);
     (Some "1"%string, Some (250 # 100), Some low,
      Some createEmptyPoiCounts, Some 0, Some 0);
     (Some "-1"%string, Some (250 # 100), Some low,
      Some createEmptyPoiCounts, Some 0, Some 0);
     (Some "1000"%string, Some (250 # 100), Some low,
      Some createEmptyPoiCounts, Some 0, Some 0);
     (Some "-1000"%string, Some (250 # 100), Some low,
      Some createEmptyPoiCounts, Some 0, Some 0);
     (Some "999"%string, Some (250 # 100), Some low,
      Some createEmptyPoiCounts, Some 0, Some 0);
     (Some "-999"%string, Some (250 # 100), Some low,
      Some createEmptyPoiCounts, Some 0, Some 0)].
Proof. vm_compute. reflexivity. Qed.

(** * Further properties

    Properties of the code around the functions above: the state of
    the component, the loader, the click handler, the fingerprint, the
    guard on fetch and the projections. *)

(** ** The resolution state over a sequence of events *)

Lemma H3Resolution_eqb_eq (a b : H3Resolution) :
  H3Resolution_eqb a b = true <-> a = b.
Proof. destruct a, b; cbv; split; congruence. Qed.

Lemma updateHexResolution_step (prev : H3Resolution) (z : Q) :
  updateHexResolution prev z = getHexResWithHysteresis z prev.
Proof.
  unfold updateHexResolution.
  destruct (H3Resolution_eqb prev (getHexResWithHysteresis z prev)) eqn:E;
    [apply H3Resolution_eqb_eq in E; exact E | reflexivity].
Qed.

Ltac zoom_cases :=
  unfold initialRes, getHexRes, getHexResWithHysteresis, zoomBand,
    CITY_ENTER_Z, CITY_EXIT_Z, TOWN_ENTER_Z, TOWN_EXIT_Z in *;
  js_cases; try reflexivity; try discriminate; try qlra.

(** X1.  The resolution the component starts with is the one the
    stateless rule [getHexRes] gives for the initial zoom: the
    hysteresis step leaves it unchanged. *)
Theorem initial_resolution_stateless (zoom : Q) :
  initialRes zoom = getHexRes zoom.
Proof. zoom_cases. Qed.

Lemma step_same_band (z z' : Q) (prev : H3Resolution) :
  zoomBand z' = zoomBand z ->
  getHexResWithHysteresis z' (getHexResWithHysteresis z prev)
  = getHexResWithHysteresis z prev.
Proof.
  intros H. destruct prev; revert H; zoom_cases.
Qed.

Lemma afterZooms_same_band (z : Q) (zs : list Q) (r : H3Resolution) :
  (forall z', In z' zs -> zoomBand z' = zoomBand z) ->
  afterZooms (getHexResWithHysteresis z r) zs = getHexResWithHysteresis z r.
Proof.
  unfold afterZooms. induction zs as [|z' zs IH]; intros H; [reflexivity|].
  cbn [fold_left]. rewrite updateHexResolution_step.
  rewrite step_same_band by (apply H; left; reflexivity).
  apply IH. intros z'' Hin. apply H. right. exact Hin.
Qed.

(** X2.  No flapping: over a sequence of viewport events whose zooms
    all lie between the same two consecutive thresholds (below 5,
    [5, 6), [6, 7), [7, 8), 8 and above), the resolution changes at the
    first event at most and then stays. *)
Theorem hysteresis_settles (init : H3Resolution) (z : Q) (zs : list Q) :
  (forall z', In z' zs -> zoomBand z' = zoomBand z) ->
  afterZooms init (z :: zs) = getHexResWithHysteresis z init.
Proof.
  intros H. unfold afterZooms. cbn [fold_left].
  rewrite updateHexResolution_step.
  exact (afterZooms_same_band z zs init H).
Qed.

Lemma hysteresis_settles_witness :
  afterZooms Res5 [75 # 10; 72 # 10; 79 # 10; 7] = Res6.
Proof.
  apply (hysteresis_settles Res5 (75 # 10) [72 # 10; 79 # 10; 7]).
  intros z' [H|[H|[H|[]]]]; subst z'; reflexivity.
Defined.

(** X3.  Zooming in never lowers the resolution: from any previous
    resolution, a larger zoom gives a resolution at least as fine. *)
Theorem hysteresis_monotone_in_zoom (prev : H3Resolution) (z z' : Q) :
  z <= z' ->
  (resNumber (getHexResWithHysteresis z prev)
   <= resNumber (getHexResWithHysteresis z' prev))%Z.
Proof.
  intros H. destruct prev; zoom_cases; cbn; lia.
Qed.

Lemma hysteresis_monotone_in_zoom_witness :
  (resNumber (getHexResWithHysteresis (55 # 10) Res8)
   <= resNumber (getHexResWithHysteresis (65 # 10) Res8))%Z.
Proof.
  apply (hysteresis_monotone_in_zoom Res8 (55 # 10) (65 # 10)).
  unfold Qle; cbn; lia.
Defined.

(** X4.  A step of the state machine keeps the previous resolution or
    moves to the resolution of the stateless rule, never to a third
    one; it differs from the stateless rule only inside a hysteresis
    band, [7, 8) coming from resolution 8 and [5, 6) coming from
    resolution 6. *)
Theorem hysteresis_tracks_stateless (prev : H3Resolution) (z : Q) :
  let next := getHexResWithHysteresis z prev in
  (next = prev \/ next = getHexRes z)
  /\ (next <> getHexRes z ->
      (prev = Res8 /\ 7 <= z /\ z < 8) \/ (prev = Res6 /\ 5 <= z /\ z < 6)).
Proof.
  cbv zeta. split.
  - destruct prev; zoom_cases; auto.
  - destruct prev; zoom_cases; intros Hne; try (exfalso; apply Hne; reflexivity);
      try (left; repeat split; qlra); try (right; repeat split; qlra).
Qed.

(** ** Levels, bins and tiers *)

Lemma level_integer (e : Q) (res : Z) :
  exists n : Z,
    (0 <= n <= 100)%Z /\ greedLevelFromEstimated e res == inject_Z n.
Proof.
  unfold greedLevelFromEstimated. cbv zeta.
  set (v := Js.round _).
  destruct (clamp_cases (inject_Z v) 0 100) as [[H E]|[[H E]|[[H1 H2] E]]];
    [unfold Qle; cbn; lia| | |].
  - exists 0%Z. split; [lia|exact E].
  - exists 100%Z. split; [lia|exact E].
  - exists v. split; [|exact E].
    change 0 with (inject_Z 0) in H1. change 100 with (inject_Z 100) in H2.
    rewrite <- Zle_Qle in H1, H2. lia.
Qed.

Lemma greedMax_pos (res : Z) : 0 < Js.nullish (GREED_MAX_BY_RES res) 1000.
Proof.
  unfold GREED_MAX_BY_RES.
  destruct res as [|p|p]; try reflexivity.
  do 4 (destruct p; try reflexivity).
Qed.

Lemma clamp_mono (a b lo hi : Q) : a <= b -> clamp a lo hi <= clamp b lo hi.
Proof. intros H. unfold clamp. qmax_cases; qlra. Qed.

Lemma level_mono (e e' : Q) (res : Z) :
  e <= e' -> greedLevelFromEstimated e res <= greedLevelFromEstimated e' res.
Proof.
  intros H. unfold greedLevelFromEstimated. cbv zeta.
  pose proof (greedMax_pos res) as Hm.
  set (m := Js.nullish _ _) in *. clearbody m.
  apply clamp_mono. rewrite <- Zle_Qle. apply round_mono.
  apply Qmult_le_compat_r; [|qlra].
  apply Qmult_le_compat_r; [|apply Qlt_le_weak, Qinv_lt_0_compat; exact Hm].
  qmax_cases; qlra.
Qed.

Lemma geb_comp (a a' b b' : Q) : a == a' -> b == b' -> Js.geb a b = Js.geb a' b'.
Proof.
  intros Ha Hb. unfold Js.geb, Js.leb.
  destruct (Qle_bool b a) eqn:E, (Qle_bool b' a') eqn:E'; try reflexivity.
  - apply Qle_bool_iff in E. rewrite Ha, Hb in E. apply Qle_bool_iff in E. congruence.
  - apply Qle_bool_iff in E'. rewrite <- Ha, <- Hb in E'. apply Qle_bool_iff in E'. congruence.
Qed.

Lemma greedBinForLevel_comp (l l' : Q) :
  l == l' -> greedBinForLevel l = greedBinForLevel l'.
Proof.
  intros H. unfold greedBinForLevel. cbn.
  repeat rewrite (geb_comp l l' _ _ H (Qeq_refl _)). reflexivity.
Qed.

Lemma greedBinForLevel_integer (n : Z) :
  (0 <= n <= 100)%Z ->
  exists bin,
    greedBinForLevel (inject_Z n) = Some bin
    /\ bin_min bin <= inject_Z n <= bin_max bin.
Proof.
  intros Hn. unfold greedBinForLevel. cbn.
  js_cases; eexists; (split; [reflexivity|]); cbn;
    repeat match goal with
      | H : _ <= inject_Z _ |- _ => unfold Qle in H; cbn in H
      | H : ~ _ <= inject_Z _ |- _ => unfold Qle in H; cbn in H
      end; unfold Qle; cbn; lia.
Qed.

(** X5.  The bin shown for a cell contains the cell's level: for every
    estimate and resolution number, [greedBinForLevel] applied to the
    level [greedLevelFromEstimated] computes returns a bin whose bounds
    enclose that level. *)
Theorem level_bin_contains (e : Q) (res : Z) :
  exists bin,
    greedBinForLevel (greedLevelFromEstimated e res) = Some bin
    /\ In bin HEX_LEVEL_BINS
    /\ bin_min bin <= greedLevelFromEstimated e res <= bin_max bin.
Proof.
  destruct (level_integer e res) as [n [Hn E]].
  destruct (greedBinForLevel_integer n Hn) as [bin [Hb [Hlo Hhi]]].
  exists bin. rewrite (greedBinForLevel_comp _ _ E). split; [exact Hb|].
  split.
  - revert Hb. unfold greedBinForLevel. cbn.
    js_cases; intros Hb; injection Hb as <-; cbn; auto 10.
  - rewrite E. split; assumption.
Qed.

(** X6.  Scoring is monotone: a larger estimate never gets a lower
    tier, and never a lower level at any resolution number (those
    outside the table use 1000). *)
Theorem scoring_monotone (a b : Q) (res : Z) :
  a <= b ->
  (TIER_ORDER (tierForEstimate a) <= TIER_ORDER (tierForEstimate b))%Z
  /\ greedLevelFromEstimated a res <= greedLevelFromEstimated b res.
Proof.
  intros H. split; [|exact (level_mono a b res H)].
  unfold tierForEstimate. js_cases; cbn; try lia; exfalso; qlra.
Qed.

Lemma scoring_monotone_witness :
  (TIER_ORDER (tierForEstimate (25 # 10)) <= TIER_ORDER (tierForEstimate 10))%Z
  /\ greedLevelFromEstimated (25 # 10) 6 <= greedLevelFromEstimated 10 6.
Proof.
  apply (scoring_monotone (25 # 10) 10 6). unfold Qle; cbn; lia.
Defined.

(** The two tier functions agree: [tierForCount] of mockData.ts on an
    integer count is [tierForEstimate] of MapShell.tsx on the same
    number. *)
Lemma tier_functions_agree (count : Z) :
  tierForCount count = tierForEstimate (inject_Z count).
Proof.
  unfold tierForCount, tierForEstimate.
  js_cases;
    repeat match goal with
      | H : _ <= inject_Z _ |- _ => unfold Qle in H; cbn in H
      | H : ~ _ <= inject_Z _ |- _ => unfold Qle in H; cbn in H
      end;
    repeat match goal with
      | |- context [(?a <=? ?b)%Z] => destruct (Z.leb_spec a b)
      end; try reflexivity; lia.
Qed.

(** ** Counting the points inside a cell *)

Lemma countOf_addOne (counts : PoiCounts) (k k' : PoiKind) :
  countOf (addOne counts k) k'
  = (countOf counts k' + if PoiKind_eqb k k' then 1 else 0)%Z.
Proof. destruct k, k'; cbn; lia. Qed.

Lemma countInside_fold (geom : option Geometry)
  (pois : list (Position * PoiKind)) (acc : PoiCounts) (k : PoiKind) :
  countOf
    (fold_left
       (fun counts poi =>
          if pointInGeoJsonPolygon (fst poi) geom
          then addOne counts (snd poi) else counts)
       pois acc) k
  = (countOf acc k + countKind k (pointsInside geom pois))%Z.
Proof.
  revert acc. induction pois as [|p pois IH]; intros acc.
  - cbn. lia.
  - cbn [fold_left]. rewrite IH. unfold countKind, pointsInside.
    cbn [filter].
    destruct (pointInGeoJsonPolygon (fst p) geom).
    + rewrite countOf_addOne. cbn [filter].
      destruct (PoiKind_eqb (snd p) k); cbn [List.length]; lia.
    + reflexivity.
Qed.

Lemma pointsInside_none (pois : list (Position * PoiKind)) :
  pointsInside None pois = [].
Proof. induction pois as [|p pois IH]; [reflexivity|exact IH]. Qed.

Lemma countInside_countKind (geom : option Geometry)
  (pois : list (Position * PoiKind)) (k : PoiKind) :
  countOf (countInside geom pois) k = countKind k (pointsInside geom pois).
Proof.
  unfold countInside. destruct geom as [g|].
  - rewrite countInside_fold. destruct k; reflexivity.
  - rewrite pointsInside_none. destruct k; reflexivity.
Qed.

(** X7.  Annotation counts every point once, under its own kind: the
    count a cell gets for a kind is the number of points of that kind
    inside the cell's geometry, and the six counts add up to the number
    of points inside. *)
Theorem countInside_counts (geom : option Geometry)
  (pois : list (Position * PoiKind)) :
  (forall kind,
      countOf (countInside geom pois) kind
      = countKind kind (pointsInside geom pois))
  /\ sumZ (map (countOf (countInside geom pois)) ALL_POI_KINDS)
     = Z.of_nat (List.length (pointsInside geom pois)).
Proof.
  split; [intros k; apply countInside_countKind|].
  unfold ALL_POI_KINDS. cbn [map sumZ fold_right].
  repeat rewrite countInside_countKind.
  generalize (pointsInside geom pois). intros l. unfold countKind.
  induction l as [|p l IH]; [reflexivity|].
  cbn [filter List.length]. destruct p as [pt []]; cbn [snd PoiKind_eqb List.length]; lia.
Qed.

Lemma countKind_nonneg (k : PoiKind) (l : list (Position * PoiKind)) :
  (0 <= countKind k l)%Z.
Proof. unfold countKind. lia. Qed.

(** The weighted sum the estimate rounds. *)
Lemma estimate_total (counts : PoiCounts) :
  fold_left
    (fun total kind =>
       total + inject_Z (countOf counts kind) * POI_ESTIMATE_WEIGHT kind)
    ALL_POI_KINDS 0
  == inject_Z
       (250 * n_synagogue counts + 150 * n_jcc counts + 40 * n_kosher counts
        + 80 * n_mikveh counts + 200 * n_jewish_school counts
        + 300 * n_jewish_camp counts).
Proof.
  cbn [fold_left ALL_POI_KINDS countOf POI_ESTIMATE_WEIGHT].
  repeat rewrite inject_Z_plus. repeat rewrite inject_Z_mult.
  change (inject_Z 250) with 250. change (inject_Z 150) with 150.
  change (inject_Z 40) with 40. change (inject_Z 80) with 80.
  change (inject_Z 200) with 200. change (inject_Z 300) with 300.
  ring.
Qed.

Lemma estimate_nonneg_counts (counts : PoiCounts) :
  (forall k, 0 <= countOf counts k)%Z ->
  getEstimatedFromPoiCounts counts
  == inject_Z
       (250 * n_synagogue counts + 150 * n_jcc counts + 40 * n_kosher counts
        + 80 * n_mikveh counts + 200 * n_jewish_school counts
        + 300 * n_jewish_camp counts).
Proof.
  intros H. unfold getEstimatedFromPoiCounts. cbv zeta.
  rewrite (round_comp _ _ (estimate_total counts)), round_inject.
  pose proof (H synagogue). pose proof (H jcc). pose proof (H kosher).
  pose proof (H mikveh). pose proof (H jewish_school). pose proof (H jewish_camp).
  cbn [countOf] in *.
  match goal with |- context [(0 <? ?n)%Z] => destruct (Z.ltb_spec 0 n) as [Hn|Hn] end.
  - reflexivity.
  - match type of Hn with (?n <= 0)%Z => assert (E : n = 0%Z) by lia end.
    rewrite E. reflexivity.
Qed.

Lemma totalWeight_kinds (l : list (Position * PoiKind)) :
  totalWeight l
  == inject_Z
       (250 * countKind synagogue l + 150 * countKind jcc l
        + 40 * countKind kosher l + 80 * countKind mikveh l
        + 200 * countKind jewish_school l + 300 * countKind jewish_camp l).
Proof.
  induction l as [|p l IH]; [reflexivity|].
  unfold totalWeight in *. cbn [fold_right]. rewrite IH.
  unfold countKind. cbn [filter].
  destruct p as [pt []]; cbn [snd PoiKind_eqb POI_ESTIMATE_WEIGHT List.length];
    match goal with
    | |- ?w + inject_Z ?a == inject_Z ?b =>
        change w with (inject_Z (Qnum w)); rewrite <- inject_Z_plus
    end;
    match goal with
    | |- inject_Z ?a == inject_Z ?b =>
        replace a with b by (cbn [Qnum]; lia); reflexivity
    end.
Qed.

Lemma estimate_sum_weights (geom : option Geometry)
  (pois : list (Position * PoiKind)) :
  getEstimatedFromPoiCounts (countInside geom pois)
  == totalWeight (pointsInside geom pois).
Proof.
  rewrite estimate_nonneg_counts.
  - rewrite totalWeight_kinds.
    change (n_synagogue (countInside geom pois))
      with (countOf (countInside geom pois) synagogue).
    change (n_jcc (countInside geom pois))
      with (countOf (countInside geom pois) jcc).
    change (n_kosher (countInside geom pois))
      with (countOf (countInside geom pois) kosher).
    change (n_mikveh (countInside geom pois))
      with (countOf (countInside geom pois) mikveh).
    change (n_jewish_school (countInside geom pois))
      with (countOf (countInside geom pois) jewish_school).
    change (n_jewish_camp (countInside geom pois))
      with (countOf (countInside geom pois) jewish_camp).
    repeat rewrite countInside_countKind. reflexivity.
  - intros k. rewrite countInside_countKind. apply countKind_nonneg.
Qed.

(** X8.  The estimate of a cell is the sum of the weights of the
    points inside it: rounding and the guard against non-positive
    totals change nothing on the counts the annotation produces. *)
Theorem estimate_is_sum_of_weights (geom : option Geometry)
  (pois : list (Position * PoiKind)) :
  getEstimatedFromPoiCounts (countInside geom pois)
  == totalWeight (pointsInside geom pois).
Proof. exact (estimate_sum_weights geom pois). Qed.

(** ** The cells the sparse builder emits *)

Lemma positiveArea_pos (f : option (string -> Js.num)) (cell : string) (v : Q) :
  positiveArea f cell = Some v -> 0 < v.
Proof.
  unfold positiveArea. destruct f as [area|]; [|discriminate].
  destruct (area cell) as [w|]; [|discriminate].
  destruct (gtb_spec w 0); [|discriminate]. intros E. injection E as <-.
  assumption.
Qed.

Lemma getCellAreaKm2_pos (h3 : H3) (cell : string) (resolution : H3Resolution) :
  0 < getCellAreaKm2 h3 cell resolution.
Proof.
  unfold getCellAreaKm2.
  destruct (positiveArea (cellArea h3) cell) eqn:E1;
    [exact (positiveArea_pos _ _ _ E1)|].
  destruct (positiveArea (cellAreaKm2 h3) cell) eqn:E2;
    [exact (positiveArea_pos _ _ _ E2)|].
  destruct (positiveArea (cellAreaM2 h3) cell) eqn:E3.
  - pose proof (positiveArea_pos _ _ _ E3) as H.
    unfold Qdiv. apply Qmult_lt_0_compat; [exact H|reflexivity].
  - destruct resolution; reflexivity.
Qed.

Lemma div_pos (a b : Q) : 0 < a -> 0 < b -> 0 < a / b.
Proof.
  intros Ha Hb. unfold Qdiv.
  apply Qmult_lt_0_compat; [exact Ha|apply Qinv_lt_0_compat; exact Hb].
Qed.

Section EmittedRows.

Variables (h3 : H3) (resolution : H3Resolution).

Lemma sparseRows_shape (entries : list (string * Q)) (processed : Z)
  (r : SparseRow) :
  In r (fst (sparseRows h3 resolution entries processed)) -> rowShape h3 resolution r.
Proof.
  revert processed. induction entries as [|[cell raw] rest IH];
    intros processed; [intros []|].
  cbn [sparseRows].
  destruct (Z.leb MAX_SPARSE_HEX_CELLS processed); [intros []|].
  destruct (leb_spec (Js.max 0 (Js.min 10000 raw)) 0) as [Hle|Hgt];
    [apply IH|].
  destruct (Nat.ltb_spec (List.length (cellToBoundary h3 cell true)) 4)
    as [Hb|Hb]; [apply IH|].
  specialize (IH (processed + 1)%Z).
  destruct (sparseRows h3 resolution rest (processed + 1)) as [rows capped].
  cbn [fst] in *. intros [<-|Hin]; [|exact (IH Hin)].
  pose proof (getCellAreaKm2_pos h3 cell resolution) as Harea.
  assert (Hest : 0 < Js.max 0 (Js.min 10000 raw)) by qlra.
  assert (Hmax : Js.max 0 (Js.min 10000 raw) <= 10000) by (qmax_cases; qlra).
  pose proof (div_pos _ _ Hest Harea) as Hd.
  unfold rowShape.
  cbn [row_estimate row_boundary row_areaKm2 row_density row_tier row_cell].
  destruct (gtb_spec (Js.max 0 (Js.min 10000 raw)) 0) as [_|Hn]; [|qlra].
  destruct (gtb_spec (getCellAreaKm2 h3 cell resolution) 0) as [_|Hn]; [|qlra].
  cbn [andb].
  destruct (gtb_spec
              (Js.max 0 (Js.min 10000 raw) / getCellAreaKm2 h3 cell resolution)
              0) as [_|Hn]; [|qlra].
  repeat split; try assumption; reflexivity.
Qed.

Lemma sparseRows_cells_NoDup (entries : list (string * Q)) (processed : Z) :
  NoDup (Js.keys entries) ->
  NoDup (map row_cell (fst (sparseRows h3 resolution entries processed))).
Proof.
  unfold Js.keys. revert processed.
  induction entries as [|[cell raw] rest IH]; intros processed Hnd;
    [constructor|].
  cbn [map fst] in Hnd. inversion Hnd as [|? ? Hnot Hrest]; subst.
  cbn [sparseRows].
  destruct (Z.leb MAX_SPARSE_HEX_CELLS processed); [constructor|].
  destruct (Js.leb _ 0); [now apply IH|].
  destruct (Nat.ltb _ 4); [now apply IH|].
  specialize (IH (processed + 1)%Z Hrest).
  pose proof (fun r => sparseRows_In h3 resolution rest (processed + 1)%Z r) as Hin.
  destruct (sparseRows h3 resolution rest (processed + 1)) as [rows capped].
  cbn [fst map row_cell] in *. constructor; [|exact IH].
  intros Hc. apply in_map_iff in Hc. destruct Hc as [r [Hcell Hr]].
  destruct (Hin r Hr) as [raw' [Hentry _]]. apply Hnot.
  rewrite <- Hcell. apply in_map_iff. exists (row_cell r, raw'). split; auto.
Qed.

End EmittedRows.

(** ** The percentile *)

Lemma insertAsc_In (v x : Q) (l : list Q) :
  In x (insertAsc v l) <-> x = v \/ In x l.
Proof.
  induction l as [|w l IH]; cbn [insertAsc].
  - cbn. intuition.
  - destruct (Js.leb v w); cbn [In]; [intuition|]. rewrite IH. intuition.
Qed.

Lemma insertAsc_length (v : Q) (l : list Q) :
  List.length (insertAsc v l) = S (List.length l).
Proof.
  induction l as [|w l IH]; cbn [insertAsc]; [reflexivity|].
  destruct (Js.leb v w); cbn [List.length]; [reflexivity|now rewrite IH].
Qed.

Lemma sortAsc_In (x : Q) (l : list Q) : In x (sortAsc l) <-> In x l.
Proof.
  unfold sortAsc. induction l as [|v l IH]; cbn [fold_right]; [reflexivity|].
  rewrite insertAsc_In, IH. cbn. intuition.
Qed.

Lemma sortAsc_length (l : list Q) : List.length (sortAsc l) = List.length l.
Proof.
  unfold sortAsc. induction l as [|v l IH]; cbn [fold_right]; [reflexivity|].
  rewrite insertAsc_length, IH. reflexivity.
Qed.

Lemma percentile95_In (values : list Q) :
  values <> [] -> In (percentile95 values) values.
Proof.
  intros Hne. unfold percentile95.
  destruct values as [|v rest] eqn:E; [congruence|]. rewrite <- E. clear Hne.
  assert (Hlen : (0 < List.length values)%nat) by (subst; cbn; lia).
  clear E. cbv zeta. rewrite sortAsc_length.
  set (n := Z.of_nat (List.length values)).
  set (idx := Js.floor _).
  assert (Hidx : (0 <= idx <= n - 1)%Z).
  { unfold idx, Js.floor. split.
    - change 0%Z with (Qfloor 0). apply Qfloor_resp_le.
      apply Qmult_le_0_compat; [discriminate|].
      change 0 with (inject_Z 0). rewrite <- Zle_Qle. unfold n. lia.
    - apply Z.le_trans with (Qfloor (inject_Z (n - 1)));
        [|rewrite Qfloor_Z; lia].
      apply Qfloor_resp_le.
      assert (H : 0 <= inject_Z (n - 1)).
      { change 0 with (inject_Z 0). rewrite <- Zle_Qle. unfold n. lia. }
      fold n. set (x := inject_Z (n - 1)) in *. clearbody x. qlra. }
  destruct (nth_error (sortAsc values) (Z.to_nat idx)) as [x|] eqn:Hnth.
  - cbn [Js.nullish]. apply sortAsc_In. eapply nth_error_In. exact Hnth.
  - exfalso. apply nth_error_None in Hnth. rewrite sortAsc_length in Hnth.
    unfold n in Hidx. lia.
Qed.

Section BuilderOutput.

Variables (h3 : H3) (resolution : H3Resolution).

Lemma filter_positive_all (rows : list SparseRow) :
  (forall r, In r rows -> rowShape h3 resolution r) ->
  filter (fun d => Js.gtb d 0) (map row_density rows) = map row_density rows.
Proof.
  intros H. apply filter_all. intros d Hd. apply in_map_iff in Hd.
  destruct Hd as [r [<- Hr]]. destruct (H r Hr) as (_ & _ & _ & _ & _ & Hpos & _).
  destruct (gtb_spec (row_density r) 0); [reflexivity|contradiction].
Qed.

Lemma sparseMain_spec (estimates : Js.Map Q) :
  let result := fst (sparseMain h3 resolution estimates) in
  let rows := fst (sparseRows h3 resolution estimates 0) in
  fc result = map (sparseFeature resolution (p95 result)) rows
  /\ 0 < p95 result
  /\ (rows = [] /\ p95 result = 1 \/ In (p95 result) (map row_density rows)).
Proof.
  cbv zeta. unfold sparseMain.
  pose proof (sparseRows_shape h3 resolution estimates 0) as Hshape.
  destruct (sparseRows h3 resolution estimates 0) as [rows capped].
  cbn [fst fc p95] in *.
  rewrite (filter_positive_all rows Hshape).
  split; [reflexivity|].
  destruct rows as [|r rows].
  - cbn. split; [reflexivity|left; split; reflexivity].
  - assert (Hne : map row_density (r :: rows) <> []) by discriminate.
    pose proof (percentile95_In _ Hne) as Hin.
    set (p := percentile95 _) in *. clearbody p.
    assert (Hp : 0 < p).
    { apply in_map_iff in Hin. destruct Hin as [r' [<- Hr']].
      destruct (Hshape r' Hr') as (_ & _ & _ & _ & _ & Hpos & _). exact Hpos. }
    destruct (leb_spec p 0) as [Hle|_]; [qlra|].
    split; [exact Hp|right; exact Hin].
Qed.

Lemma sparseFeature_wellFormed (p : Q) (r : SparseRow) :
  0 < p -> rowShape h3 resolution r ->
  wellFormedSparse h3 resolution (sparseFeature resolution p r).
Proof.
  intros Hp (Hest & Hb & Hlen & Harea & Hden & Hdpos & Htier).
  unfold wellFormedSparse, sparseFeature.
  cbn [f_id f_properties f_geometry p_cellId p_estimated p_estimateSmoothed
       p_areaKm2 p_density p_score p_greedLevel p_tier p_resolution].
  exists (row_cell r), (row_estimate r), (row_density r).
  destruct (gtb_spec p 0) as [_|Hn]; [|contradiction].
  exists (clamp (row_density r / p) 0 1).
  pose proof (div_pos _ _ Hdpos Hp) as Hq.
  repeat match goal with |- _ /\ _ => split end;
    try reflexivity; try tauto.
  - rewrite Harea. reflexivity.
  - rewrite Hden, Harea. reflexivity.
  - unfold clamp. qmax_cases; qlra.
  - unfold clamp. qmax_cases; qlra.
  - rewrite Htier. reflexivity.
  - rewrite Hb. reflexivity.
  - rewrite <- Hb. exact Hlen.
Qed.

End BuilderOutput.

Lemma build_wellFormed (h3 : H3) (features : list PoiFeature)
  (resolution : H3Resolution) :
  Forall (wellFormedSparse h3 resolution)
    (fc (fst (buildSparseHexesFromPois h3 features resolution)))
  /\ 0 < p95 (fst (buildSparseHexesFromPois h3 features resolution)).
Proof.
  destruct (build_cases h3 resolution features) as [[_ E]|[_ E]]; rewrite E.
  - cbn. split; [constructor|reflexivity].
  - destruct (sparseMain_spec h3 resolution
                (estimatesOf h3 (centerEstimatesOf h3 resolution features)))
      as (Hfc & Hp & _).
    split; [|exact Hp]. rewrite Hfc. apply Forall_forall. intros f Hf.
    apply in_map_iff in Hf. destruct Hf as [r [<- Hr]].
    apply sparseFeature_wellFormed; [exact Hp|].
    eapply sparseRows_shape. exact Hr.
Qed.

Lemma build_distinct (h3 : H3) (features : list PoiFeature)
  (resolution : H3Resolution) :
  NoDup
    (map f_id (fc (fst (buildSparseHexesFromPois h3 features resolution)))).
Proof.
  destruct (build_cases h3 resolution features) as [[_ E]|[_ E]]; rewrite E.
  - cbn. constructor.
  - destruct (sparseMain_spec h3 resolution
                (estimatesOf h3 (centerEstimatesOf h3 resolution features)))
      as (Hfc & _). rewrite Hfc, map_map. cbn [sparseFeature f_id].
    rewrite <- (map_map row_cell Some).
    apply Injective_map_NoDup; [intros a b H; now injection H|].
    apply sparseRows_cells_NoDup. apply estimates_NoDup.
    apply centerEstimates_NoDup.
Qed.

(** X9.  What the sparse builder emits is well formed: every cell
    has an estimate in (0, 10000], a positive area and density
    (estimate over area), a score in (0, 1], the level and tier of its
    estimate, the resolution asked for and a boundary of at least four
    vertices; the 95th percentile returned is positive. *)
Theorem sparse_cells_well_formed (h3 : H3) (features : list PoiFeature)
  (resolution : H3Resolution) :
  let result := fst (buildSparseHexesFromPois h3 features resolution) in
  Forall (wellFormedSparse h3 resolution) (fc result) /\ 0 < p95 result.
Proof. exact (build_wellFormed h3 features resolution). Qed.

(** X10.  The cells the sparse builder emits have distinct
    identifiers. *)
Theorem sparse_cells_distinct (h3 : H3) (features : list PoiFeature)
  (resolution : H3Resolution) :
  NoDup
    (map f_id (fc (fst (buildSparseHexesFromPois h3 features resolution)))).
Proof. exact (build_distinct h3 features resolution). Qed.

(** X11.  Scores are relative to a cell of the collection: when the
    builder emits a cell at all, the 95th percentile it returns is the
    density of one of the emitted cells, and that cell has score 1;
    when it emits none, the percentile is 1. *)
Theorem sparse_top_score (h3 : H3) (features : list PoiFeature)
  (resolution : H3Resolution) :
  let result := fst (buildSparseHexesFromPois h3 features resolution) in
  (fc result = [] /\ p95 result = 1)
  \/ (exists f,
         In f (fc result) /\ densityOf f = p95 result /\ scoreOf f == 1).
Proof.
  cbv zeta.
  destruct (build_cases h3 resolution features) as [[_ E]|[_ E]]; rewrite E.
  - left. split; reflexivity.
  - destruct (sparseMain_spec h3 resolution
                (estimatesOf h3 (centerEstimatesOf h3 resolution features)))
      as (Hfc & Hp & [[Hrows Hone]|Hin]).
    + left. rewrite Hfc, Hrows. split; [reflexivity|exact Hone].
    + right. apply in_map_iff in Hin. destruct Hin as [r [Hd Hr]].
      set (p := p95 _) in *.
      exists (sparseFeature resolution p r). split.
      * rewrite Hfc. apply in_map. exact Hr.
      * unfold densityOf, scoreOf, sparseFeature.
        cbn [f_properties p_density p_score Js.nullish].
        split; [exact Hd|].
        destruct (gtb_spec p 0) as [_|Hn]; [|contradiction].
        rewrite Hd.
        assert (H1 : p / p == 1) by (field; apply pos_nonzero; exact Hp).
        unfold clamp. rewrite H1. reflexivity.
Qed.

(** ** The places inside a clicked cell *)

Lemma poiFeaturesOf_cons (f : PoiFeature) (rest : list PoiFeature) :
  poiFeaturesOf (f :: rest)
  = match finiteLonLat f with
    | None => []
    | Some pt =>
        match canonicalKind f with
        | Some kind => [(pt, kind)]
        | None => []
        end
    end ++ poiFeaturesOf rest.
Proof.
  unfold poiFeaturesOf, canonicalKind. cbn [flat_map].
  destruct (finiteLonLat f); [|reflexivity].
  destruct (normalizePoiKind (poi_kind f)); reflexivity.
Qed.

(** What one feature contributes to the points the annotation keeps. *)
Lemma insideStep_one (geom : option Geometry) (f : PoiRecord)
  (counts : PoiCounts) (inside : list PoiInside) :
  let one := poiFeaturesOf [r_feature f] in
  let out := insideStep geom (counts, inside) f in
  fst out
  = fold_left
      (fun counts poi =>
         if pointInGeoJsonPolygon (fst poi) geom
         then addOne counts (snd poi) else counts)
      one counts
  /\ map in_kind (snd out)
     = map in_kind inside ++ map snd (pointsInside geom one)
  /\ (Forall (fun p => in_name p <> EmptyString) inside ->
      Forall (fun p => in_name p <> EmptyString) (snd out)).
Proof.
  cbv zeta. rewrite poiFeaturesOf_cons. unfold insideStep, pointsInside.
  change (poiFeaturesOf []) with (@nil (Position * PoiKind)).
  rewrite app_nil_r.
  destruct (finiteLonLat (r_feature f)) as [pt|];
    [|cbn; rewrite app_nil_r; auto].
  destruct (canonicalKind (r_feature f)) as [kind|].
  - cbn [fold_left filter fst snd].
    destruct (pointInGeoJsonPolygon pt geom); cbn [negb fst snd map app];
      [|rewrite app_nil_r; auto].
    split; [reflexivity|]. split.
    + rewrite map_app. reflexivity.
    + intros Hall. apply Forall_app. split; [exact Hall|].
      constructor; [|constructor]. cbn [in_name].
      destruct (String.eqb _ EmptyString) eqn:E; [discriminate|].
      intros Hc. rewrite Hc in E. discriminate.
  - destruct (pointInGeoJsonPolygon pt geom); cbn; rewrite app_nil_r; auto.
Qed.

Lemma insideStep_fold (geom : option Geometry) (pois : list PoiRecord)
  (counts : PoiCounts) (inside : list PoiInside) :
  let kept := pointsInside geom (poiFeaturesOf (map r_feature pois)) in
  let out := fold_left (insideStep geom) pois (counts, inside) in
  fst out
  = fold_left
      (fun counts poi =>
         if pointInGeoJsonPolygon (fst poi) geom
         then addOne counts (snd poi) else counts)
      (poiFeaturesOf (map r_feature pois)) counts
  /\ map in_kind (snd out) = map in_kind inside ++ map snd kept
  /\ (Forall (fun p => in_name p <> EmptyString) inside ->
      Forall (fun p => in_name p <> EmptyString) (snd out)).
Proof.
  cbv zeta. revert counts inside.
  induction pois as [|f pois IH]; intros counts inside.
  - cbn. rewrite app_nil_r. auto.
  - cbn [fold_left map].
    destruct (insideStep_one geom f counts inside) as (S1 & S2 & S3).
    destruct (insideStep geom (counts, inside) f) as [counts' inside'].
    cbn [fst snd] in S1, S2, S3.
    destruct (IH counts' inside') as (H1 & H2 & H3).
    assert (E : poiFeaturesOf (r_feature f :: map r_feature pois)
                = poiFeaturesOf [r_feature f]
                  ++ poiFeaturesOf (map r_feature pois)).
    { unfold poiFeaturesOf. cbn [flat_map]. rewrite app_nil_r. reflexivity. }
    rewrite E. unfold pointsInside in *.
    rewrite fold_left_app, filter_app, map_app, <- S1.
    split; [exact H1|]. split.
    + rewrite H2, S2, <- app_assoc. reflexivity.
    + intros Hall. apply H3, S3, Hall.
Qed.

Lemma level_of_zero (res : Z) : greedLevelFromEstimated 0 res == 0.
Proof.
  unfold greedLevelFromEstimated. cbv zeta.
  pose proof (greedMax_pos res) as Hm.
  set (m := Js.nullish _ _) in *. clearbody m.
  assert (E : Js.max 0 0 / m * 100 == 0).
  { unfold Js.max. rewrite Q.max_id. field. apply pos_nonzero. exact Hm. }
  rewrite (round_comp _ _ E). reflexivity.
Qed.

(** X12.  A click shows what the annotation computed: for every cell
    and point collection, [computePoisInsideHex] returns the counts, the
    estimate and the level that [annotateHexesWithPois] computes for
    that cell on a cache miss. *)
Theorem click_agrees_with_annotation (hexFeature : HexFeature)
  (allPoisFC : list PoiRecord) :
  let shown := computePoisInsideHex hexFeature allPoisFC in
  let annotated :=
    annotationOf (poiFeaturesOf (map r_feature allPoisFC)) None hexFeature in
  res_poiCounts shown = fst (fst annotated)
  /\ res_estimated shown == snd (fst annotated)
  /\ res_greedLevel shown == snd annotated.
Proof.
  cbv zeta. unfold computePoisInsideHex, annotationOf, countInside.
  cbn [fst snd].
  destruct (f_geometry hexFeature) as [g|].
  - destruct (insideStep_fold (Some g) allPoisFC createEmptyPoiCounts [])
      as (H1 & _).
    destruct (fold_left (insideStep (Some g)) allPoisFC
                (createEmptyPoiCounts, [])) as [counts inside].
    cbn [fst snd res_poiCounts res_estimated res_greedLevel] in *.
    rewrite H1. repeat split; reflexivity.
  - cbn [res_poiCounts res_estimated res_greedLevel].
    split; [reflexivity|]. split; [reflexivity|].
    change (getEstimatedFromPoiCounts createEmptyPoiCounts) with 0.
    symmetry. apply level_of_zero.
Qed.

(** X13.  The list of places a click shows matches the counts shown
    with it: it holds one entry per counted point, in the order of the
    collection, so each count is the number of entries of that kind and
    the list is as long as the counts add up to; every entry has a
    name. *)
Theorem click_list_matches_counts (hexFeature : HexFeature)
  (allPoisFC : list PoiRecord) :
  let shown := computePoisInsideHex hexFeature allPoisFC in
  (forall kind,
      countOf (res_poiCounts shown) kind
      = Z.of_nat
          (List.length
             (filter (fun p => PoiKind_eqb (in_kind p) kind)
                (res_poisInside shown))))
  /\ Z.of_nat (List.length (res_poisInside shown))
     = sumZ (map (countOf (res_poiCounts shown)) ALL_POI_KINDS)
  /\ Forall (fun p => in_name p <> EmptyString) (res_poisInside shown).
Proof.
  cbv zeta. unfold computePoisInsideHex.
  destruct (f_geometry hexFeature) as [g|].
  - destruct (insideStep_fold (Some g) allPoisFC createEmptyPoiCounts [])
      as (H1 & H2 & H3).
    destruct (fold_left (insideStep (Some g)) allPoisFC
                (createEmptyPoiCounts, [])) as [counts inside].
    cbn [fst snd res_poiCounts res_poisInside map app] in *.
    set (pois := poiFeaturesOf (map r_feature allPoisFC)) in *.
    assert (Hc : counts = countInside (Some g) pois) by (rewrite H1; reflexivity).
    destruct (countInside_counts (Some g) pois) as [Hk Hsum].
    assert (Hlen : forall kind,
               List.length (filter (fun p => PoiKind_eqb (in_kind p) kind) inside)
               = List.length
                   (filter (fun poi => PoiKind_eqb (snd poi) kind)
                      (pointsInside (Some g) pois))).
    { intros kind.
      rewrite <- (length_map in_kind), <- (length_map snd).
      assert (Hf : forall (A : Type) (g : A -> PoiKind) (l : list A),
                 map g (filter (fun p => PoiKind_eqb (g p) kind) l)
                 = filter (fun k => PoiKind_eqb k kind) (map g l)).
      { intros A g0 l. induction l as [|a l IHl]; [reflexivity|].
        cbn [filter map]. destruct (PoiKind_eqb (g0 a) kind);
          cbn [map]; now rewrite IHl. }
      rewrite (Hf _ in_kind), (Hf _ snd), H2. reflexivity. }
    split; [|split].
    + intros kind. rewrite Hc, Hk, Hlen. reflexivity.
    + rewrite Hc, Hsum. rewrite <- (length_map in_kind), H2, length_map.
      reflexivity.
    + apply H3. constructor.
  - cbn. split; [intros []; reflexivity|]. split; [reflexivity|constructor].
Qed.

(** ** Cells by identifier *)

Section ById.

Local Abbreviation keep :=
  (fun (map : Js.Map HexFeature) (f : HexFeature) =>
     let id := getHexFeatureId f in
     if String.eqb id EmptyString then map else Js.set id f map).

Lemma byId_origin (hexFC : list HexFeature) (acc : Js.Map HexFeature)
  (id : string) (f : HexFeature) :
  Js.get id (fold_left keep hexFC acc) = Some f ->
  (In f hexFC /\ getHexFeatureId f = id /\ id <> EmptyString)
  \/ Js.get id acc = Some f.
Proof.
  revert acc. induction hexFC as [|g rest IH]; intros acc H; [now right|].
  cbn [fold_left] in H. destruct (IH _ H) as [(Hin & Hid & Hne)|Hacc].
  - left. split; [now right|]. split; assumption.
  - cbv zeta in Hacc.
    destruct (String.eqb_spec (getHexFeatureId g) EmptyString) as [E|E];
      [now right|].
    destruct (String.eqb_spec (getHexFeatureId g) id) as [<-|Hne].
    + rewrite get_set_same in Hacc. injection Hacc as <-.
      left. split; [now left|]. split; [reflexivity|exact E].
    + rewrite get_set_other in Hacc by exact Hne. now right.
Qed.

Lemma byId_stays (hexFC : list HexFeature) (acc : Js.Map HexFeature)
  (id : string) :
  Js.get id acc <> None -> Js.get id (fold_left keep hexFC acc) <> None.
Proof.
  revert acc. induction hexFC as [|g rest IH]; intros acc H; [exact H|].
  cbn [fold_left]. apply IH. cbv zeta.
  destruct (String.eqb (getHexFeatureId g) EmptyString); [exact H|].
  now apply get_set_Some.
Qed.

Lemma byId_found (hexFC : list HexFeature) (acc : Js.Map HexFeature)
  (f : HexFeature) :
  In f hexFC -> getHexFeatureId f <> EmptyString ->
  Js.get (getHexFeatureId f) (fold_left keep hexFC acc) <> None.
Proof.
  revert acc. induction hexFC as [|g rest IH]; intros acc Hin Hne;
    [destruct Hin|destruct Hin as [->|Hin]].
  - cbn [fold_left]. apply byId_stays. cbv zeta.
    destruct (String.eqb_spec (getHexFeatureId f) EmptyString) as [E|_];
      [contradiction|].
    rewrite get_set_same. discriminate.
  - cbn [fold_left]. now apply IH.
Qed.

Lemma byId_untouched (hexFC : list HexFeature) (acc : Js.Map HexFeature)
  (id : string) :
  ~ In id (map getHexFeatureId hexFC) ->
  Js.get id (fold_left keep hexFC acc) = Js.get id acc.
Proof.
  revert acc. induction hexFC as [|g rest IH]; intros acc H; [reflexivity|].
  cbn [fold_left]. rewrite IH by (intros Hc; apply H; now right).
  cbv zeta. destruct (String.eqb (getHexFeatureId g) EmptyString);
    [reflexivity|].
  apply get_set_other. intros Hc. apply H. now left.
Qed.

Lemma byId_distinct (hexFC : list HexFeature) (acc : Js.Map HexFeature)
  (f : HexFeature) :
  NoDup (map getHexFeatureId hexFC) ->
  In f hexFC -> getHexFeatureId f <> EmptyString ->
  Js.get (getHexFeatureId f) (fold_left keep hexFC acc) = Some f.
Proof.
  revert acc. induction hexFC as [|g rest IH]; intros acc Hnd Hin Hne;
    [destruct Hin|].
  cbn [map] in Hnd. inversion Hnd as [|? ? Hnot Hrest]; subst.
  destruct Hin as [->|Hin].
  - cbn [fold_left]. rewrite byId_untouched by exact Hnot. cbv zeta.
    destruct (String.eqb_spec (getHexFeatureId f) EmptyString) as [E|_];
      [contradiction|].
    apply get_set_same.
  - cbn [fold_left]. now apply IH.
Qed.

End ById.

(** X14.  The index of the cells by identifier: an identifier leads to
    a cell of the collection with that identifier, never to a cell with
    an empty one; every cell with an identifier is reachable through
    it, and when the identifiers are distinct it leads back to the
    cell itself. *)
Theorem hexFeatureById_lookup (hexFC : FeatureCollection) :
  (forall id f,
      Js.get id (hexFeatureById hexFC) = Some f ->
      In f hexFC /\ getHexFeatureId f = id /\ id <> EmptyString)
  /\ (forall f,
         In f hexFC -> getHexFeatureId f <> EmptyString ->
         exists f',
           Js.get (getHexFeatureId f) (hexFeatureById hexFC) = Some f'
           /\ In f' hexFC /\ getHexFeatureId f' = getHexFeatureId f)
  /\ (NoDup (map getHexFeatureId hexFC) ->
      forall f,
        In f hexFC -> getHexFeatureId f <> EmptyString ->
        Js.get (getHexFeatureId f) (hexFeatureById hexFC) = Some f).
Proof.
  unfold hexFeatureById.
  assert (Ha : forall id f,
             Js.get id (hexFeatureById hexFC) = Some f ->
             In f hexFC /\ getHexFeatureId f = id /\ id <> EmptyString).
  { intros id f H. destruct (byId_origin hexFC [] id f H) as [Hok|Hc];
      [exact Hok|discriminate]. }
  split; [exact Ha|]. split.
  - intros f Hin Hne. pose proof (byId_found hexFC [] f Hin Hne) as Hf.
    destruct (Js.get (getHexFeatureId f) _) as [f'|] eqn:E; [|congruence].
    exists f'. split; [reflexivity|]. destruct (Ha _ _ E) as (H1 & H2 & _).
    split; assumption.
  - intros Hnd f Hin Hne. now apply byId_distinct.
Qed.

(** ** What the annotation keeps *)

Section Annotation.

Variable jsonFirstCoordinate : option Geometry -> string.
Variable poiFeatures : list (Position * PoiKind).
Variable poiVersion : string.

Lemma withAnnotation_same (f : HexFeature) (a : PoiCounts * Q * Q) :
  sameButAnnotation f (withAnnotation f a).
Proof. destruct a as [[counts est] lvl]. cbn. repeat split. Qed.

Lemma annotateAll_same (fs : list HexFeature) (c : AnnotationCache) :
  Forall2 sameButAnnotation fs
    (fst (annotateAll jsonFirstCoordinate poiFeatures poiVersion c fs)).
Proof.
  revert c. induction fs as [|f rest IH]; intros c; [constructor|].
  cbn [annotateAll]. unfold annotateHex at 1.
  set (k := cacheKeyOf _ _). set (a := annotationOf _ _ _).
  set (c1 := match Js.get k c with Some _ => c | None => _ end).
  specialize (IH c1).
  destruct (annotateAll jsonFirstCoordinate poiFeatures poiVersion c1 rest)
    as [os c2].
  cbn [fst] in *. constructor; [apply withAnnotation_same|exact IH].
Qed.

Lemma annotateHex_consistent (c : AnnotationCache) (f : HexFeature) :
  consistentCache c ->
  estimateOfCounts
    (fst (annotateHex jsonFirstCoordinate poiFeatures poiVersion c f))
  /\ consistentCache
       (snd (annotateHex jsonFirstCoordinate poiFeatures poiVersion c f)).
Proof.
  intros Hc. unfold annotateHex.
  set (k := cacheKeyOf _ _).
  destruct (Js.get k c) as [e|] eqn:E.
  - cbn [fst snd annotationOf]. split; [|exact Hc].
    unfold estimateOfCounts, withAnnotation. cbn.
    exists (e_poiCounts e). split; [reflexivity|]. now rewrite (Hc k e E).
  - cbn [annotationOf fst snd]. split.
    + unfold estimateOfCounts, withAnnotation. cbn. eexists.
      split; reflexivity.
    + intros k' e' H.
      destruct (String.eqb_spec k k') as [<-|Hne].
      * rewrite get_set_same in H. injection H as <-. reflexivity.
      * rewrite get_set_other in H by exact Hne. now apply (Hc k' e').
Qed.

Lemma annotateAll_consistent (fs : list HexFeature) (c : AnnotationCache) :
  consistentCache c ->
  Forall estimateOfCounts
    (fst (annotateAll jsonFirstCoordinate poiFeatures poiVersion c fs))
  /\ consistentCache
       (snd (annotateAll jsonFirstCoordinate poiFeatures poiVersion c fs)).
Proof.
  revert c. induction fs as [|f rest IH]; intros c Hc.
  - cbn. split; [constructor|exact Hc].
  - cbn [annotateAll].
    destruct (annotateHex_consistent c f Hc) as [H1 H2].
    destruct (annotateHex jsonFirstCoordinate poiFeatures poiVersion c f)
      as [o c1].
    cbn [fst snd] in *. destruct (IH c1 H2) as [H3 H4].
    destruct (annotateAll jsonFirstCoordinate poiFeatures poiVersion c1 rest)
      as [os c2].
    cbn [fst snd] in *. split; [constructor; assumption|exact H4].
Qed.

End Annotation.

(** X15.  Annotation changes nothing but the annotation: the collection
    it returns holds the cells of the input, one for one and in order,
    each with the identifier, geometry, area, density, score, raw
    estimate, tier and resolution it had; the cache only gains
    entries. *)
Theorem annotation_keeps_cells
  (jsonFirstCoordinate : option Geometry -> string)
  (hexFc : FeatureCollection) (poisFc : list PoiFeature) (poiVersion : string)
  (annotationCache : AnnotationCache) :
  let out :=
    annotateHexesWithPois jsonFirstCoordinate hexFc poisFc poiVersion
      annotationCache in
  Forall2 sameButAnnotation hexFc (fst out)
  /\ extends annotationCache (snd out).
Proof.
  cbv zeta. unfold annotateHexesWithPois.
  destruct hexFc as [|f rest].
  - cbn. split; [constructor|apply extends_refl].
  - split; [apply annotateAll_same|].
    destruct (annotateAll _ _ _ _ _) as [outs c'] eqn:E.
    exact (run_extends _ _ _ _ _ _ _ E).
Qed.

(** X16.  Counts and estimate stay together through the cache: when
    every entry of the cache holds the estimate of its own counts,
    every annotated cell carries counts and the estimate of those
    counts, whether computed or read back, and the cache the run
    leaves is of the same kind. *)
Theorem annotation_consistent
  (jsonFirstCoordinate : option Geometry -> string)
  (hexFc : FeatureCollection) (poisFc : list PoiFeature) (poiVersion : string)
  (annotationCache : AnnotationCache) :
  consistentCache annotationCache ->
  let out :=
    annotateHexesWithPois jsonFirstCoordinate hexFc poisFc poiVersion
      annotationCache in
  Forall estimateOfCounts (fst out) /\ consistentCache (snd out).
Proof.
  intros Hc. cbv zeta. unfold annotateHexesWithPois.
  destruct hexFc as [|f rest].
  - cbn. split; [constructor|exact Hc].
  - now apply annotateAll_consistent.
Qed.

Lemma annotation_consistent_witness :
  let out :=
    annotateHexesWithPois noJson
      [squareCell "a" 0 0; squareCell "a" 10 10]
      [synagogueAt 1 1] "v" [] in
  Forall estimateOfCounts (fst out) /\ consistentCache (snd out).
Proof.
  apply (annotation_consistent noJson
           [squareCell "a" 0 0; squareCell "a" 10 10]
           [synagogueAt 1 1] "v" []).
  intros k e H. discriminate H.
Defined.

(** ** The loader's kinds *)

Lemma normalize_name (kind : PoiKind) :
  normalizePoiKind (Some (poiKindName kind)) = Some kind.
Proof. destruct kind; reflexivity. Qed.

Lemma name_nonempty (kind : PoiKind) :
  String.eqb (poiKindName kind) EmptyString = false.
Proof. destruct kind; reflexivity. Qed.

Lemma withCanonicalKind_kind (f : PoiRecord) :
  canonicalKind (r_feature (withCanonicalKind f)) = canonicalKind (r_feature f)
  /\ hasKind (withCanonicalKind f)
     = match canonicalKind (r_feature f) with Some _ => true | None => false end
  /\ isPoint (withCanonicalKind f) = isPoint f
  /\ finiteLonLat (r_feature (withCanonicalKind f)) = finiteLonLat (r_feature f).
Proof.
  unfold withCanonicalKind, hasKind, isPoint, finiteLonLat.
  cbn [r_feature r_geometryType poi_kind poi_coordinates].
  destruct (canonicalKind (r_feature f)) as [k|] eqn:E.
  - rewrite name_nonempty. repeat split.
    unfold canonicalKind. cbn [poi_kind]. now rewrite normalize_name.
  - repeat split. unfold canonicalKind in *. cbn [poi_kind poi_type].
    change (normalizePoiKind (Some EmptyString)) with (@None PoiKind).
    destruct (normalizePoiKind (poi_kind (r_feature f))); [discriminate|].
    exact E.
Qed.

Lemma loaded_shape (features : list PoiRecord) (f : PoiRecord) :
  In f (normalizedFeatures features) ->
  isPoint f = true
  /\ exists kind,
       poi_kind (r_feature f) = Some (poiKindName kind)
       /\ canonicalKind (r_feature f) = Some kind.
Proof.
  unfold normalizedFeatures. intros H.
  apply filter_In in H. destruct H as [H Hk].
  apply in_map_iff in H. destruct H as [g [<- Hg]].
  apply filter_In in Hg. destruct Hg as [_ Hp].
  destruct (withCanonicalKind_kind g) as (Hc & Hh & Hpt & _).
  split; [now rewrite Hpt|].
  rewrite Hh in Hk. destruct (canonicalKind (r_feature g)) as [k|] eqn:E;
    [|discriminate].
  exists k. split; [|now rewrite Hc].
  unfold withCanonicalKind. cbn [r_feature poi_kind]. now rewrite E.
Qed.

(** X17.  After loading, every point is a [Point] whose [kind] is the
    name of one of the six kinds, the kind [normalizePoiKind] gives it
    again; so the exact test [kind === "synagogue"] that feeds the
    builder selects the loaded points the annotation counts as
    synagogues. *)
Theorem loaded_kinds_canonical (features : list PoiRecord) :
  Forall
    (fun f =>
       isPoint f = true
       /\ exists kind,
            poi_kind (r_feature f) = Some (poiKindName kind)
            /\ canonicalKind (r_feature f) = Some kind)
    (normalizedFeatures features)
  /\ synagoguePois (normalizedFeatures features)
     = filter
         (fun f =>
            match canonicalKind (r_feature f) with
            | Some synagogue => true
            | _ => false
            end)
         (normalizedFeatures features).
Proof.
  split.
  - apply Forall_forall. intros f Hf. exact (loaded_shape features f Hf).
  - unfold synagoguePois. apply filter_ext_in. intros f Hf.
    destruct (loaded_shape features f Hf) as (Hp & k & Hk & Hc).
    rewrite Hk, Hc, Hp. cbn [option_map Js.nullish].
    destruct k; reflexivity.
Qed.

(** X18.  Loading does not change what the annotation counts: the
    points the annotation keeps of the loaded collection, with their
    kinds, are those it keeps of the [Point] features fetched. *)
Theorem loader_preserves_annotation (features : list PoiRecord) :
  poiFeaturesOf (map r_feature (normalizedFeatures features))
  = poiFeaturesOf (map r_feature (filter isPoint features)).
Proof.
  unfold normalizedFeatures.
  induction (filter isPoint features) as [|f rest IH]; [reflexivity|].
  cbn [map filter].
  destruct (withCanonicalKind_kind f) as (Hc & Hh & _ & Hll).
  rewrite Hh.
  destruct (canonicalKind (r_feature f)) as [k|] eqn:E.
  - cbn [map]. rewrite !poiFeaturesOf_cons, Hc, Hll, E, IH. reflexivity.
  - rewrite (poiFeaturesOf_cons (r_feature f)), E, IH.
    destruct (finiteLonLat (r_feature f)); reflexivity.
Qed.

(** ** Kind names: case and surrounding white space *)

Lemma toLower_idem (c : ascii) : toLower (toLower c) = toLower c.
Proof. destruct c as [[] [] [] [] [] [] [] []]; reflexivity. Qed.

Lemma isSpace_toLower (c : ascii) : isSpace (toLower c) = isSpace c.
Proof. destruct c as [[] [] [] [] [] [] [] []]; reflexivity. Qed.

Lemma toLowerCase_idem (s : string) : toLowerCase (toLowerCase s) = toLowerCase s.
Proof.
  induction s as [|c s IH]; [reflexivity|].
  cbn [toLowerCase]. now rewrite toLower_idem, IH.
Qed.

Lemma trimStart_lower (s : string) :
  trimStart (toLowerCase s) = toLowerCase (trimStart s).
Proof.
  induction s as [|c s IH]; [reflexivity|].
  cbn [toLowerCase trimStart]. rewrite isSpace_toLower.
  destruct (isSpace c); [exact IH|reflexivity].
Qed.

Lemma trimEnd_lower (s : string) :
  trimEnd (toLowerCase s) = toLowerCase (trimEnd s).
Proof.
  induction s as [|c s IH]; [reflexivity|].
  cbn [toLowerCase trimEnd]. rewrite IH, isSpace_toLower.
  destruct (trimEnd s); cbn [toLowerCase]; [|reflexivity].
  destruct (isSpace c); reflexivity.
Qed.

Lemma trim_lower (s : string) : trim (toLowerCase s) = toLowerCase (trim s).
Proof. unfold trim. now rewrite trimStart_lower, trimEnd_lower. Qed.

Lemma trimEnd_cons (c : ascii) (s : string) :
  trimEnd (String c s)
  = match trimEnd s with
    | EmptyString => if isSpace c then EmptyString else String c EmptyString
    | rest' => String c rest'
    end.
Proof. reflexivity. Qed.

Lemma trimEnd_idem (s : string) : trimEnd (trimEnd s) = trimEnd s.
Proof.
  induction s as [|c s IH]; [reflexivity|].
  rewrite trimEnd_cons. destruct (trimEnd s) as [|d t] eqn:E.
  - destruct (isSpace c) eqn:Ec; [reflexivity|]. cbn [trimEnd]. now rewrite Ec.
  - rewrite trimEnd_cons, IH. reflexivity.
Qed.

Lemma trimStart_clean (s : string) : startsClean (trimStart s).
Proof.
  induction s as [|c s IH]; [exact I|].
  cbn [trimStart]. destruct (isSpace c) eqn:E; [exact IH|exact E].
Qed.

Lemma trimEnd_clean (s : string) : startsClean s -> startsClean (trimEnd s).
Proof.
  destruct s as [|c s]; [intros _; exact I|].
  cbn [startsClean trimEnd]. intros H.
  destruct (trimEnd s); [rewrite H|]; exact H.
Qed.

Lemma trimStart_of_clean (s : string) : startsClean s -> trimStart s = s.
Proof.
  destruct s as [|c s]; [reflexivity|]. cbn. intros ->. reflexivity.
Qed.

Lemma trim_idem (s : string) : trim (trim s) = trim s.
Proof.
  unfold trim.
  rewrite (trimStart_of_clean (trimEnd (trimStart s)))
    by apply trimEnd_clean, trimStart_clean.
  apply trimEnd_idem.
Qed.

(** X19.  The kind of a point does not depend on the case of the
    letters or on white space around the name: [normalizePoiKind]
    gives a string, its lower-case form and its trimmed form the same
    kind; the name of each kind gives that kind. *)
Theorem kind_ignores_case_and_padding (raw : string) :
  normalizePoiKind (Some (toLowerCase raw)) = normalizePoiKind (Some raw)
  /\ normalizePoiKind (Some (trim raw)) = normalizePoiKind (Some raw)
  /\ forall kind, normalizePoiKind (Some (poiKindName kind)) = Some kind.
Proof.
  unfold normalizePoiKind. cbn [Js.nullish].
  rewrite trim_lower, toLowerCase_idem, trim_idem.
  split; [reflexivity|]. split; [reflexivity|].
  intros kind. exact (normalize_name kind).
Qed.

(** ** The kinds shown *)

Lemma PoiKind_eqb_eq (a b : PoiKind) : PoiKind_eqb a b = true <-> a = b.
Proof. destruct a, b; cbn; split; intros H; try reflexivity; discriminate H. Qed.

Lemma filter_ALL_In (sel : PoiKind -> bool) (k : PoiKind) :
  In k (filter sel ALL_POI_KINDS) <-> sel k = true.
Proof.
  rewrite filter_In. split; [tauto|]. intros H. split; [|exact H].
  destruct k; cbn; tauto.
Qed.

(** X20.  The selection of kinds survives the address: written with
    [join] and read back by the parser, a selection in the order of
    [ALL_POI_KINDS] comes back as it was, except the empty selection,
    which comes back as all six kinds. *)
Theorem enabled_kinds_round_trip (sel : PoiKind -> bool) :
  let enabledKinds := filter sel ALL_POI_KINDS in
  parseEnabledKinds (Some (enabledKindsParam enabledKinds))
  = match enabledKinds with
    | [] => ALL_POI_KINDS
    | _ => enabledKinds
    end.
Proof.
  cbv zeta. unfold ALL_POI_KINDS at 1 2 4. cbn [filter].
  destruct (sel synagogue), (sel jcc), (sel kosher), (sel mikveh),
    (sel jewish_school), (sel jewish_camp); vm_compute; reflexivity.
Qed.

(** X21.  The selection of kinds is always in the order of
    [ALL_POI_KINDS], each kind once: the parser returns such a list
    for every address, and the checkbox of a kind keeps it so, adding
    the kind when checked and removing it when unchecked. *)
Theorem enabled_kinds_canonical :
  (forall enabledKindsRaw, canonicalKinds (parseEnabledKinds enabledKindsRaw))
  /\ (forall prev kind checked,
         canonicalKinds prev -> canonicalKinds (toggleKind prev kind checked))
  /\ (forall prev kind k,
         In k (toggleKind prev kind true) <-> k = kind \/ In k prev)
  /\ (forall prev kind k,
         In k (toggleKind prev kind false) <-> k <> kind /\ In k prev).
Proof.
  split; [|split; [|split]].
  - intros [raw|]; unfold parseEnabledKinds.
    + destruct (String.eqb raw EmptyString).
      * exists (fun _ => true). reflexivity.
      * eexists. reflexivity.
    + exists (fun _ => true). reflexivity.
  - intros prev kind [] [sel ->]; unfold toggleKind.
    + eexists. reflexivity.
    + exists (fun k => sel k && negb (PoiKind_eqb k kind)).
      unfold ALL_POI_KINDS. cbn [filter].
      destruct (sel synagogue), (sel jcc), (sel kosher), (sel mikveh),
        (sel jewish_school), (sel jewish_camp), kind; reflexivity.
  - intros prev kind k. unfold toggleKind. rewrite filter_ALL_In.
    rewrite existsb_exists. split.
    + intros [x [Hx Hk]]. apply PoiKind_eqb_eq in Hk. subst x.
      apply in_app_iff in Hx. destruct Hx as [Hx|[->|[]]]; auto.
    + intros H. exists k. split; [|now apply PoiKind_eqb_eq].
      apply in_app_iff. destruct H as [H|H]; [right; left; now symmetry|now left].
  - intros prev kind k. unfold toggleKind. rewrite filter_In.
    rewrite negb_true_iff. split.
    + intros [Hin Hne]. split; [|exact Hin]. intros ->.
      assert (H : PoiKind_eqb kind kind = true) by now apply PoiKind_eqb_eq.
      congruence.
    + intros [Hne Hin]. split; [exact Hin|].
      destruct (PoiKind_eqb k kind) eqn:E; [|reflexivity].
      apply PoiKind_eqb_eq in E. contradiction.
Qed.

(** ** The guard on fetch *)

Lemma startsWith_iff (s prefix : string) :
  startsWith s prefix = true <-> exists rest, s = String.append prefix rest.
Proof.
  unfold startsWith. revert s. induction prefix as [|c p IH]; intros s.
  - split; [intros _; now exists s|intros _; destruct s; reflexivity].
  - destruct s as [|d s]; cbn [String.prefix String.append].
    + split; [discriminate|intros [rest H]; discriminate H].
    + destruct (Ascii.ascii_dec c d) as [->|Hne].
      * rewrite IH. split; intros [rest H]; exists rest; [now rewrite H|].
        now injection H.
      * split; [discriminate|]. intros [rest H]. injection H as H1 H2.
        congruence.
Qed.

Lemma allowed_iff (url : string) :
  isAllowedAbsoluteFetchUrl url = true
  <-> toLowerCase url = "https://tiles.openfreemap.org"%string
      \/ exists rest,
           toLowerCase url
           = String.append "https://tiles.openfreemap.org/" rest.
Proof.
  unfold isAllowedAbsoluteFetchUrl, FETCH_ABSOLUTE_ALLOWLIST.
  cbn [existsb]. rewrite orb_false_r, orb_true_iff.
  change (toLowerCase "https://tiles.openfreemap.org")
    with "https://tiles.openfreemap.org"%string.
  rewrite String.eqb_eq, startsWith_iff. reflexivity.
Qed.

(** X22.  The guard lets a request through exactly when its address is
    not an absolute http or https address, or is, up to the case of the
    letters, the allowed origin itself or the allowed origin followed by
    [/]; an address that continues the allowed origin with any other
    character, as a longer host name, a port or a user part does, is
    blocked. *)
Theorem fetch_guard_allowlist (requestUrl : string) :
  (fetchGuardBlocks requestUrl = false
   <-> isAbsoluteHttp requestUrl = false
       \/ toLowerCase requestUrl = "https://tiles.openfreemap.org"%string
       \/ exists rest,
            toLowerCase requestUrl
            = String.append "https://tiles.openfreemap.org/" rest)
  /\ (forall c rest,
         toLowerCase requestUrl
         = String.append "https://tiles.openfreemap.org" (String c rest) ->
         c <> "/"%char ->
         fetchGuardBlocks requestUrl = true).
Proof.
  split.
  - unfold fetchGuardBlocks. rewrite andb_false_iff, negb_false_iff, allowed_iff.
    reflexivity.
  - intros c rest H Hc. unfold fetchGuardBlocks, isAbsoluteHttp.
    rewrite H. cbn [String.append startsWith String.prefix].
    replace (negb (isAllowedAbsoluteFetchUrl requestUrl)) with true;
      [vm_compute; reflexivity|].
    symmetry. apply negb_true_iff.
    destruct (isAllowedAbsoluteFetchUrl requestUrl) eqn:E; [|reflexivity].
    apply allowed_iff in E. rewrite H in E. destruct E as [E|[r E]].
    + cbn in E. discriminate E.
    + cbn in E. injection E as E _. contradiction.
Qed.

(** ** The fingerprint *)

Lemma toUint32_toInt32 (z : Z) : toUint32 (toInt32 z) = toUint32 z.
Proof.
  unfold toUint32, toInt32.
  rewrite Zminus_mod_idemp_l. f_equal. lia.
Qed.

Lemma toInt32_range (z : Z) : (-2147483648 <= toInt32 z < 2147483648)%Z.
Proof.
  unfold toInt32.
  pose proof (Z.mod_pos_bound (z + 2147483648) 4294967296 eq_refl). lia.
Qed.

Lemma toUint32_range (z : Z) : (0 <= toUint32 z < 4294967296)%Z.
Proof. unfold toUint32. apply Z.mod_pos_bound. reflexivity. Qed.

Lemma lxor_mod_pow2 (a b : Z) :
  (Z.lxor a b mod 2 ^ 32 = Z.lxor (a mod 2 ^ 32) (b mod 2 ^ 32))%Z.
Proof.
  apply Z.bits_inj'. intros n Hn.
  rewrite Z.lxor_spec.
  destruct (Z.lt_ge_cases n 32) as [Hlt|Hge].
  - rewrite !Z.mod_pow2_bits_low by exact Hlt. apply Z.lxor_spec.
  - rewrite !Z.mod_pow2_bits_high by lia. reflexivity.
Qed.

Lemma charCode_small (c : ascii) :
  toUint32 (toInt32 (Z.of_N (N_of_ascii c))) = Z.of_N (N_of_ascii c).
Proof.
  rewrite toUint32_toInt32. unfold toUint32. apply Z.mod_small.
  pose proof (N_ascii_bounded c). lia.
Qed.

Lemma hashChar_unsigned (hash : Z) (c : ascii) :
  toUint32 (hashChar hash c)
  = ((Z.lxor (toUint32 hash) (Z.of_N (N_of_ascii c)) * 16777619)
     mod 4294967296)%Z.
Proof.
  unfold hashChar. cbv zeta. rewrite toUint32_toInt32. unfold toUint32 at 1.
  rewrite <- Zmult_mod_idemp_l.
  change 4294967296%Z with (2 ^ 32)%Z.
  rewrite lxor_mod_pow2.
  change (2 ^ 32)%Z with 4294967296%Z.
  fold (toUint32 (toInt32 hash)).
  fold (toUint32 (toInt32 (Z.of_N (N_of_ascii c)))).
  rewrite toUint32_toInt32, charCode_small. reflexivity.
Qed.

Lemma fnv1a32_mod (h h' : Z) (token : string) :
  toUint32 h = toUint32 h' ->
  toUint32 (hashToken h token) = fnv1a32 (toUint32 h') token.
Proof.
  revert h h'. induction token as [|c rest IH]; intros h h' E.
  - exact E.
  - cbn [hashToken fnv1a32]. rewrite <- E, <- hashChar_unsigned.
    apply IH. reflexivity.
Qed.

(** X23.  The hash of the fingerprint is FNV-1a on 32 bits: the signed
    arithmetic of [^] and [Math.imul], read as an unsigned number by
    [>>> 0], gives for every token what exclusive or and
    multiplication by 16777619 modulo 2^32 give, a number from 0 to
    2^32 - 1 that [Math.abs] leaves as it is. *)
Theorem fingerprint_hash_is_fnv1a (hash : Z) (token : string) :
  toUint32 (hashToken hash token) = fnv1a32 (toUint32 hash) token
  /\ (0 <= toUint32 (hashToken hash token) < 4294967296)%Z
  /\ Z.abs (toUint32 (hashToken hash token)) = toUint32 (hashToken hash token).
Proof.
  split; [apply fnv1a32_mod; reflexivity|].
  pose proof (toUint32_range (hashToken hash token)) as H.
  split; [exact H|]. apply Z.abs_eq. lia.
Qed.

Section Sample.

Variable toFixed3 : Js.num -> string.

Lemma sampleLoop_agree (fuel : nat) (fs fs' : list PoiRecord)
  (sampleStep i hash : Z) :
  List.length fs' = List.length fs ->
  (forall j,
      In j (sampledFrom fuel (Z.of_nat (List.length fs)) sampleStep i) ->
      nth_error fs' (Z.to_nat j) = nth_error fs (Z.to_nat j)) ->
  sampleLoop toFixed3 fuel fs' sampleStep i hash
  = sampleLoop toFixed3 fuel fs sampleStep i hash.
Proof.
  intros Hlen. revert i hash.
  induction fuel as [|fuel IH]; intros i hash H; [reflexivity|].
  cbn [sampleLoop sampledFrom] in *. rewrite Hlen.
  destruct (Z.ltb i (Z.of_nat (List.length fs))); [|reflexivity].
  rewrite (H i) by now left.
  destruct (nth_error fs (Z.to_nat i)) as [f|]; [|reflexivity].
  apply IH. intros j Hj. apply H. now right.
Qed.

(** Enough turns: from the length of the collection on, more fuel
    changes nothing. *)
Lemma sampleLoop_fuel (fuel fuel' : nat) (fs : list PoiRecord)
  (sampleStep i hash : Z) :
  (1 <= sampleStep)%Z ->
  (Z.of_nat (List.length fs) - i <= Z.of_nat fuel)%Z ->
  (Z.of_nat (List.length fs) - i <= Z.of_nat fuel')%Z ->
  sampleLoop toFixed3 fuel fs sampleStep i hash
  = sampleLoop toFixed3 fuel' fs sampleStep i hash.
Proof.
  intros Hs. revert fuel' i hash.
  induction fuel as [|fuel IH]; intros fuel' i hash H H'.
  - destruct fuel' as [|fuel']; [reflexivity|]. cbn [sampleLoop].
    destruct (Z.ltb_spec i (Z.of_nat (List.length fs))); [lia|reflexivity].
  - cbn [sampleLoop].
    destruct (Z.ltb_spec i (Z.of_nat (List.length fs))) as [Hlt|Hge].
    + destruct fuel' as [|fuel']; [lia|]. cbn [sampleLoop].
      destruct (Z.ltb_spec i (Z.of_nat (List.length fs))); [|lia].
      destruct (nth_error fs (Z.to_nat i)); [|reflexivity].
      apply IH; lia.
    + destruct fuel' as [|fuel']; [reflexivity|]. cbn [sampleLoop].
      destruct (Z.ltb_spec i (Z.of_nat (List.length fs))); [lia|reflexivity].
Qed.

End Sample.

Lemma sampledFrom_length (fuel : nat) (len sampleStep i : Z) :
  (1 <= sampleStep)%Z -> (0 <= i)%Z ->
  (Z.of_nat (List.length (sampledFrom fuel len sampleStep i))
   <= Z.max 0 ((len - i - 1) / sampleStep + 1))%Z.
Proof.
  intros Hs. revert i. induction fuel as [|fuel IH]; intros i Hi.
  - cbn [sampledFrom List.length]. lia.
  - cbn [sampledFrom]. destruct (Z.ltb_spec i len) as [Hlt|Hge].
    + cbn [List.length]. rewrite Nat2Z.inj_succ.
      specialize (IH (i + sampleStep)%Z ltac:(lia)).
      assert (E : ((len - i - 1) / sampleStep
                   = (len - (i + sampleStep) - 1) / sampleStep + 1)%Z).
      { replace (len - i - 1)%Z
          with ((len - (i + sampleStep) - 1) + 1 * sampleStep)%Z by lia.
        rewrite Z.div_add by lia. reflexivity. }
      assert (0 <= (len - i - 1) / sampleStep)%Z
        by (apply Z.div_pos; lia).
      lia.
    + cbn [List.length]. lia.
Qed.

Lemma sampledFrom_multiples (fuel : nat) (len sampleStep i j : Z) :
  In j (sampledFrom fuel len sampleStep i) ->
  exists k : Z, (0 <= k)%Z /\ j = (i + k * sampleStep)%Z.
Proof.
  revert i. induction fuel as [|fuel IH]; intros i; [intros []|].
  cbn [sampledFrom]. destruct (Z.ltb i len); [|intros []].
  intros [<-|H].
  - exists 0%Z. split; lia.
  - destruct (IH _ H) as [k [Hk ->]]. exists (k + 1)%Z. split; lia.
Qed.

(** X24.  The fingerprint reads a sample: it visits at most 127
    features, those at the multiples of the stride, whatever the size of
    the collection; two collections of the same length that hold the
    same features at the sampled indices have the same fingerprint, so a
    change elsewhere (from 128 features on, the second feature is never
    sampled) leaves the fingerprint, and the annotation cache keyed by
    it, as they were.  The loop ends by its own test: more turns than
    the length of the collection change nothing. *)
Theorem fingerprint_reads_a_sample (toFixed3 : Js.num -> string)
  (features : list PoiRecord) :
  (List.length (sampledIndices features) <= 127)%nat
  /\ (forall features',
         List.length features' = List.length features ->
         (forall j,
             In j (sampledIndices features) ->
             nth_error features' (Z.to_nat j)
             = nth_error features (Z.to_nat j)) ->
         poiDatasetVersion toFixed3 features'
         = poiDatasetVersion toFixed3 features)
  /\ ((128 <= List.length features)%nat -> ~ In 1%Z (sampledIndices features))
  /\ (forall fuel hash,
         (List.length features <= fuel)%nat ->
         sampleLoop toFixed3 fuel features (sampleStepOf features) 0 hash
         = sampleLoop toFixed3 (List.length features) features
             (sampleStepOf features) 0 hash).
Proof.
  unfold sampledIndices, sampleStepOf.
  set (len := Z.of_nat (List.length features)).
  assert (Hlen : (0 <= len)%Z) by (unfold len; lia).
  split; [|split; [|split]]; cycle 3.
  - intros fuel hash Hf. apply sampleLoop_fuel; unfold len; lia.
  - pose proof (sampledFrom_length (List.length features) len
                  (Z.max 1 (len / 64)) 0 ltac:(lia) ltac:(lia)) as H.
    fold len in H.
    assert (Hb : ((len - 0 - 1) / Z.max 1 (len / 64) + 1 <= 127)%Z).
    { destruct (Z.lt_ge_cases len 64) as [Hsmall|Hbig].
      - rewrite (Z.div_small len 64) by lia. rewrite Z.max_l by lia.
        rewrite Z.div_1_r. lia.
      - assert (Hq : (1 <= len / 64)%Z)
          by (apply Z.div_le_lower_bound; lia).
        rewrite Z.max_r by lia.
        set (s := (len / 64)%Z) in *.
        assert (Hup : (len < 64 * s + 64)%Z).
        { pose proof (Z.mod_pos_bound len 64 eq_refl).
          pose proof (Z.div_mod len 64 ltac:(lia)). unfold s. lia. }
        assert (Hd : ((len - 0 - 1) / s < 127)%Z).
        { apply Z.div_lt_upper_bound; [lia|]. nia. }
        lia. }
    lia.
  - intros features' Hl Hsame. unfold poiDatasetVersion, sampleStepOf.
    destruct features as [|f rest]; destruct features' as [|f' rest'];
      try discriminate Hl; [reflexivity|].
    rewrite Hl. do 6 f_equal.
    apply sampleLoop_agree; [exact Hl|]. exact Hsame.
  - intros Hbig Hin.
    assert (Hq : (2 <= len / 64)%Z)
      by (apply Z.div_le_lower_bound; unfold len; lia).
    assert (Hm : Z.max 1 (len / 64) = (len / 64)%Z) by (apply Z.max_r; lia).
    destruct (sampledFrom_multiples _ _ _ _ _ Hin) as [k [Hk E]].
    rewrite Hm in E. set (q := (len / 64)%Z) in *. clearbody q.
    destruct (Z.eq_dec k 0) as [->|Hk0]; [lia|].
    assert (Hk1 : (1 <= k)%Z) by lia. nia.
Qed.

(** ** The rebuild of the presence layer *)

Lemma append_cancel_r (a b s : string) :
  String.append a s = String.append b s -> a = b.
Proof.
  assert (Hlen : forall x y, String.length (String.append x y)
                             = (String.length x + String.length y)%nat).
  { induction x as [|c x IH]; intros y; cbn; [reflexivity|now rewrite IH]. }
  revert b. induction a as [|c a IH]; intros [|d b] H; cbn in H.
  - reflexivity.
  - apply (f_equal String.length) in H. cbn in H. rewrite Hlen in H. lia.
  - apply (f_equal String.length) in H. cbn in H. rewrite Hlen in H. lia.
  - injection H as -> H. f_equal. now apply IH.
Qed.

Section FreshRun.

Variable jsonFirstCoordinate : option Geometry -> string.
Variable poiFeatures : list (Position * PoiKind).
Variable poiVersion : string.

Local Abbreviation keyOf f :=
  (cacheKeyOf (hexCellId jsonFirstCoordinate f) poiVersion).

(** A run in which no cell finds an entry computes every cell. *)
Lemma run_fresh (fs : list HexFeature) (c : AnnotationCache) :
  NoDup (map (fun f => keyOf f) fs) ->
  (forall f, In f fs -> Js.get (keyOf f) c = None) ->
  fst (annotateAll jsonFirstCoordinate poiFeatures poiVersion c fs)
  = map (fun f => withAnnotation f (annotationOf poiFeatures None f)) fs.
Proof.
  revert c. induction fs as [|f rest IH]; intros c Hnd Hc; [reflexivity|].
  cbn [map] in Hnd. inversion Hnd as [|? ? Hnot Hrest]; subst.
  cbn [annotateAll map]. unfold annotateHex at 1.
  rewrite (Hc f) by now left.
  destruct (annotationOf poiFeatures None f) as [[counts est] lvl] eqn:Ea.
  set (c1 := Js.set _ _ c).
  assert (Hc1 : forall g, In g rest -> Js.get (keyOf g) c1 = None).
  { intros g Hg. unfold c1. rewrite get_set_other.
    - apply Hc. now right.
    - intros E. apply Hnot. apply in_map_iff. exists g.
      split; [symmetry; exact E|exact Hg]. }
  specialize (IH c1 Hrest Hc1).
  destruct (annotateAll jsonFirstCoordinate poiFeatures poiVersion c1 rest)
    as [os c2].
  cbn [fst] in *. now rewrite IH.
Qed.

End FreshRun.

Lemma hexCellId_own (jsonFirstCoordinate : option Geometry -> string)
  (f : HexFeature) (cell : string) :
  p_cellId (f_properties f) = Some cell -> cell <> EmptyString ->
  hexCellId jsonFirstCoordinate f = cell.
Proof.
  intros H Hne. unfold hexCellId. rewrite H.
  destruct (String.eqb_spec cell EmptyString); [contradiction|reflexivity].
Qed.

Lemma same_ids_nonempty (fs os : list HexFeature) :
  Forall2 sameButAnnotation fs os ->
  Forall (fun f => f_id f <> Some EmptyString) os ->
  forall f, In f fs -> f_id f <> Some EmptyString.
Proof.
  induction 1 as [|f o fs os Hfo _ IH]; intros Hids f' Hin; [destruct Hin|].
  inversion Hids as [|? ? Ho Hos]; subst.
  destruct Hin as [<-|Hin]; [|exact (IH Hos f' Hin)].
  destruct Hfo as [Hid _]. rewrite <- Hid. exact Ho.
Qed.

(** X25.  A rebuild shows every cell with the points of its own
    geometry: starting from an empty annotation cache, when no cell the
    builder emits has the empty identifier, every cell of the
    collection shown carries as estimate the sum of the weights of the
    loaded points inside its own boundary, and the level of that
    estimate at the current resolution. *)
Theorem rebuild_shows_own_points
  (jsonFirstCoordinate : option Geometry -> string) (h3 : H3)
  (pois : list PoiRecord) (currentRes : H3Resolution)
  (poiDatasetVersion : string) :
  let shown :=
    nextFC
      (rebuildPresence jsonFirstCoordinate h3 pois currentRes
         poiDatasetVersion []) in
  Forall (fun f => f_id f <> Some EmptyString) shown ->
  Forall (showsOwnPoints pois currentRes) shown.
Proof.
  cbv zeta. unfold rebuildPresence.
  pose proof (build_wellFormed h3 (map r_feature (synagoguePois pois))
                currentRes) as [Hwf _].
  pose proof (build_distinct h3 (map r_feature (synagoguePois pois))
                currentRes) as Hnd.
  destruct (buildSparseHexesFromPois h3 (map r_feature (synagoguePois pois))
              currentRes) as [sparse console].
  cbn [fst] in Hwf, Hnd.
  pose proof (annotateAll_same jsonFirstCoordinate
                (poiFeaturesOf (map r_feature pois)) poiDatasetVersion
                (fc sparse) []) as Hsame.
  unfold annotateHexesWithPois.
  destruct (fc sparse) as [|f0 rest0] eqn:Efc; [intros _; constructor|].
  rewrite <- Efc in *. clear Efc f0 rest0.
  set (pf := poiFeaturesOf (map r_feature pois)) in *.
  destruct (annotateAll jsonFirstCoordinate pf poiDatasetVersion [] (fc sparse))
    as [outs c'] eqn:Erun.
  cbn [nextFC fst] in *. intros Hids.
  pose proof (same_ids_nonempty _ _ Hsame Hids) as Hne.
  assert (Hkey : forall f,
             In f (fc sparse) ->
             hexCellId jsonFirstCoordinate f
             = Js.nullish (f_id f) EmptyString
             /\ p_resolution (f_properties f) = Some (resNumber currentRes)).
  { intros f Hf. rewrite Forall_forall in Hwf.
    destruct (Hwf f Hf) as (cell & est & den & sc & Hid & Hcid & Hrest).
    split.
    - rewrite Hid. cbn [Js.nullish]. apply hexCellId_own; [exact Hcid|].
      intros ->. apply (Hne f Hf). exact Hid.
    - tauto. }
  assert (Hfresh : outs
                   = map (fun f => withAnnotation f (annotationOf pf None f))
                       (fc sparse)).
  { rewrite <- (run_fresh jsonFirstCoordinate pf poiDatasetVersion
                  (fc sparse) []); [now rewrite Erun| |reflexivity].
    assert (Hinj : forall l,
               (forall f, In f l -> In f (fc sparse)) ->
               NoDup (map f_id l) ->
               NoDup (map (fun f => cacheKeyOf (hexCellId jsonFirstCoordinate f)
                                      poiDatasetVersion) l)).
    { induction l as [|f l IHl]; intros Hsub Hn; [constructor|].
      cbn [map] in *. inversion Hn as [|? ? Hnot Hl]; subst.
      constructor; [|apply IHl; [intros g Hg; apply Hsub; now right|exact Hl]].
      intros Hin. apply in_map_iff in Hin. destruct Hin as [g [Hk Hg]].
      unfold cacheKeyOf in Hk. apply append_cancel_r in Hk.
      destruct (Hkey f (Hsub f (or_introl eq_refl))) as [Hf _].
      destruct (Hkey g (Hsub g (or_intror Hg))) as [Hg' _].
      rewrite Hf, Hg' in Hk.
      rewrite Forall_forall in Hwf.
      destruct (Hwf f (Hsub f (or_introl eq_refl)))
        as (cf & ? & ? & ? & Hidf & _).
      destruct (Hwf g (Hsub g (or_intror Hg)))
        as (cg & ? & ? & ? & Hidg & _).
      apply Hnot. apply in_map_iff. exists g. split; [|exact Hg].
      rewrite Hidf, Hidg in *. cbn [Js.nullish] in Hk. now subst. }
    apply Hinj; [auto|exact Hnd]. }
  rewrite Hfresh. apply Forall_forall. intros o Ho.
  apply in_map_iff in Ho. destruct Ho as [f [<- Hf]].
  destruct (Hkey f Hf) as [_ Hres].
  unfold showsOwnPoints, annotationOf, withAnnotation.
  cbn [f_properties f_geometry p_estimated p_greedLevel].
  eexists. split; [reflexivity|]. split.
  - apply estimate_sum_weights.
  - rewrite Hres. reflexivity.
Qed.

Lemma rebuild_shows_own_points_witness :
  Forall (showsOwnPoints [synagogueRecord (1 # 2) (1 # 2)] Res5)
    (nextFC
       (rebuildPresence noJson gridH3 [synagogueRecord (1 # 2) (1 # 2)] Res5
          "pois:1:0" [])).
Proof.
  apply (rebuild_shows_own_points noJson gridH3
           [synagogueRecord (1 # 2) (1 # 2)] Res5 "pois:1:0").
  vm_compute. repeat constructor; discriminate.
Defined.

(** ** Projection and rounding *)

Lemma earth_radius_pos : (0 < EARTH_RADIUS)%R.
Proof. unfold EARTH_RADIUS. lra. Qed.

Lemma mercator_of_lonLat (x y : R) :
  lonLatToMercator (fst (mercatorToLonLat x y)) (snd (mercatorToLonLat x y))
  = (x, y).
Proof.
  unfold lonLatToMercator, mercatorToLonLat. cbn [fst snd].
  pose proof PI_RGT_0 as Hpi. pose proof earth_radius_pos as Hr.
  f_equal.
  - field. split; lra.
  - replace (PI / 4 + (atan (exp (y / EARTH_RADIUS)) * 360 / PI - 90) * PI / 360)%R
      with (atan (exp (y / EARTH_RADIUS))) by (field; lra).
    rewrite tan_atan, ln_exp. field. lra.
Qed.

Lemma lonLat_of_mercator (lon lat : R) :
  (-90 < lat < 90)%R ->
  mercatorToLonLat (fst (lonLatToMercator lon lat))
    (snd (lonLatToMercator lon lat))
  = (lon, lat).
Proof.
  intros Hlat. unfold lonLatToMercator, mercatorToLonLat. cbn [fst snd].
  pose proof PI_RGT_0 as Hpi. pose proof earth_radius_pos as Hr.
  set (theta := (PI / 4 + lat * PI / 360)%R).
  assert (Ht : (0 < theta < PI / 2)%R).
  { unfold theta. split; nra. }
  f_equal.
  - field. split; lra.
  - replace (ln (tan theta) * EARTH_RADIUS / EARTH_RADIUS)%R
      with (ln (tan theta)) by (field; lra).
    rewrite exp_ln by (apply tan_gt_0; lra).
    rewrite atan_tan by lra.
    unfold theta. field. lra.
Qed.

(** X26.  The two projections are inverse to each other: from the
    plane to longitude and latitude and back gives the point of the
    plane, for every point; from longitude and latitude to the plane
    and back gives the position, for every latitude strictly between
    the poles. *)
Theorem mercator_round_trip :
  (forall x y : R,
      lonLatToMercator (fst (mercatorToLonLat x y))
        (snd (mercatorToLonLat x y))
      = (x, y))
  /\ (forall lon lat : R,
         (-90 < lat < 90)%R ->
         mercatorToLonLat (fst (lonLatToMercator lon lat))
           (snd (lonLatToMercator lon lat))
         = (lon, lat)).
Proof. split; [exact mercator_of_lonLat|exact lonLat_of_mercator]. Qed.

Lemma mathRound_IZR (n : Z) : mathRound (IZR n) = n.
Proof.
  unfold mathRound. apply Zfloor_eq. lra.
Qed.

Lemma mathRound_bounds (x : R) :
  (IZR (mathRound x) - / 2 <= x < IZR (mathRound x) + / 2)%R.
Proof.
  unfold mathRound. pose proof (Zfloor_bound (x + / 2)) as H. lra.
Qed.

Lemma radius_pos (resolution : H3Resolution) :
  (0 < radiusMetersForResolution resolution)%R.
Proof. destruct resolution; cbn; lra. Qed.

Lemma homeCell_of_centre (resolution : H3Resolution) (cell : CellBucket) :
  homeCell resolution
    (mercatorToLonLat (fst (bucketCentre resolution cell))
       (snd (bucketCentre resolution cell)))
  = (b_row cell, b_col cell).
Proof.
  unfold homeCell. cbv zeta.
  destruct (mercatorToLonLat _ _) as [lon lat] eqn:E.
  pose proof (mercator_of_lonLat (fst (bucketCentre resolution cell))
                (snd (bucketCentre resolution cell))) as Hm.
  rewrite E in Hm. cbn [fst snd] in Hm. rewrite Hm.
  unfold bucketCentre. cbv zeta. cbn [fst snd].
  pose proof (radius_pos resolution) as Hr.
  set (r := radiusMetersForResolution resolution) in *.
  assert (H3 : (0 < sqrt 3)%R) by (apply sqrt_lt_R0; lra).
  assert (Hrow : mathRound (IZR (b_row cell) * (15 / 10 * r) / (15 / 10 * r))
                 = b_row cell).
  { replace (IZR (b_row cell) * (15 / 10 * r) / (15 / 10 * r))%R
      with (IZR (b_row cell)) by (field; lra).
    apply mathRound_IZR. }
  rewrite Hrow. f_equal.
  set (off := if (Z.rem (b_row cell) 2 =? 0)%Z then 0%R else (sqrt 3 * r / 2)%R).
  replace ((IZR (b_col cell) * (sqrt 3 * r) + off - off) / (sqrt 3 * r))%R
    with (IZR (b_col cell)) by (field; split; lra).
  apply mathRound_IZR.
Qed.

(** X27.  The hexagon drawn for a bucket is centred in the bucket's
    own cell: the ring of an emitted feature is built around a centre
    which, taken back to longitude and latitude and binned as a point,
    falls in the row and column of the bucket. *)
Theorem cell_centre_bins_home (resolution : H3Resolution)
  (cellId : string) (cell : CellBucket) :
  Forall
    (fun f =>
       g_ring f
       = makeHexRingMercator (fst (bucketCentre resolution cell))
           (snd (bucketCentre resolution cell))
           (radiusMetersForResolution resolution)
       /\ homeCell resolution
            (mercatorToLonLat (fst (bucketCentre resolution cell))
               (snd (bucketCentre resolution cell)))
          = (b_row cell, b_col cell))
    (emitBucket resolution (cellId, cell)).
Proof.
  unfold emitBucket. cbv zeta.
  destruct (Z.ltb (b_count cell) (minCountForResolution resolution));
    [constructor|].
  constructor; [|constructor]. split; [reflexivity|].
  apply homeCell_of_centre.
Qed.

Lemma pow10_8_pos : (0 < 10 ^ 8)%R.
Proof. apply pow_lt. lra. Qed.

(** X28.  Rounding a coordinate to eight decimal places moves it by at
    most half a unit of the eighth place, and rounding again changes
    nothing. *)
Theorem roundTo_error (n : R) :
  (Rabs (roundTo n VTX_DECIMALS - n) <= / 2 * / 10 ^ 8)%R
  /\ roundTo (roundTo n VTX_DECIMALS) VTX_DECIMALS = roundTo n VTX_DECIMALS.
Proof.
  unfold roundTo. cbv zeta. rewrite powerRZ_10_8.
  pose proof pow10_8_pos as Hp. set (p := (10 ^ 8)%R) in *.
  pose proof (mathRound_bounds (n * p)) as Hb.
  set (m := mathRound (n * p)) in *.
  split.
  - replace (IZR m / p - n)%R with ((IZR m - n * p) * / p)%R by (field; lra).
    rewrite Rabs_mult, (Rabs_pos_eq (/ p))
      by (apply Rlt_le, Rinv_0_lt_compat; exact Hp).
    apply Rmult_le_compat_r; [apply Rlt_le, Rinv_0_lt_compat; exact Hp|].
    apply Rabs_le. lra.
  - replace (IZR m / p * p)%R with (IZR m) by (field; lra).
    rewrite mathRound_IZR. reflexivity.
Qed.

(** ** Glow *)

(** X29.  The glow intensity lies between 0.25 and 1, never decreases
    when the count grows, is 0.25 up to count 0 and 1 from count 30
    on. *)
Theorem glow_intensity_range :
  (forall count, 25 # 100 <= glowIntensity count /\ glowIntensity count <= 1)
  /\ (forall count count',
         count <= count' -> glowIntensity count <= glowIntensity count')
  /\ (forall count, count <= 0 -> glowIntensity count == 25 # 100)
  /\ (forall count, 30 <= count -> glowIntensity count == 1).
Proof.
  assert (Hc : forall count,
             0 <= Js.max 0 (Js.min count 30)
             /\ Js.max 0 (Js.min count 30) <= 30)
    by (intros count; split; qmax_cases; qlra).
  assert (Hg : forall c, glowIntensity c
                         == (25 # 100)
                            + (75 # 100) * (Js.max 0 (Js.min c 30)
                                            * Js.max 0 (Js.min c 30)) / 900)
    by (intros c; unfold glowIntensity; cbv zeta; field).
  split; [|split; [|split]].
  - intros count. rewrite Hg. destruct (Hc count) as [H0 H30].
    set (c := Js.max 0 (Js.min count 30)) in *. clearbody c.
    split.
    + assert (0 <= c * c) by qnra.
      assert (0 <= (75 # 100) * (c * c) / 900)
        by (apply Qle_shift_div_l; [reflexivity|qlra]).
      qlra.
    + assert (c * c <= 900) by qnra.
      assert ((75 # 100) * (c * c) / 900 <= 75 # 100)
        by (apply Qle_shift_div_r; [reflexivity|qlra]).
      qlra.
  - intros count count' Hle. rewrite !Hg.
    destruct (Hc count) as [H0 H30]. destruct (Hc count') as [H0' H30'].
    assert (Hm : Js.max 0 (Js.min count 30) <= Js.max 0 (Js.min count' 30))
      by (qmax_cases; qlra).
    set (c := Js.max 0 (Js.min count 30)) in *.
    set (c' := Js.max 0 (Js.min count' 30)) in *. clearbody c c'.
    assert (c * c <= c' * c') by qnra.
    assert ((75 # 100) * (c * c) / 900 <= (75 # 100) * (c' * c') / 900).
    { unfold Qdiv. apply Qmult_le_compat_r; [qlra|discriminate]. }
    qlra.
  - intros count Hle. rewrite Hg.
    assert (E : Js.max 0 (Js.min count 30) == 0) by (qmax_cases; qlra).
    rewrite E. reflexivity.
  - intros count Hge. rewrite Hg.
    assert (E : Js.max 0 (Js.min count 30) == 30) by (qmax_cases; qlra).
    rewrite E. reflexivity.
Qed.

(** ** The mock hexagon *)

Lemma hexRing_cos_bounds (lat : R) :
  (25 / 100 <= Rmax (25 / 100) (cos (degToRad lat)) <= 1)%R.
Proof.
  pose proof (COS_bound (degToRad lat)) as [_ H].
  split; [apply Rmax_l|]. apply Rmax_lub; lra.
Qed.

Lemma hexRingVertex_box (lon lat rLatDeg : R) (i : Z) :
  (0 <= rLatDeg)%R ->
  let v := hexRingVertex lon lat rLatDeg i in
  (Rabs (fst v - lon) <= 4 * rLatDeg)%R /\ (Rabs (snd v - lat) <= rLatDeg)%R.
Proof.
  intros Hr. unfold hexRingVertex. cbv zeta. cbn [fst snd].
  pose proof (hexRing_cos_bounds lat) as [Hlo Hhi].
  set (c := Rmax (25 / 100) (cos (degToRad lat))) in *. clearbody c.
  set (a := degToRad (60 * IZR i - 30)). clearbody a.
  pose proof (COS_bound a) as [Hc1 Hc2]. pose proof (SIN_bound a) as [Hs1 Hs2].
  assert (Hq : (0 <= rLatDeg / c <= 4 * rLatDeg)%R).
  { split.
    - apply Rmult_le_pos; [exact Hr|]. apply Rlt_le, Rinv_0_lt_compat. lra.
    - apply Rmult_le_reg_r with c; [lra|].
      replace (rLatDeg / c * c)%R with rLatDeg by (field; lra). nra. }
  split; apply Rabs_le.
  - replace (lon + rLatDeg / c * cos a - lon)%R with (rLatDeg / c * cos a)%R
      by ring.
    set (q := (rLatDeg / c)%R) in *. clearbody q. nra.
  - replace (lat + rLatDeg * sin a - lat)%R with (rLatDeg * sin a)%R by ring.
    nra.
Qed.

(** X30.  The ring of a mock hexagon is closed and pointy-top: seven
    vertices, the last equal to the first, one straight above the
    centre and one straight below it at the latitude radius; every
    vertex lies within the latitude radius of the centre in latitude
    and within four times that radius in longitude, at every
    latitude. *)
Theorem mock_hex_ring_shape (lon lat rLatDeg : R) :
  let ring := hexRing lon lat rLatDeg in
  List.length ring = 7%nat
  /\ nth 6 ring (0, 0)%R = nth 0 ring (0, 0)%R
  /\ nth 2 ring (0, 0)%R = (lon, (lat + rLatDeg)%R)
  /\ nth 5 ring (0, 0)%R = (lon, (lat - rLatDeg)%R)
  /\ ((0 <= rLatDeg)%R ->
      Forall
        (fun v =>
           (Rabs (fst v - lon) <= 4 * rLatDeg)%R
           /\ (Rabs (snd v - lat) <= rLatDeg)%R)
        ring).
Proof.
  cbv zeta. unfold hexRing. cbn [map app nth List.length].
  split; [reflexivity|]. split; [reflexivity|].
  split; [|split].
  - unfold hexRingVertex. cbv zeta.
    replace (degToRad (60 * 2 - 30)) with (PI / 2)%R
      by (unfold degToRad; field).
    rewrite cos_PI2, sin_PI2. f_equal; ring.
  - unfold hexRingVertex. cbv zeta.
    replace (degToRad (60 * 5 - 30)) with (3 * (PI / 2))%R
      by (unfold degToRad; field).
    rewrite cos_3PI2, sin_3PI2. f_equal; ring.
  - intros Hr.
    repeat (constructor; [apply hexRingVertex_box; exact Hr|]).
    constructor.
Qed.
